(** * Version reconciliation and release ledger of the SDK generation action

    A shallow embedding of [checkForChanges] (main.go) and of the release
    ledger of pkg/releases (releases.go), with the properties of the
    specification stated and settled against them. *)

From Stdlib Require Import ZArith String Ascii List Bool Lia.
From stdpp Require Import base tactics option list strings pretty gmap.
Import ListNotations.

Local Open Scope string_scope.
Local Open Scope Z_scope.

(** ** Go primitives *)

(** The line feed, written [\n] in the Go sources. *)
Definition LF : ascii := ascii_of_nat 10.
Definition nl : string := String LF "".

(** Go's [int] on the 64-bit targets the action is built for: arithmetic
    wraps around modulo 2^64 into [-2^63, 2^63). *)
Module GoInt.
Definition min_int : Z := - 2 ^ 63.
Definition max_int : Z := 2 ^ 63 - 1.
Definition in_range (z : Z) : Prop := min_int <= z <= max_int.
Definition wrap (z : Z) : Z := (z + 2 ^ 63) mod 2 ^ 64 - 2 ^ 63.
(** [x++] *)
Definition incr (z : Z) : Z := wrap (z + 1).
End GoInt.

(** An [error] value is represented by its message; [fmt.Errorf] with a
    trailing [%w] appends the message of the wrapped error. *)
Definition error := string.
Definition Errorf_w (msg : string) (err : error) : error := msg +:+ err.

(** What a [*version.Version] of hashicorp/go-version exposes to this
    program: the integers returned by [Segments()]. *)
Record Version := mkVersion { Segments : list Z }.

(** [fmt.Sprintf("%d.%d.%d", major, minor, patch)] *)
Definition Sprintf_d_d_d (major minor patch : Z) : string :=
  pretty major +:+ "." +:+ pretty minor +:+ "." +:+ pretty patch.

(** A text without a dot, as the decimal notation of an integer is. *)
Fixpoint dotless (s : string) : Prop :=
  match s with
  | EmptyString => True
  | String c s' => c <> "."%char /\ dotless s'
  end.

(** ** Control flow of a Go function body

    A statement either falls through to the next one, returns the pair
    [(string, error)] of the enclosing function, or panics (an index out
    of range). What the body writes to standard output is threaded
    through as state. *)
Inductive flow (A : Type) : Type :=
| Next (a : A)
| Return (v : string) (err : option error)
| Panic.
Arguments Next {A} a.
Arguments Return {A} v err.
Arguments Panic {A}.

Definition Exec (A : Type) : Type := list string -> flow A * list string.

Definition ret {A} (a : A) : Exec A := fun out => (Next a, out).
Definition bind {A B} (m : Exec A) (k : A -> Exec B) : Exec B :=
  fun out =>
    match m out with
    | (Next a, out') => k a out'
    | (Return v e, out') => (Return v e, out')
    | (Panic, out') => (Panic, out')
    end.
Definition return_ {A} (v : string) (err : option error) : Exec A :=
  fun out => (Return v err, out).
Definition print (s : string) : Exec unit :=
  fun out => (Next tt, (out ++ [s])%list).
Definition Println (s : string) : Exec unit := print (s +:+ nl).

Declare Scope exec_scope.
Delimit Scope exec_scope with exec.
Notation "'let*' p ':=' m 'in' k" := (bind m (fun p => k))
  (at level 10, p pattern, m at level 100, k at level 200) : exec_scope.
Notation "m ;;; k" := (bind m (fun _ => k))
  (at level 100, right associativity) : exec_scope.

(** [v.Segments()[i]]: panics when [i] is out of range. *)
Definition segment (v : Version) (i : nat) : Exec Z :=
  fun out =>
    match Segments v !! i with
    | Some z => (Next z, out)
    | None => (Panic, out)
    end.

(** ** main.go: [checkForChanges] *)

Section Reconciler.

(** [version.NewVersion] of hashicorp/go-version, a library outside the
    repository: the parsed version or the library's error. *)
Variable NewVersion : string -> Version + error.

Definition changed_detected (what previous current : string) : string :=
  what +:+ " version changed detected: " +:+ previous +:+ " > " +:+ current +:+ nl.

(** Lines 209-232: the bump the Speakeasy (tool) version asks for. The
    three flags enter as they stand and leave updated. *)
Definition bump_from_speakeasy_version (speakeasyVersion : string)
    (mgmtConfig : gmap string string) (bumpMajor bumpMinor bumpPatch : bool)
    : Exec (bool * bool * bool) :=
  (if (mgmtConfig !!! "speakeasy-version" =? "")%string then
     ret (bumpMajor, true, bumpPatch)
   else
     match NewVersion (mgmtConfig !!! "speakeasy-version") with
     | inr err =>
         return_ "" (Some (Errorf_w "error parsing config speakeasy version: " err))
     | inl previousSpeakeasyV =>
         match NewVersion speakeasyVersion with
         | inr err =>
             return_ "" (Some (Errorf_w "error parsing speakeasy version: " err))
         | inl currentSpeakeasyV =>
             let* c0 := segment currentSpeakeasyV 0 in
             let* p0 := segment previousSpeakeasyV 0 in
             if c0 >? p0 then
               print (changed_detected "Speakeasy"
                        (mgmtConfig !!! "speakeasy-version") speakeasyVersion) ;;;
               ret (true, bumpMinor, bumpPatch)
             else
               let* c1 := segment currentSpeakeasyV 1 in
               let* p1 := segment previousSpeakeasyV 1 in
               if c1 >? p1 then
                 print (changed_detected "Speakeasy"
                          (mgmtConfig !!! "speakeasy-version") speakeasyVersion) ;;;
                 ret (bumpMajor, true, bumpPatch)
               else
                 let* c2 := segment currentSpeakeasyV 2 in
                 let* p2 := segment previousSpeakeasyV 2 in
                 if c2 >? p2 then
                   print (changed_detected "Speakeasy"
                            (mgmtConfig !!! "speakeasy-version") speakeasyVersion) ;;;
                   ret (bumpMajor, bumpMinor, true)
                 else ret (bumpMajor, bumpMinor, bumpPatch)
         end
     end)%exec.

(** Lines 234-263: the bump the OpenAPI document version asks for, and
    whether that version was found to have moved up. *)
Definition bump_from_openapi_version (docVersion : string)
    (mgmtConfig : gmap string string) (bumpMajor bumpMinor bumpPatch : bool)
    : Exec (bool * bool * bool * bool) :=
  (let docVersionUpdated := false in
   if (mgmtConfig !!! "openapi-version" =? "")%string then
     ret (bumpMajor, true, bumpPatch, docVersionUpdated)
   else
     match NewVersion docVersion with
     | inl currentDocV =>
         match NewVersion (mgmtConfig !!! "openapi-version") with
         | inr err =>
             return_ "" (Some (Errorf_w "error parsing config openapi version: " err))
         | inl previousDocV =>
             let* c0 := segment currentDocV 0 in
             let* p0 := segment previousDocV 0 in
             if c0 >? p0 then
               print (changed_detected "OpenAPI doc"
                        (mgmtConfig !!! "openapi-version") docVersion) ;;;
               ret (true, bumpMinor, bumpPatch, true)
             else
               let* c1 := segment currentDocV 1 in
               let* p1 := segment previousDocV 1 in
               if c1 >? p1 then
                 print (changed_detected "OpenAPI doc"
                          (mgmtConfig !!! "openapi-version") docVersion) ;;;
                 ret (bumpMajor, true, bumpPatch, true)
               else
                 let* c2 := segment currentDocV 2 in
                 let* p2 := segment previousDocV 2 in
                 if c2 >? p2 then
                   print (changed_detected "OpenAPI doc"
                            (mgmtConfig !!! "openapi-version") docVersion) ;;;
                   ret (bumpMajor, bumpMinor, true, true)
                 else ret (bumpMajor, bumpMinor, bumpPatch, docVersionUpdated)
         end
     | inr _ =>
         (* If not a semver then we just deal with the checksum *)
         Println "::warning title=invalid_version::openapi version is not a semver" ;;;
         ret (bumpMajor, bumpMinor, bumpPatch, docVersionUpdated)
     end)%exec.

(** Lines 265-275: the bump the document checksum asks for. *)
Definition bump_from_checksum (docChecksum : string)
    (mgmtConfig : gmap string string) (bumpMinor bumpPatch docVersionUpdated : bool)
    : Exec (bool * bool) :=
  (if (mgmtConfig !!! "openapi-checksum" =? "")%string then
     ret (true, bumpPatch)
   else if negb (docChecksum =? mgmtConfig !!! "openapi-checksum")%string then
     print ("OpenAPI doc checksum changed detected: "
            +:+ mgmtConfig !!! "openapi-checksum" +:+ " > " +:+ docChecksum +:+ nl) ;;;
     (if negb docVersionUpdated then
        Println "::warning title=checksum_changed::openapi checksum changed but version did not"
      else ret tt) ;;;
     ret (bumpMinor, true)
   else ret (bumpMinor, bumpPatch))%exec.

(** Lines 277-288: the starting point, zero unless the SDK has a version. *)
Definition previous_version (sdkVersion : string) : Exec (Z * Z * Z) :=
  (let major := 0 in
   let minor := 0 in
   let patch := 0 in
   if negb (sdkVersion =? "")%string then
     match NewVersion sdkVersion with
     | inr err => return_ "" (Some (Errorf_w "error parsing sdk version: " err))
     | inl sdkV =>
         let* major := segment sdkV 0 in
         let* minor := segment sdkV 1 in
         let* patch := segment sdkV 2 in
         ret (major, minor, patch)
     end
   else ret (major, minor, patch))%exec.

(** Lines 290-302: the bump itself. *)
Definition bump_version (bumpMajor bumpMinor bumpPatch : bool) (major minor patch : Z)
    : Exec (Z * Z * Z) :=
  (if bumpMajor then
     Println "Bumping SDK major version" ;;;
     ret (GoInt.incr major, 0, 0)
   else if bumpMinor then
     Println "Bumping SDK minor version" ;;;
     ret (major, GoInt.incr minor, 0)
   else if bumpPatch then
     Println "Bumping SDK patch version" ;;;
     ret (major, minor, GoInt.incr patch)
   else ret (major, minor, patch))%exec.

(** [checkForChanges], lines 203-308, its statement groups in order. *)
Definition checkForChanges
    (speakeasyVersion docVersion docChecksum sdkVersion : string)
    (mgmtConfig : gmap string string) : Exec Empty_set :=
  (if negb (speakeasyVersion =? mgmtConfig !!! "speakeasy-version")%string
      || negb (docVersion =? mgmtConfig !!! "openapi-version")%string
      || negb (docChecksum =? mgmtConfig !!! "openapi-checksum")%string
   then
     let bumpMajor := false in
     let bumpMinor := false in
     let bumpPatch := false in
     let* (bumpMajor, bumpMinor, bumpPatch) :=
       bump_from_speakeasy_version speakeasyVersion mgmtConfig
         bumpMajor bumpMinor bumpPatch in
     let* (bumpMajor, bumpMinor, bumpPatch, docVersionUpdated) :=
       bump_from_openapi_version docVersion mgmtConfig
         bumpMajor bumpMinor bumpPatch in
     let* (bumpMinor, bumpPatch) :=
       bump_from_checksum docChecksum mgmtConfig
         bumpMinor bumpPatch docVersionUpdated in
     let* (major, minor, patch) := previous_version sdkVersion in
     let* (major, minor, patch) :=
       bump_version bumpMajor bumpMinor bumpPatch major minor patch in
     return_ (Sprintf_d_d_d major minor patch) None
   else
     return_ "" None)%exec.

End Reconciler.

(** ** A reference instance of the version parser

    [version.NewVersion] restricted to plain dotted-decimal versions: an
    optional [v], then one or more groups of decimal digits separated by
    dots, each read by [strconv.ParseInt(_, 10, 64)], and the segments
    padded with zeros to three. (The library also accepts pre-release and
    build-metadata suffixes; they play no part in the inputs this instance
    is evaluated on.) *)
Module GoVersion.

Definition digit (c : ascii) : option Z :=
  let n := Z.of_nat (nat_of_ascii c) in
  if (48 <=? n) && (n <=? 57) then Some (n - 48) else None.

Fixpoint digits (acc : Z) (s : string) : option Z :=
  match s with
  | EmptyString => Some acc
  | String c s' =>
      match digit c with
      | Some d => digits (10 * acc + d) s'
      | None => None
      end
  end.

(** [strings.Split(s, ".")] *)
Fixpoint split_dot (s : string) : list string :=
  match s with
  | EmptyString => [EmptyString]
  | String c s' =>
      if Ascii.eqb c "." then EmptyString :: split_dot s'
      else match split_dot s' with
           | h :: t => String c h :: t
           | [] => [String c EmptyString]
           end
  end.

Definition strip_v (s : string) : string :=
  match s with
  | String "v" s' => s'
  | _ => s
  end.

Definition well_formed (parts : list string) : bool :=
  forallb (fun p => match p with
                    | EmptyString => false
                    | _ => match digits 0 p with Some _ => true | None => false end
                    end) parts.

Fixpoint ParseInts (parts : list string) : list Z + error :=
  match parts with
  | [] => inl []
  | p :: rest =>
      match digits 0 p with
      | Some z =>
          if z <=? GoInt.max_int then
            match ParseInts rest with
            | inl zs => inl (z :: zs)
            | inr e => inr e
            end
          else inr ("Error parsing version: strconv.ParseInt: parsing "
                    +:+ p +:+ ": value out of range")
      | None => inr ("Malformed version: " +:+ p)
      end
  end.

Definition pad3 (segs : list Z) : list Z :=
  (segs ++ repeat 0 (3 - length segs))%list.

Definition NewVersion (v : string) : Version + error :=
  let parts := split_dot (strip_v v) in
  if well_formed parts then
    match ParseInts parts with
    | inl segs => inl (mkVersion (pad3 segs))
    | inr e => inr e
    end
  else inr ("Malformed version: " +:+ v).

End GoVersion.

(** ** The change signals, as the specification words them

    Section 4.1 of the specification describes [checkForChanges] as three
    independent recommendations that are then resolved by precedence. The
    definitions below follow that wording; the theorems relate them to
    the code. *)
Module Signals.

Inductive Bump : Type := Major | Minor | Patch.

Global Instance Bump_eq_dec : EqDecision Bump.
Proof. solve_decision. Defined.

(** The [(major, minor, patch)] segments of a parsed version. *)
Definition triple (v : Version) : option (Z * Z * Z) :=
  match Segments v with
  | a :: b :: c :: _ => Some (a, b, c)
  | _ => None
  end.

(** Most-significant first, the first segment found to have increased. *)
Definition first_increase (cur prev : Z * Z * Z) : option Bump :=
  let '(c0, c1, c2) := cur in
  let '(p0, p1, p2) := prev in
  if c0 >? p0 then Some Major
  else if c1 >? p1 then Some Minor
  else if c2 >? p2 then Some Patch
  else None.

(** Lexicographic order of version triples. *)
Definition triple_le (a b : Z * Z * Z) : Prop :=
  let '(a0, a1, a2) := a in
  let '(b0, b1, b2) := b in
  a0 < b0 \/ (a0 = b0 /\ (a1 < b1 \/ (a1 = b1 /\ a2 <= b2))).

Section WithParser.
Variable NewVersion : string -> Version + error.

Definition parsed (s : string) : option (Z * Z * Z) :=
  match NewVersion s with
  | inl v => triple v
  | inr _ => None
  end.

Definition parses (s : string) : Prop := exists v, NewVersion s = inl v.
Definition fails (s : string) : Prop := exists e, NewVersion s = inr e.

Definition tool_signal (toolVersion previous : string) : option Bump :=
  if (previous =? "")%string then Some Minor
  else match parsed toolVersion, parsed previous with
       | Some cur, Some prev => first_increase cur prev
       | _, _ => None
       end.

Definition doc_signal (docVersion previous : string) : option Bump :=
  if (previous =? "")%string then Some Minor
  else match parsed docVersion, parsed previous with
       | Some cur, Some prev => first_increase cur prev
       | _, _ => None
       end.

Definition checksum_signal (docChecksum previous : string) : option Bump :=
  if (previous =? "")%string then Some Minor
  else if negb (docChecksum =? previous)%string then Some Patch
  else None.

(** The signal [s] recommends the level [b]. *)
Definition asks (b : Bump) (s : option Bump) : bool := bool_decide (s = Some b).

(** Precedence among three flags. *)
Definition resolve (bumpMajor bumpMinor bumpPatch : bool) : option Bump :=
  if bumpMajor then Some Major
  else if bumpMinor then Some Minor
  else if bumpPatch then Some Patch
  else None.

(** Some signal recommends the level [b]. *)
Definition recommended (toolVersion docVersion docChecksum : string)
    (mgmt : gmap string string) (b : Bump) : bool :=
  bool_decide (tool_signal toolVersion (mgmt !!! "speakeasy-version") = Some b)
  || bool_decide (doc_signal docVersion (mgmt !!! "openapi-version") = Some b)
  || bool_decide (checksum_signal docChecksum (mgmt !!! "openapi-checksum") = Some b).

(** Strict precedence Major > Minor > Patch. *)
Definition decision (toolVersion docVersion docChecksum : string)
    (mgmt : gmap string string) : option Bump :=
  if recommended toolVersion docVersion docChecksum mgmt Major then Some Major
  else if recommended toolVersion docVersion docChecksum mgmt Minor then Some Minor
  else if recommended toolVersion docVersion docChecksum mgmt Patch then Some Patch
  else None.

(** The starting point: [(0,0,0)] for an empty previous SDK version,
    else its parsed value. *)
Definition previous_sdk (sdkVersion : string) : option (Z * Z * Z) :=
  if (sdkVersion =? "")%string then Some (0, 0, 0) else parsed sdkVersion.

(** The metadata of this run differ from the recorded ones. *)
Definition differs (toolVersion docVersion docChecksum : string)
    (mgmt : gmap string string) : Prop :=
  toolVersion <> mgmt !!! "speakeasy-version"
  \/ docVersion <> mgmt !!! "openapi-version"
  \/ docChecksum <> mgmt !!! "openapi-checksum".

(** The failure conditions: the first version that had to parse and
    did not, with the error reported for it. The previous tool version
    and the tool version are read only when a previous tool version is
    recorded; the previous document version only when one is recorded
    and the current document version parses; the SDK version only when
    it is not empty. *)
Definition tool_error (toolVersion previous : string) : option error :=
  if (previous =? "")%string then None
  else match NewVersion previous with
       | inr e => Some (Errorf_w "error parsing config speakeasy version: " e)
       | inl _ =>
           match NewVersion toolVersion with
           | inr e => Some (Errorf_w "error parsing speakeasy version: " e)
           | inl _ => None
           end
       end.

Definition doc_error (docVersion previous : string) : option error :=
  if (previous =? "")%string then None
  else match NewVersion docVersion with
       | inr _ => None
       | inl _ =>
           match NewVersion previous with
           | inr e => Some (Errorf_w "error parsing config openapi version: " e)
           | inl _ => None
           end
       end.

Definition sdk_error (sdkVersion : string) : option error :=
  if (sdkVersion =? "")%string then None
  else match NewVersion sdkVersion with
       | inr e => Some (Errorf_w "error parsing sdk version: " e)
       | inl _ => None
       end.

Definition fatal_error (toolVersion docVersion sdkVersion : string)
    (mgmt : gmap string string) : option error :=
  match tool_error toolVersion (mgmt !!! "speakeasy-version"),
        doc_error docVersion (mgmt !!! "openapi-version"),
        sdk_error sdkVersion with
  | Some e, _, _ => Some e
  | None, Some e, _ => Some e
  | None, None, e => e
  end.

End WithParser.

(** What the library guarantees of a parsed version: at least three
    segments (shorter versions are padded with zeros), each an [int]. *)
Definition library_contract (NewVersion : string -> Version + error) : Prop :=
  forall s v, NewVersion s = inl v ->
    (3 <= length (Segments v))%nat /\ Forall GoInt.in_range (Segments v).

(** The bump of one component, in unbounded arithmetic. *)
Definition bumped (b : option Bump) (t : Z * Z * Z) : Z * Z * Z :=
  let '(major, minor, patch) := t in
  match b with
  | Some Major => (major + 1, 0, 0)
  | Some Minor => (major, minor + 1, 0)
  | Some Patch => (major, minor, patch + 1)
  | None => (major, minor, patch)
  end.

(** The bump of one component as the program computes it, on [int]. *)
Definition bump_int (b : option Bump) (t : Z * Z * Z) : Z * Z * Z :=
  let '(major, minor, patch) := t in
  match b with
  | Some Major => (GoInt.incr major, 0, 0)
  | Some Minor => (major, GoInt.incr minor, 0)
  | Some Patch => (major, minor, GoInt.incr patch)
  | None => (major, minor, patch)
  end.

(** The component a bump increments. *)
Definition component (b : Bump) (t : Z * Z * Z) : Z :=
  let '(major, minor, patch) := t in
  match b with Major => major | Minor => minor | Patch => patch end.

Definition format (t : Z * Z * Z) : string :=
  let '(major, minor, patch) := t in Sprintf_d_d_d major minor patch.

(** What the algorithm of section 4.1 yields once the metadata differ:
    the first failure, else the previous version bumped on the level the
    precedence selects. *)
Definition outcome (NewVersion : string -> Version + error)
    (toolVersion docVersion docChecksum sdkVersion : string)
    (mgmt : gmap string string) : flow Empty_set :=
  match fatal_error NewVersion toolVersion docVersion sdkVersion mgmt with
  | Some e => Return "" (Some e)
  | None =>
      match previous_sdk NewVersion sdkVersion with
      | Some t =>
          Return (format (bump_int (decision NewVersion toolVersion docVersion docChecksum mgmt) t))
            None
      | None => Panic
      end
  end.

End Signals.

(** The management section of a generator configuration. *)
Definition management (speakeasy openapi checksum : string) : gmap string string :=
  <["speakeasy-version" := speakeasy]>
    (<["openapi-version" := openapi]>
       (<["openapi-checksum" := checksum]> ∅)).

(** The call as [runAction] makes it: standard output starts empty. *)
Definition Decide (NewVersion : string -> Version + error)
    (toolVersion docVersion docChecksum previousSdkVersion : string)
    (previousMgmt : gmap string string) : flow Empty_set * list string :=
  checkForChanges NewVersion toolVersion docVersion docChecksum
    previousSdkVersion previousMgmt [].

(** ** Go's [strings] package *)
Module strings.

(** [strings.HasPrefix(s, prefix)] *)
Fixpoint HasPrefix (s prefix : string) {struct prefix} : bool :=
  match prefix with
  | EmptyString => true
  | String p prefix' =>
      match s with
      | String c s' => Ascii.eqb c p && HasPrefix s' prefix'
      | EmptyString => false
      end
  end.

Fixpoint drop (n : nat) (s : string) : string :=
  match n, s with
  | S n', String _ s' => drop n' s'
  | _, _ => s
  end.

Fixpoint take (n : nat) (s : string) : string :=
  match n, s with
  | S n', String c s' => String c (take n' s')
  | _, _ => EmptyString
  end.

(** [strings.Contains(s, substr)] *)
Fixpoint Contains (s substr : string) : bool :=
  HasPrefix s substr
  || match s with
     | EmptyString => false
     | String _ s' => Contains s' substr
     end.

(** The last character of [s], if it has one. *)
Fixpoint last_char (s : string) : option ascii :=
  match s with
  | EmptyString => None
  | String c EmptyString => Some c
  | String _ s' => last_char s'
  end.

(** Every character of [s] passes the test [p]. *)
Fixpoint every (p : ascii -> bool) (s : string) : bool :=
  match s with
  | EmptyString => true
  | String c s' => p c && every p s'
  end.

(** [strings.TrimPrefix(s, prefix)] *)
Definition TrimPrefix (s prefix : string) : string :=
  if HasPrefix s prefix then drop (String.length prefix) s else s.

(** [strings.Split(s, sep)] for a non-empty [sep]: the pieces between
    the non-overlapping occurrences of [sep], found from the left.
    [skip] counts the characters of an occurrence still to pass over. *)
Fixpoint split_from (sep : string) (skip : nat) (s : string) : list string :=
  match s with
  | EmptyString => [EmptyString]
  | String c s' =>
      match skip with
      | S n => split_from sep n s'
      | O =>
          if HasPrefix s sep then
            EmptyString :: split_from sep (String.length sep - 1) s'
          else
            match split_from sep 0 s' with
            | piece :: rest => String c piece :: rest
            | [] => [String c EmptyString]
            end
      end
  end.

Definition Split (s sep : string) : list string := split_from sep 0 s.

(** [strings.Join(elems, sep)] *)
Fixpoint Join (elems : list string) (sep : string) : string :=
  match elems with
  | [] => EmptyString
  | [e] => e
  | e :: rest => e +:+ sep +:+ Join rest sep
  end.

End strings.

(** ** Go's [regexp] package

    The syntax the program's patterns use, and leftmost-first matching as
    the package documents it: the match begins as early as possible in
    the input and is the one a backtracking search finds first.

    A text is a sequence of bytes and a dot matches one byte, where Go
    matches one UTF-8 encoded character. Under a star that an ASCII
    literal or the end of the pattern follows the two read the same
    submatches, no byte of a longer encoding being ASCII; every dot of
    the program's patterns is of that kind but the one of [github.com]
    in the Go pattern, which on a text outside ASCII stands for one byte
    here and for one character in Go. *)
Module regexp.

Inductive regex : Type :=
  | Str (lit : string)          (* literal characters, escaped or not *)
  | Dot                         (* [.]: any character but a line feed *)
  | DotAll                      (* [.] under the flag [s]: any character *)
  | Digit                       (* [\d] *)
  | Cat (r1 r2 : regex)         (* concatenation *)
  | Star (r : regex)            (* [r*], greedy *)
  | LazyStar (r : regex)        (* [r*?], non-greedy *)
  | Plus (r : regex)            (* [r+], greedy *)
  | Opt (r : regex)             (* [r?], greedy *)
  | Group (i : nat) (r : regex) (* the [i]-th capturing group *).

Definition is_digit (c : ascii) : bool :=
  let n := nat_of_ascii c in (48 <=? n)%nat && (n <=? 57)%nat.

(** Number of capturing groups, [NumSubexp]. *)
Fixpoint NumSubexp (r : regex) : nat :=
  match r with
  | Str _ | Dot | DotAll | Digit => 0
  | Cat r1 r2 => NumSubexp r1 + NumSubexp r2
  | Star r | LazyStar r | Plus r | Opt r => NumSubexp r
  | Group _ r => S (NumSubexp r)
  end.

(** The text consumed between the input [s] and what is left of it. *)
Definition consumed (s rest : string) : string :=
  strings.take (String.length s - String.length rest) s.

Section Backtracking.
Context {R : Type}.

(** Greedy and non-greedy iteration of a step [body]; an iteration
    that consumes nothing is not repeated. *)
Fixpoint greedy
    (body : string -> list string -> (string -> list string -> option R) -> option R)
    (k : string -> list string -> option R)
    (fuel : nat) (s : string) (caps : list string) : option R :=
  match fuel with
  | O => k s caps
  | S fuel' =>
      match body s caps (fun s' caps' =>
              if (String.length s' <? String.length s)%nat
              then greedy body k fuel' s' caps' else None) with
      | Some res => Some res
      | None => k s caps
      end
  end.

Fixpoint lazy
    (body : string -> list string -> (string -> list string -> option R) -> option R)
    (k : string -> list string -> option R)
    (fuel : nat) (s : string) (caps : list string) : option R :=
  match k s caps with
  | Some res => Some res
  | None =>
      match fuel with
      | O => None
      | S fuel' =>
          body s caps (fun s' caps' =>
            if (String.length s' <? String.length s)%nat
            then lazy body k fuel' s' caps' else None)
      end
  end.

(** [exec r s caps k]: match [r] at the head of [s], trying the
    alternatives in priority order, and hand what is left of the
    input and the submatches to [k]; [None] asks for the next
    alternative. *)
Fixpoint exec (r : regex) (s : string) (caps : list string)
    (k : string -> list string -> option R) : option R :=
  match r with
  | Str lit =>
      if strings.HasPrefix s lit then k (strings.drop (String.length lit) s) caps
      else None
  | Dot =>
      match s with
      | String c s' => if Ascii.eqb c LF then None else k s' caps
      | EmptyString => None
      end
  | DotAll =>
      match s with
      | String _ s' => k s' caps
      | EmptyString => None
      end
  | Digit =>
      match s with
      | String c s' => if is_digit c then k s' caps else None
      | EmptyString => None
      end
  | Cat r1 r2 => exec r1 s caps (fun s' caps' => exec r2 s' caps' k)
  | Star r => greedy (exec r) k (String.length s) s caps
  | LazyStar r => lazy (exec r) k (String.length s) s caps
  | Plus r =>
      exec r s caps (fun s' caps' => greedy (exec r) k (String.length s') s' caps')
  | Opt r =>
      match exec r s caps k with
      | Some res => Some res
      | None => k s caps
      end
  | Group i r =>
      exec r s caps (fun s' caps' => k s' (<[i := consumed s s']> caps'))
  end.
End Backtracking.

(** The submatches of the match of [r] that starts at the head of [s]. *)
Definition match_here (r : regex) (s : string) : option (list string) :=
  exec r s (replicate (S (NumSubexp r)) EmptyString)
    (fun rest caps => Some (<[0%nat := consumed s rest]> caps)).

(** [r.FindStringSubmatch(s)]: the text of the leftmost match of [r] in
    [s] followed by the text of its capturing groups; [nil] when [r]
    matches nowhere. *)
Fixpoint FindStringSubmatch (r : regex) (s : string) : list string :=
  match match_here r s with
  | Some matches => matches
  | None =>
      match s with
      | EmptyString => []
      | String _ s' => FindStringSubmatch r s'
      end
  end.

(** The language of a pattern, priorities and submatches left aside: the
    texts the pattern can match from end to end. A repetition is made of
    non-empty iterations. *)
Inductive Lang : regex -> string -> Prop :=
| Lang_Str lit : Lang (Str lit) lit
| Lang_Dot c : c <> LF -> Lang Dot (String c EmptyString)
| Lang_DotAll c : Lang DotAll (String c EmptyString)
| Lang_Digit c : is_digit c = true -> Lang Digit (String c EmptyString)
| Lang_Cat r1 r2 m1 m2 : Lang r1 m1 -> Lang r2 m2 -> Lang (Cat r1 r2) (m1 +:+ m2)
| Lang_Star_nil r : Lang (Star r) EmptyString
| Lang_Star_cons r m1 m2 :
    Lang r m1 -> m1 <> EmptyString -> Lang (Star r) m2 -> Lang (Star r) (m1 +:+ m2)
| Lang_LazyStar_nil r : Lang (LazyStar r) EmptyString
| Lang_LazyStar_cons r m1 m2 :
    Lang r m1 -> m1 <> EmptyString -> Lang (LazyStar r) m2 -> Lang (LazyStar r) (m1 +:+ m2)
| Lang_Plus r m1 m2 : Lang r m1 -> Lang (Star r) m2 -> Lang (Plus r) (m1 +:+ m2)
| Lang_Opt_none r : Lang (Opt r) EmptyString
| Lang_Opt_some r m : Lang r m -> Lang (Opt r) m
| Lang_Group i r m : Lang r m -> Lang (Group i r) m.

(** The pattern matches somewhere in the text. *)
Definition occurs (r : regex) (s : string) : Prop :=
  exists before m after, s = before +:+ m +:+ after /\ Lang r m.

End regexp.

(** ** pkg/releases/releases.go *)
Module releases.
Import regexp.

Record LanguageReleaseInfo := {
  PackageName : string;
  Path : string;
  Version : string;
  URL : string }.

Record ReleasesInfo := {
  ReleaseTitle : string;
  DocVersion : string;
  SpeakeasyVersion : string;
  DocLocation : string;
  Languages : gmap string LanguageReleaseInfo }.

(** [os.Getenv]: the value of the variable, empty when it is unset. *)
Definition Getenv (env : gmap string string) (key : string) : string := env !!! key.

(** The body of the loop of [ReleasesInfo.String] for one entry of the
    map: the release lines gathered so far, extended when the language
    has a package label. *)
Definition release_line (env : gmap string string) (releasesOutput : list string)
    (entry : string * LanguageReleaseInfo) : list string :=
  let '(lang, info) := entry in
  let '(pkgID, pkgURL) :=
    if (lang =? "go")%string then
      let repoPath := Getenv env "GITHUB_REPOSITORY" in
      let tag := "v" +:+ Version info in
      let tag := if negb (Path info =? ".")%string then Path info +:+ "/" +:+ tag else tag in
      ("Go", "https://github.com/" +:+ repoPath +:+ "/releases/tag/" +:+ tag)
    else if (lang =? "typescript")%string then
      ("NPM", "https://www.npmjs.com/package/" +:+ PackageName info +:+ "/v/" +:+ Version info)
    else if (lang =? "python")%string then
      ("PyPI", "https://pypi.org/project/" +:+ PackageName info +:+ "/" +:+ Version info)
    else if (lang =? "php")%string then
      ("Composer", "https://packagist.org/packages/" +:+ PackageName info +:+ "#v" +:+ Version info)
    else ("", "") in
  if negb (pkgID =? "")%string then
    (releasesOutput ++
       ["- [" +:+ pkgID +:+ " v" +:+ Version info +:+ "] " +:+ pkgURL +:+ " - " +:+ Path info])%list
  else releasesOutput.

(** [ReleasesInfo.String], given the order in which the [range] over the
    map [r.Languages] visits its entries (Go leaves that order
    unspecified; see [visits]). *)
Definition String_in (env : gmap string string) (r : ReleasesInfo)
    (order : list (string * LanguageReleaseInfo)) : string :=
  let releasesOutput := fold_left (release_line env) order [] in
  let releasesOutput :=
    if (0 <? length releasesOutput)%nat
    then (nl +:+ "### Releases") :: releasesOutput
    else releasesOutput in
  nl +:+ nl +:+ "## " +:+ ReleaseTitle r +:+ nl
  +:+ "### Changes" +:+ nl
  +:+ "Based on:" +:+ nl
  +:+ "- OpenAPI Doc " +:+ DocVersion r +:+ " " +:+ DocLocation r +:+ nl
  +:+ "- Speakeasy CLI " +:+ SpeakeasyVersion r
  +:+ " https://github.com/speakeasy-api/speakeasy"
  +:+ strings.Join releasesOutput nl.

(** An order in which a [range] may visit the entries of [r.Languages]:
    each entry once. *)
Definition visits (r : ReleasesInfo) (order : list (string * LanguageReleaseInfo)) : Prop :=
  order ≡ₚ map_to_list (Languages r).

(** [UpdateReleasesFile] on a file system that grants the open and the
    write: RELEASES.md, created when absent, receives the record at its
    end. *)
Definition UpdateReleasesFile (env : gmap string string) (file : option string)
    (releaseInfo : ReleasesInfo) (order : list (string * LanguageReleaseInfo)) : string :=
  default "" file +:+ String_in env releaseInfo order.

Local Notation "r1 ⋅ r2" := (Cat r1 r2) (at level 60, right associativity).

(** [\d+\.\d+\.\d+] *)
Definition semver3 : regex :=
  Plus Digit ⋅ Str "." ⋅ Plus Digit ⋅ Str "." ⋅ Plus Digit.

(** [(?s)## (.*?)\n### Changes\nBased on:\n- OpenAPI Doc (.*?) (.*?)\n- Speakeasy CLI (.*?) .*?] *)
Definition releaseInfoRegex : regex :=
  Str "## " ⋅ Group 1 (LazyStar DotAll)
  ⋅ Str (nl +:+ "### Changes" +:+ nl +:+ "Based on:" +:+ nl +:+ "- OpenAPI Doc ")
  ⋅ Group 2 (LazyStar DotAll) ⋅ Str " " ⋅ Group 3 (LazyStar DotAll)
  ⋅ Str (nl +:+ "- Speakeasy CLI ") ⋅ Group 4 (LazyStar DotAll) ⋅ Str " "
  ⋅ LazyStar DotAll.

(** [- \[NPM v(\d+\.\d+\.\d+)\] (https:\/\/www\.npmjs\.com\/package\/(.*?)\/v\/\d+\.\d+\.\d+) - G], with [G] the group of a greedy [.] star *)
Definition npmReleaseRegex : regex :=
  Str "- [NPM v" ⋅ Group 1 semver3 ⋅ Str "] "
  ⋅ Group 2 (Str "https://www.npmjs.com/package/" ⋅ Group 3 (LazyStar Dot)
             ⋅ Str "/v/" ⋅ semver3)
  ⋅ Str " - " ⋅ Group 4 (Star Dot).

(** [- \[PyPI v(\d+\.\d+\.\d+)\] (https:\/\/pypi\.org\/project\/(.*?)\/\d+\.\d+\.\d+) - G], with [G] the group of a greedy [.] star *)
Definition pypiReleaseRegex : regex :=
  Str "- [PyPI v" ⋅ Group 1 semver3 ⋅ Str "] "
  ⋅ Group 2 (Str "https://pypi.org/project/" ⋅ Group 3 (LazyStar Dot)
             ⋅ Str "/" ⋅ semver3)
  ⋅ Str " - " ⋅ Group 4 (Star Dot).

(** [- \[Go v(\d+\.\d+\.\d+)\] (https:\/\/(github.com\/.*?)\/releases\/tag\/.*?\/?v\d+\.\d+\.\d+) - G], with [G] the group of a greedy [.] star.
    The dot of [github.com] is not escaped: it stands for any character
    but a line feed. *)
Definition goReleaseRegex : regex :=
  Str "- [Go v" ⋅ Group 1 semver3 ⋅ Str "] "
  ⋅ Group 2 (Str "https://"
             ⋅ Group 3 (Str "github" ⋅ Dot ⋅ Str "com/" ⋅ LazyStar Dot)
             ⋅ Str "/releases/tag/" ⋅ LazyStar Dot ⋅ Opt (Str "/")
             ⋅ Str "v" ⋅ semver3)
  ⋅ Str " - " ⋅ Group 4 (Star Dot).

(** [- \[Composer v(\d+\.\d+\.\d+)\] (https:\/\/packagist\.org\/packages\/(.*?)#v\d+\.\d+\.\d+) - G], with [G] the group of a greedy [.] star *)
Definition composerReleaseRegex : regex :=
  Str "- [Composer v" ⋅ Group 1 semver3 ⋅ Str "] "
  ⋅ Group 2 (Str "https://packagist.org/packages/" ⋅ Group 3 (LazyStar Dot)
             ⋅ Str "#v" ⋅ semver3)
  ⋅ Str " - " ⋅ Group 4 (Star Dot).

(** The shape the NPM, PyPI and Composer patterns share: a label, the
    version, the URL made of a prefix, the package name, a separator and
    the version, and the path. *)
Definition registry_regex (label prefix sep : string) : regex :=
  Str label ⋅ Group 1 semver3 ⋅ Str "] "
  ⋅ Group 2 (Str prefix ⋅ Group 3 (LazyStar Dot) ⋅ Str sep ⋅ semver3)
  ⋅ Str " - " ⋅ Group 4 (Star Dot).

(** The release line [ReleasesInfo.String] writes for these languages. *)
Definition registry_line (label prefix sep version packageName path : string) : string :=
  label +:+ version +:+ "] " +:+ prefix +:+ packageName +:+ sep +:+ version
  +:+ " - " +:+ path.

(** The tag of a Go release, and the release line [ReleasesInfo.String]
    writes for Go. *)
Definition go_tag (version path : string) : string :=
  if negb (path =? ".")%string then path +:+ "/v" +:+ version else "v" +:+ version.

Definition go_line (repoPath version path : string) : string :=
  "- [Go v" +:+ version +:+ "] https://github.com/" +:+ repoPath +:+ "/releases/tag/"
  +:+ go_tag version path +:+ " - " +:+ path.

(** [matches[i]] of a slice that holds five strings. *)
Definition at_ (matches : list string) (i : nat) : string := nth i matches "".

(** The entry a release line yields for every language but Go. *)
Definition entry_of (matches : list string) : LanguageReleaseInfo :=
  {| Version := at_ matches 1;
     URL := at_ matches 2;
     PackageName := at_ matches 3;
     Path := at_ matches 4 |}.

Definition ParseReleases (data : string) : option ReleasesInfo * option error :=
  let releases := strings.Split data (nl +:+ nl) in
  let lastRelease := List.last releases "" in
  let matches := FindStringSubmatch releaseInfoRegex lastRelease in
  if negb (length matches =? 5)%nat then
    (None, Some "error parsing last release info")
  else
    let languages : gmap string LanguageReleaseInfo := ∅ in
    let npmMatches := FindStringSubmatch npmReleaseRegex lastRelease in
    let languages :=
      if (length npmMatches =? 5)%nat
      then <["typescript" := entry_of npmMatches]> languages else languages in
    let pypiMatches := FindStringSubmatch pypiReleaseRegex lastRelease in
    let languages :=
      if (length pypiMatches =? 5)%nat
      then <["python" := entry_of pypiMatches]> languages else languages in
    let goMatches := FindStringSubmatch goReleaseRegex lastRelease in
    let languages :=
      if (length goMatches =? 5)%nat then
        let packageName := at_ goMatches 3 in
        let path := at_ goMatches 4 in
        let packageName :=
          if negb (path =? ".")%string
          then packageName +:+ "/" +:+ strings.TrimPrefix path "./"
          else packageName in
        <["go" := {| Version := at_ goMatches 1;
                     URL := at_ goMatches 2;
                     PackageName := packageName;
                     Path := path |}]> languages
      else languages in
    let composerMatches := FindStringSubmatch composerReleaseRegex lastRelease in
    let languages :=
      if (length composerMatches =? 5)%nat
      then <["php" := entry_of composerMatches]> languages else languages in
    (Some {| ReleaseTitle := at_ matches 1;
             DocVersion := at_ matches 2;
             DocLocation := at_ matches 3;
             SpeakeasyVersion := at_ matches 4;
             Languages := languages |},
     None).

(** Field values a release line can carry: [one_line] has no line feed,
    [plain] neither a line feed nor an opening bracket, [word] neither a
    line feed nor a space. *)
Definition one_line (s : string) : Prop :=
  strings.every (fun c => negb (Ascii.eqb c LF)) s = true.
Definition plain (s : string) : Prop :=
  strings.every (fun c => negb (Ascii.eqb c LF) && negb (Ascii.eqb c "[")) s = true.
Definition word (s : string) : Prop :=
  strings.every (fun c => negb (Ascii.eqb c LF) && negb (Ascii.eqb c " ")) s = true.

(** The languages with a package label. *)
Definition supported (lang : string) : Prop :=
  lang = "go" \/ lang = "typescript" \/ lang = "python" \/ lang = "php".

(** Entries whose release line reads back without loss: the version is
    of the form the patterns expect; the package name (for Go, the
    repository of [GITHUB_REPOSITORY], which must not hold the text
    [/releases/tag]) and the path are on one line, the package name and,
    for Go, the path without a space. *)
Definition writable (env : gmap string string) (lang : string)
    (info : LanguageReleaseInfo) : Prop :=
  Lang semver3 (Version info)
  /\ if (lang =? "go")%string then
       one_line (Getenv env "GITHUB_REPOSITORY")
       /\ strings.Contains (Getenv env "GITHUB_REPOSITORY") "/releases/tag" = false
       /\ word (Path info)
     else word (PackageName info) /\ one_line (Path info).

(** The entry read back for an entry written for [lang]. The URL is the
    one the writer made up; for Go the package name is rebuilt from it. *)
Definition read_back (env : gmap string string) (lang : string)
    (info : LanguageReleaseInfo) : LanguageReleaseInfo :=
  if (lang =? "go")%string then
    let repoPath := Getenv env "GITHUB_REPOSITORY" in
    {| PackageName :=
         if negb (Path info =? ".")%string
         then "github.com/" +:+ repoPath +:+ "/" +:+ strings.TrimPrefix (Path info) "./"
         else "github.com/" +:+ repoPath;
       Path := Path info;
       Version := Version info;
       URL := "https://github.com/" +:+ repoPath +:+ "/releases/tag/"
              +:+ go_tag (Version info) (Path info) |}
  else
    {| PackageName := PackageName info;
       Path := Path info;
       Version := Version info;
       URL :=
         if (lang =? "typescript")%string then
           "https://www.npmjs.com/package/" +:+ PackageName info +:+ "/v/" +:+ Version info
         else if (lang =? "python")%string then
           "https://pypi.org/project/" +:+ PackageName info +:+ "/" +:+ Version info
         else
           "https://packagist.org/packages/" +:+ PackageName info +:+ "#v" +:+ Version info |}.

(** The entry of [lang] in the record [ParseReleases] returns for
    [data], if it returns one and the record has that entry. *)
Definition parsed_entry (data lang : string) : option LanguageReleaseInfo :=
  match ParseReleases data with
  | (Some info, _) => Languages info !! lang
  | (None, _) => None
  end.

End releases.

(** The record of the specification's round-trip example. *)
Definition example_record (lang packageName : string) : releases.ReleasesInfo :=
  {| releases.ReleaseTitle := "v1.2.0";
     releases.DocVersion := "1.0.0";
     releases.DocLocation := "spec.yaml";
     releases.SpeakeasyVersion := "1.20.0";
     releases.Languages :=
       {[ lang := {| releases.PackageName := packageName;
                     releases.Path := ".";
                     releases.Version := "1.2.0";
                     releases.URL := "" |} ]} |}.

(** The text of a block up to its release lines, and a block with one
    release line, as [ReleasesInfo.String] lays them out after the blank
    line. *)
Definition header_text (r : releases.ReleasesInfo) : string :=
  "## " +:+ releases.ReleaseTitle r +:+ nl
  +:+ "### Changes" +:+ nl
  +:+ "Based on:" +:+ nl
  +:+ "- OpenAPI Doc " +:+ releases.DocVersion r +:+ " " +:+ releases.DocLocation r +:+ nl
  +:+ "- Speakeasy CLI " +:+ releases.SpeakeasyVersion r
  +:+ " https://github.com/speakeasy-api/speakeasy".

Definition block_text (r : releases.ReleasesInfo) (line : string) : string :=
  header_text r +:+ nl +:+ "### Releases" +:+ nl +:+ line.

(** A ledger of one block: the header of the example followed by one
    release line. *)
Definition example_ledger (line : string) : string :=
  nl +:+ nl +:+ "## v1.2.0" +:+ nl
  +:+ "### Changes" +:+ nl
  +:+ "Based on:" +:+ nl
  +:+ "- OpenAPI Doc 1.0.0 spec.yaml" +:+ nl
  +:+ "- Speakeasy CLI 1.20.0 https://github.com/speakeasy-api/speakeasy" +:+ nl
  +:+ "### Releases" +:+ nl
  +:+ line.

Definition example_env : gmap string string := {[ "GITHUB_REPOSITORY" := "org/repo" ]}.

(** ** Vocabulary of the ledger proofs *)

(** The indices of the capturing groups of a pattern. *)
Fixpoint Groups (r : regexp.regex) : list nat :=
  match r with
  | regexp.Str _ | regexp.Dot | regexp.DotAll | regexp.Digit => []
  | regexp.Cat r1 r2 => (Groups r1 ++ Groups r2)%list
  | regexp.Star r | regexp.LazyStar r | regexp.Plus r | regexp.Opt r => Groups r
  | regexp.Group i r => i :: Groups r
  end.

(** What a continuation of the search is handed: a suffix of the input,
    reached through a text of the language, and as many submatches as
    before, those of the groups listed in [G] apart unchanged. *)
Definition reaches {R : Type} (L : string -> Prop) (G : list nat)
    (s : string) (caps : list string)
    (k : string -> list string -> option R) (res : R) : Prop :=
  exists m rest caps',
    s = m +:+ rest /\ L m /\ length caps' = length caps
    /\ (forall i, i ∉ G -> caps' !! i = caps !! i)
    /\ k rest caps' = Some res.

(** The continuation succeeds on [t], whatever the submatches. *)
Definition accepts {R : Type} (k : string -> list string -> option R) (t : string) : Prop :=
  forall caps, is_Some (k t caps).

Definition digit_or_dot (c : ascii) : bool := regexp.is_digit c || Ascii.eqb c ".".

Definition is_not (c : ascii) (x : ascii) : bool := negb (Ascii.eqb x c).

(** The text goes on with a digit. *)
Definition digit_ahead (t : string) : bool :=
  match t with
  | String c _ => regexp.is_digit c
  | EmptyString => false
  end.

(** The line ends where the text [t] begins. *)
Definition line_ends (t : string) : Prop :=
  match t with
  | String c _ => c = LF
  | EmptyString => True
  end.

(** The text goes on with something else than a line feed, or ends. *)
Definition no_line_feed_ahead (t : string) : Prop :=
  match t with
  | String c _ => c <> LF
  | EmptyString => True
  end.

Definition blank_line : string := nl +:+ nl.

(** The text holds no blank line: splitting it leaves it whole. *)
Definition single_block (s : string) : Prop :=
  strings.split_from blank_line 0 s = [s].

(** [lastRelease] of [ParseReleases]. *)
Definition last_release (data : string) : string :=
  List.last (strings.Split data (nl +:+ nl)) "".

(** The header fields of a record hold neither a line feed nor an
    opening bracket. *)
Definition plain_header (r : releases.ReleasesInfo) : Prop :=
  releases.plain (releases.ReleaseTitle r) /\ releases.plain (releases.DocVersion r)
  /\ releases.plain (releases.DocLocation r) /\ releases.plain (releases.SpeakeasyVersion r).

(** The label of a release line, from its opening bracket on. *)
Definition bracket_label (label : string) : string :=
  String "-" (String " " (String "[" label)).

(** The preamble every block carries after its title. *)
Definition preamble : string :=
  nl +:+ "### Changes" +:+ nl +:+ "Based on:" +:+ nl.


(** ** pkg/releases/releases.go: [GetLastReleaseInfo]

    [read] is what [os.ReadFile] returns for RELEASES.md: the content of
    the file or the error of the operating system. *)
Definition GetLastReleaseInfo (read : string + error)
    : option releases.ReleasesInfo * option error :=
  match read with
  | inr err => (None, Some (Errorf_w "error reading releases file: " err))
  | inl data => releases.ParseReleases data
  end.

(** ** What [checkForChanges] writes to standard output

    The lines of the four statement groups that print, as functions of
    what the comparisons find. *)
Module Printed.
Import Signals.

Definition invalid_version_warning : string :=
  "::warning title=invalid_version::openapi version is not a semver" +:+ nl.

Definition checksum_changed_warning : string :=
  "::warning title=checksum_changed::openapi checksum changed but version did not" +:+ nl.

Definition checksum_changed (previous current : string) : string :=
  "OpenAPI doc checksum changed detected: " +:+ previous +:+ " > " +:+ current +:+ nl.

Section WithParser.
Variable NewVersion : string -> Version + error.

(** The comparison of lines 222-231, or of lines 247-259, finds a segment
    that moved up. *)
Definition moved_up (current previous : string) : bool :=
  match parsed NewVersion current, parsed NewVersion previous with
  | Some cur, Some prev =>
      match first_increase cur prev with Some _ => true | None => false end
  | _, _ => false
  end.

(** The flag [docVersionUpdated] when line 265 is reached. *)
Definition docVersionUpdated (docVersion previous : string) : bool :=
  negb (previous =? "")%string && moved_up docVersion previous.

Definition tool_lines (toolVersion previous : string) : list string :=
  if (previous =? "")%string then []
  else if moved_up toolVersion previous
       then [changed_detected "Speakeasy" previous toolVersion] else [].

Definition doc_lines (docVersion previous : string) : list string :=
  if (previous =? "")%string then []
  else match NewVersion docVersion with
       | inr _ => [invalid_version_warning]
       | inl _ =>
           if moved_up docVersion previous
           then [changed_detected "OpenAPI doc" previous docVersion] else []
       end.

Definition checksum_lines (docChecksum previous : string) (updated : bool) : list string :=
  if (previous =? "")%string then []
  else if negb (docChecksum =? previous)%string then
         checksum_changed previous docChecksum
         :: (if updated then [] else [checksum_changed_warning])
       else [].

Definition bump_lines (b : option Bump) : list string :=
  match b with
  | Some Major => ["Bumping SDK major version" +:+ nl]
  | Some Minor => ["Bumping SDK minor version" +:+ nl]
  | Some Patch => ["Bumping SDK patch version" +:+ nl]
  | None => []
  end.

(** Everything a call that returns a version has printed. *)
Definition lines (toolVersion docVersion docChecksum : string)
    (mgmt : gmap string string) : list string :=
  (tool_lines toolVersion (mgmt !!! "speakeasy-version")
   ++ doc_lines docVersion (mgmt !!! "openapi-version")
   ++ checksum_lines docChecksum (mgmt !!! "openapi-checksum")
        (docVersionUpdated docVersion (mgmt !!! "openapi-version"))
   ++ bump_lines (decision NewVersion toolVersion docVersion docChecksum mgmt))%list.

End WithParser.
End Printed.

(** ** Vocabulary of the proofs about records of several languages *)

(** The release line [ReleasesInfo.String] writes for one entry of the
    map, if the language has a package label. *)
Definition line_of (env : gmap string string)
    (entry : string * releases.LanguageReleaseInfo) : option string :=
  let '(lang, info) := entry in
  if (lang =? "go")%string then
    Some (releases.go_line (releases.Getenv env "GITHUB_REPOSITORY")
            (releases.Version info) (releases.Path info))
  else if (lang =? "typescript")%string then
    Some (releases.registry_line "- [NPM v" "https://www.npmjs.com/package/" "/v/"
            (releases.Version info) (releases.PackageName info) (releases.Path info))
  else if (lang =? "python")%string then
    Some (releases.registry_line "- [PyPI v" "https://pypi.org/project/" "/"
            (releases.Version info) (releases.PackageName info) (releases.Path info))
  else if (lang =? "php")%string then
    Some (releases.registry_line "- [Composer v" "https://packagist.org/packages/" "#v"
            (releases.Version info) (releases.PackageName info) (releases.Path info))
  else None.

(** The lines of a block, each after a line feed, and the section they
    make under their heading. *)
Fixpoint lines_text (lines : list string) : string :=
  match lines with
  | [] => ""
  | line :: rest => nl +:+ line +:+ lines_text rest
  end.

Definition releases_text (lines : list string) : string :=
  match lines with
  | [] => ""
  | _ => nl +:+ "### Releases" +:+ lines_text lines
  end.

(** The languages with a package label, as a test. *)
Definition is_supported (lang : string) : bool :=
  (lang =? "go")%string || (lang =? "typescript")%string
  || (lang =? "python")%string || (lang =? "php")%string.

(** The text holds no opening bracket. *)
Definition unbracketed (s : string) : Prop := strings.every (is_not "[") s = true.

(** Entries whose release line reads back and cannot be taken for the
    line of another language: [writable], and no opening bracket in the
    fields the line carries. *)
Definition legible (env : gmap string string) (lang : string)
    (info : releases.LanguageReleaseInfo) : Prop :=
  releases.writable env lang info
  /\ unbracketed (releases.Path info)
  /\ if (lang =? "go")%string
     then unbracketed (releases.Getenv env "GITHUB_REPOSITORY")
     else unbracketed (releases.PackageName info).

(** What [ParseReleases] is to return for the languages of a record
    that was written: the entries of the languages with a label, each as
    [read_back] gives it. *)
Definition read_back_entry (env : gmap string string)
    (languages : gmap string releases.LanguageReleaseInfo) (lang : string)
    : option releases.LanguageReleaseInfo :=
  if is_supported lang then releases.read_back env lang <$> languages !! lang else None.

(** The label begins nowhere in the text [x] when [s] follows it. *)
Definition begins_nowhere (label x s : string) : Prop :=
  forall b1 b2, x = b1 +:+ b2 -> b2 <> "" -> strings.HasPrefix (b2 +:+ s) label = false.

(** Neither of the first two characters is an opening bracket. *)
Definition no_bracket_soon (s : string) : Prop :=
  match s with
  | String a (String b _) => a <> "["%char /\ b <> "["%char
  | String a EmptyString => a <> "["%char
  | EmptyString => True
  end.

(** The label, the pattern and the submatches of the release line of a
    language. *)
Definition label_of (lang : string) : string :=
  if (lang =? "go")%string then "- [Go v"
  else if (lang =? "typescript")%string then "- [NPM v"
  else if (lang =? "python")%string then "- [PyPI v"
  else "- [Composer v".

Definition pattern_of (lang : string) : regexp.regex :=
  if (lang =? "go")%string then releases.goReleaseRegex
  else if (lang =? "typescript")%string then releases.npmReleaseRegex
  else if (lang =? "python")%string then releases.pypiReleaseRegex
  else releases.composerReleaseRegex.

Definition found (env : gmap string string) (lang : string)
    (info : releases.LanguageReleaseInfo) : list string :=
  let version := releases.Version info in
  let packageName := releases.PackageName info in
  let path := releases.Path info in
  if (lang =? "go")%string then
    let repoPath := releases.Getenv env "GITHUB_REPOSITORY" in
    [releases.go_line repoPath version path; version;
     "https://github.com/" +:+ repoPath +:+ "/releases/tag/" +:+ releases.go_tag version path;
     "github.com/" +:+ repoPath; path]
  else if (lang =? "typescript")%string then
    [releases.registry_line "- [NPM v" "https://www.npmjs.com/package/" "/v/"
       version packageName path;
     version; "https://www.npmjs.com/package/" +:+ packageName +:+ "/v/" +:+ version;
     packageName; path]
  else if (lang =? "python")%string then
    [releases.registry_line "- [PyPI v" "https://pypi.org/project/" "/"
       version packageName path;
     version; "https://pypi.org/project/" +:+ packageName +:+ "/" +:+ version;
     packageName; path]
  else
    [releases.registry_line "- [Composer v" "https://packagist.org/packages/" "#v"
       version packageName path;
     version; "https://packagist.org/packages/" +:+ packageName +:+ "#v" +:+ version;
     packageName; path].

(** A release line that cannot be taken for one with the label [label]:
    its only opening bracket is the one of its own label. *)
Definition other_line (label line : string) : Prop :=
  exists y, line = String "-" (String " " (String "[" y))
            /\ unbracketed y
            /\ forall s, strings.HasPrefix (line +:+ s) label = false.

(** The text is empty or goes on with a line that begins with a dash. *)
Definition next_line (s : string) : Prop :=
  s = "" \/ exists t, s = String LF (String "-" t).

(** The shape the patterns of the four release lines share: a label, the
    version, the URL, and the path. *)
Definition line_pattern (label : string) (url : regexp.regex) : regexp.regex :=
  regexp.Cat (regexp.Str label)
    (regexp.Cat (regexp.Group 1 releases.semver3)
       (regexp.Cat (regexp.Str "] ")
          (regexp.Cat (regexp.Group 2 url)
             (regexp.Cat (regexp.Str " - ") (regexp.Group 4 (regexp.Star regexp.Dot)))))).

(** A record with two languages that have a package label and one that
    has none. *)
Definition example_languages : gmap string releases.LanguageReleaseInfo :=
  <["go" := {| releases.PackageName := "org/repo"; releases.Path := ".";
               releases.Version := "1.2.0"; releases.URL := "" |}]>
    (<["typescript" := {| releases.PackageName := "@org/sdk"; releases.Path := "ts";
                          releases.Version := "0.3.1"; releases.URL := "" |}]>
       (<["java" := {| releases.PackageName := "org.sdk"; releases.Path := "java";
                       releases.Version := "2.0.0"; releases.URL := "" |}]> ∅)).

Definition example_release : releases.ReleasesInfo :=
  {| releases.ReleaseTitle := "v1.2.0";
     releases.DocVersion := "1.0.0";
     releases.DocLocation := "spec.yaml";
     releases.SpeakeasyVersion := "1.20.0";
     releases.Languages := example_languages |}.

Import Signals.

(** * Properties of the reconciler *)

(** ** Formatting *)

Lemma pretty_N_char_dotless x : pretty_N_char x <> "."%char.
Proof. unfold pretty_N_char. repeat case_match; discriminate. Qed.

Lemma pretty_N_go_dotless x s : dotless s -> dotless (pretty_N_go x s).
Proof.
  revert s. induction (N.lt_wf_0 x) as [x _ IH]; intros s Hs.
  destruct (decide (x = 0)%N) as [->|Hx].
  - by rewrite pretty_N_go_0.
  - rewrite pretty_N_go_step by lia.
    apply IH; [apply N.div_lt; lia|].
    split; [apply pretty_N_char_dotless | done].
Qed.

Lemma pretty_N_dotless (x : N) : dotless (pretty x).
Proof.
  unfold pretty, pretty_N. case_decide; [by repeat split|].
  by apply pretty_N_go_dotless.
Qed.

Lemma pretty_Z_dotless (z : Z) : dotless (pretty z).
Proof.
  destruct z as [|p|p]; unfold pretty, pretty_Z.
  - by repeat split.
  - apply pretty_N_dotless.
  - split; [discriminate | apply pretty_N_dotless].
Qed.

Lemma dotless_cut a a' r r' :
  dotless a -> dotless a' ->
  a +:+ String "." r = a' +:+ String "." r' -> a = a' /\ r = r'.
Proof.
  revert a'. induction a as [|c a IH]; intros [|c' a'] Ha Ha' Heq; simpl in *.
  - by simplify_eq.
  - destruct Ha' as [Hc _]. by simplify_eq.
  - destruct Ha as [Hc _]. by simplify_eq.
  - destruct Ha as [_ Ha], Ha' as [_ Ha']. simplify_eq.
    destruct (IH a' Ha Ha' ltac:(done)) as [-> ->]. done.
Qed.

(** The formatted version determines its three components. *)
Lemma Sprintf_d_d_d_inj M m p M' m' p' :
  Sprintf_d_d_d M m p = Sprintf_d_d_d M' m' p' -> M = M' /\ m = m' /\ p = p'.
Proof.
  unfold Sprintf_d_d_d. intros H.
  apply dotless_cut in H as [HM H]; [|apply pretty_Z_dotless..].
  apply dotless_cut in H as [Hm Hp]; [|apply pretty_Z_dotless..].
  repeat split; by apply (inj pretty).
Qed.

Lemma format_inj t t' : format t = format t' -> t = t'.
Proof.
  destruct t as [[M m] p], t' as [[M' m'] p']. simpl. intros H.
  apply Sprintf_d_d_d_inj in H as (-> & -> & ->). done.
Qed.

Lemma pretty_N_go_length x s :
  (String.length s <= String.length (pretty_N_go x s))%nat.
Proof.
  revert s. induction (N.lt_wf_0 x) as [x _ IH]; intros s.
  destruct (decide (x = 0)%N) as [->|Hx]; [by rewrite pretty_N_go_0|].
  rewrite pretty_N_go_step by lia.
  etrans; [|apply IH; apply N.div_lt; lia]. simpl. lia.
Qed.

Lemma pretty_Z_nonempty (z : Z) : pretty z <> "".
Proof.
  destruct z as [|q|q]; [discriminate| |discriminate].
  unfold pretty, pretty_Z, pretty, pretty_positive, pretty, pretty_N.
  case_decide; [discriminate|].
  rewrite pretty_N_go_step by lia. intros E.
  pose proof (pretty_N_go_length (N.pos q `div` 10)%N
                (String (pretty_N_char (N.pos q `mod` 10)) "")) as Hlen.
  rewrite E in Hlen. simpl in Hlen. lia.
Qed.

Lemma Sprintf_d_d_d_nonempty M m p : Sprintf_d_d_d M m p <> "".
Proof.
  unfold Sprintf_d_d_d. pose proof (pretty_Z_nonempty M).
  destruct (pretty M); [done | discriminate].
Qed.

Lemma format_nonempty t : format t <> "".
Proof. destruct t as [[M m] p]. apply Sprintf_d_d_d_nonempty. Qed.

(** ** Arithmetic on [int] *)

Lemma incr_below_max z :
  GoInt.in_range z -> z < GoInt.max_int -> GoInt.incr z = z + 1.
Proof.
  unfold GoInt.in_range, GoInt.incr, GoInt.wrap, GoInt.min_int, GoInt.max_int.
  intros [Hlo _] Hhi.
  rewrite Z.mod_small; lia.
Qed.

Lemma incr_at_max : GoInt.incr GoInt.max_int = GoInt.min_int.
Proof. reflexivity. Qed.

Lemma incr_zero : GoInt.incr 0 = 1.
Proof. reflexivity. Qed.

(** ** The statement groups of [checkForChanges] *)

Lemma bind_Next {A B} (m : Exec A) (k : A -> Exec B) out a out' :
  m out = (Next a, out') -> bind m k out = k a out'.
Proof. unfold bind. by intros ->. Qed.

Lemma bind_Return {A B} (m : Exec A) (k : A -> Exec B) out v e out' :
  m out = (Return v e, out') -> bind m k out = (Return v e, out').
Proof. unfold bind. by intros ->. Qed.

Lemma bind_Panic {A B} (m : Exec A) (k : A -> Exec B) out out' :
  m out = (Panic, out') -> bind m k out = (Panic, out').
Proof. unfold bind. by intros ->. Qed.

Lemma contract_triple NV s v :
  library_contract NV -> NV s = inl v -> exists t, triple v = Some t.
Proof.
  intros HNV Hs. destruct (HNV s v Hs) as [Hlen _]. unfold triple.
  destruct (Segments v) as [|a [|b [|c rest]]]; simpl in Hlen; try lia.
  by eexists.
Qed.

Lemma contract_in_range NV s v M m p :
  library_contract NV -> NV s = inl v -> triple v = Some (M, m, p) ->
  GoInt.in_range M /\ GoInt.in_range m /\ GoInt.in_range p.
Proof.
  intros HNV Hs Ht. destruct (HNV s v Hs) as [_ Hr]. unfold triple in Ht.
  destruct (Segments v) as [|a [|b [|c rest]]]; simplify_eq.
  repeat match goal with H : Forall _ (_ :: _) |- _ => inversion H; clear H; subst end.
  done.
Qed.

(** The comparison chain of lines 222-231 and 247-259 on two versions of
    three segments or more. *)
Lemma triple_segments v t :
  triple v = Some t ->
  exists rest, Segments v = t.1.1 :: t.1.2 :: t.2 :: rest.
Proof.
  unfold triple. destruct (Segments v) as [|a [|b [|c rest]]]; intros; simplify_eq.
  by eexists.
Qed.

Section Blocks.
Variable NV : string -> Version + error.
Hypothesis HNV : library_contract NV.

Lemma bump_from_speakeasy_version_spec tv mgmt bM bm bp out :
  let s := tool_signal NV tv (mgmt !!! "speakeasy-version") in
  exists out',
    bump_from_speakeasy_version NV tv mgmt bM bm bp out =
    (match tool_error NV tv (mgmt !!! "speakeasy-version") with
     | Some e => Return "" (Some e)
     | None => Next (bM || asks Major s, bm || asks Minor s, bp || asks Patch s)
     end, out').
Proof.
  unfold bump_from_speakeasy_version, tool_error, tool_signal, parsed.
  set (pt := mgmt !!! "speakeasy-version"). clearbody pt.
  destruct (pt =? "")%string.
  { eexists. unfold ret. simpl. by rewrite !orb_false_r, orb_true_r. }
  destruct (NV pt) as [vp|e] eqn:Ep; [|by eexists].
  destruct (NV tv) as [vc|e] eqn:Ec; [|by eexists].
  destruct (contract_triple _ _ _ HNV Ep) as [[[p0 p1] p2] Hp].
  destruct (contract_triple _ _ _ HNV Ec) as [[[c0 c1] c2] Hc].
  rewrite Hp, Hc.
  apply triple_segments in Hp as [rp Hp]. apply triple_segments in Hc as [rc Hc].
  unfold bind, segment, first_increase, asks. rewrite Hp, Hc. simpl.
  destruct (c0 >? p0); [eexists; simpl; by rewrite !orb_false_r, orb_true_r|].
  destruct (c1 >? p1); [eexists; simpl; by rewrite !orb_false_r, orb_true_r|].
  destruct (c2 >? p2); eexists; simpl; by rewrite !orb_false_r, ?orb_true_r.
Qed.

Lemma bump_from_openapi_version_spec dv mgmt bM bm bp out :
  let s := doc_signal NV dv (mgmt !!! "openapi-version") in
  exists out',
    match doc_error NV dv (mgmt !!! "openapi-version") with
    | Some e =>
        bump_from_openapi_version NV dv mgmt bM bm bp out = (Return "" (Some e), out')
    | None =>
        exists updated,
          bump_from_openapi_version NV dv mgmt bM bm bp out =
          (Next (bM || asks Major s, bm || asks Minor s, bp || asks Patch s, updated), out')
    end.
Proof.
  unfold bump_from_openapi_version, doc_error, doc_signal, parsed.
  set (pd := mgmt !!! "openapi-version"). clearbody pd.
  destruct (pd =? "")%string.
  { eexists. eexists. unfold ret. simpl. by rewrite !orb_false_r, orb_true_r. }
  destruct (NV dv) as [vc|e] eqn:Ec.
  2:{ eexists. eexists. unfold bind, Println, print, ret. simpl.
      by rewrite !orb_false_r. }
  destruct (NV pd) as [vp|e] eqn:Ep; [|by eexists].
  destruct (contract_triple _ _ _ HNV Ep) as [[[p0 p1] p2] Hp].
  destruct (contract_triple _ _ _ HNV Ec) as [[[c0 c1] c2] Hc].
  rewrite Hp, Hc.
  apply triple_segments in Hp as [rp Hp]. apply triple_segments in Hc as [rc Hc].
  unfold bind, segment, first_increase, asks. rewrite Hp, Hc. simpl.
  destruct (c0 >? p0); [eexists; eexists; simpl; by rewrite !orb_false_r, orb_true_r|].
  destruct (c1 >? p1); [eexists; eexists; simpl; by rewrite !orb_false_r, orb_true_r|].
  destruct (c2 >? p2); eexists; eexists; simpl; by rewrite !orb_false_r, ?orb_true_r.
Qed.

Lemma bump_from_checksum_spec dc mgmt bm bp updated out :
  let s := checksum_signal dc (mgmt !!! "openapi-checksum") in
  exists out',
    bump_from_checksum dc mgmt bm bp updated out =
    (Next (bm || asks Minor s, bp || asks Patch s), out').
Proof.
  unfold bump_from_checksum, checksum_signal, asks.
  set (pc := mgmt !!! "openapi-checksum"). clearbody pc.
  destruct (pc =? "")%string.
  { eexists. unfold ret. simpl. by rewrite orb_false_r, orb_true_r. }
  destruct (dc =? pc)%string; simpl.
  { eexists. unfold ret. by rewrite !orb_false_r. }
  destruct updated; eexists; unfold bind, print, Println, ret; simpl;
    by rewrite orb_false_r, orb_true_r.
Qed.

Lemma previous_version_spec sdk out :
  previous_version NV sdk out =
  (match sdk_error NV sdk with
   | Some e => Return "" (Some e)
   | None => match previous_sdk NV sdk with
             | Some t => Next t
             | None => Panic
             end
   end, out).
Proof.
  unfold previous_version, sdk_error, previous_sdk, parsed, triple.
  destruct (sdk =? "")%string; simpl; [done|].
  destruct (NV sdk) as [v|e]; [|done].
  unfold bind, segment, ret.
  destruct (Segments v) as [|a [|b [|c rest]]]; done.
Qed.

Lemma bump_version_spec bM bm bp M m p out :
  exists out',
    bump_version bM bm bp M m p out = (Next (bump_int (resolve bM bm bp) (M, m, p)), out').
Proof.
  unfold bump_version, resolve. destruct bM, bm, bp; by eexists.
Qed.

Lemma decision_resolve tv dv dc mgmt :
  let t := tool_signal NV tv (mgmt !!! "speakeasy-version") in
  let d := doc_signal NV dv (mgmt !!! "openapi-version") in
  let c := checksum_signal dc (mgmt !!! "openapi-checksum") in
  decision NV tv dv dc mgmt =
  resolve (false || asks Major t || asks Major d)
          ((false || asks Minor t || asks Minor d) || asks Minor c)
          ((false || asks Patch t || asks Patch d) || asks Patch c).
Proof.
  intros t d c. unfold decision, recommended, resolve. fold t d c. unfold asks. simpl.
  assert (bool_decide (c = Some Major) = false) as ->.
  { subst c. unfold checksum_signal. by repeat case_match. }
  by rewrite !orb_false_r.
Qed.

(** Once the metadata differ, the code computes what the algorithm of the
    specification describes. *)
Lemma checkForChanges_outcome tv dv dc sdk mgmt out :
  differs tv dv dc mgmt ->
  fst (checkForChanges NV tv dv dc sdk mgmt out) = outcome NV tv dv dc sdk mgmt.
Proof.
  intros Hd.
  assert (negb (tv =? mgmt !!! "speakeasy-version")%string
          || negb (dv =? mgmt !!! "openapi-version")%string
          || negb (dc =? mgmt !!! "openapi-checksum")%string = true) as Hb.
  { destruct Hd as [Hd|[Hd|Hd]]; apply String.eqb_neq in Hd; rewrite Hd; simpl;
      rewrite ?orb_true_r; done. }
  unfold checkForChanges, outcome. rewrite Hb. clear Hb.
  unfold fatal_error. rewrite decision_resolve.
  destruct (bump_from_speakeasy_version_spec tv mgmt false false false out) as [o1 H1].
  destruct (tool_error NV tv (mgmt !!! "speakeasy-version")) as [e|].
  { by rewrite (bind_Return _ _ _ _ _ _ H1). }
  rewrite (bind_Next _ _ _ _ _ H1). clear H1. cbv beta iota.
  match goal with |- context [bump_from_openapi_version NV dv mgmt ?a ?b ?c] =>
    destruct (bump_from_openapi_version_spec dv mgmt a b c o1) as [o2 H2] end.
  destruct (doc_error NV dv (mgmt !!! "openapi-version")) as [e|].
  { by rewrite (bind_Return _ _ _ _ _ _ H2). }
  destruct H2 as [updated H2].
  rewrite (bind_Next _ _ _ _ _ H2). clear H2. cbv beta iota.
  match goal with |- context [bump_from_checksum dc mgmt ?a ?b ?c] =>
    destruct (bump_from_checksum_spec dc mgmt a b c o2) as [o3 H3] end.
  rewrite (bind_Next _ _ _ _ _ H3). clear H3. cbv beta iota.
  pose proof (previous_version_spec sdk o3) as H4.
  destruct (sdk_error NV sdk) as [e|].
  { by rewrite (bind_Return _ _ _ _ _ _ H4). }
  destruct (previous_sdk NV sdk) as [[[M m] p]|].
  2:{ by rewrite (bind_Panic _ _ _ _ H4). }
  rewrite (bind_Next _ _ _ _ _ H4). clear H4. cbv beta iota.
  match goal with |- context [bump_version ?a ?b ?c M m p] =>
    destruct (bump_version_spec a b c M m p o3) as [o5 H5] end.
  rewrite (bind_Next _ _ _ _ _ H5).
  destruct (bump_int _ _) as [[M' m'] p']. reflexivity.
Qed.

End Blocks.

(** ** The reference parser honours the library's contract *)

Lemma digits_nonneg s acc z :
  0 <= acc -> GoVersion.digits acc s = Some z -> 0 <= z.
Proof.
  revert acc. induction s as [|c s IH]; simpl; intros acc Hacc H.
  - by simplify_eq.
  - unfold GoVersion.digit in H.
    destruct (_ && _) eqn:Hd; [|done].
    apply andb_true_iff in Hd as [Hlo _]. apply Z.leb_le in Hlo.
    eapply IH; [|done]. lia.
Qed.

Lemma ParseInts_in_range parts segs :
  GoVersion.ParseInts parts = inl segs -> Forall GoInt.in_range segs.
Proof.
  revert segs. induction parts as [|p parts IH]; simpl; intros segs H.
  - simplify_eq. constructor.
  - destruct (GoVersion.digits 0 p) as [z|] eqn:Hz; [|done].
    destruct (z <=? GoInt.max_int) eqn:Hmax; [|done].
    destruct (GoVersion.ParseInts parts) as [zs|]; [|done].
    simplify_eq. constructor; [|by apply IH].
    apply Z.leb_le in Hmax. apply digits_nonneg in Hz; [|done].
    unfold GoInt.in_range, GoInt.min_int. lia.
Qed.

Lemma GoVersion_contract : library_contract GoVersion.NewVersion.
Proof.
  intros s v. unfold GoVersion.NewVersion.
  destruct (GoVersion.well_formed _); [|done].
  destruct (GoVersion.ParseInts _) as [segs|] eqn:Hsegs; [|done].
  intros ?; simplify_eq. simpl. unfold GoVersion.pad3. split.
  - rewrite length_app, repeat_length. lia.
  - apply Forall_app. split; [by eapply ParseInts_in_range|].
    apply Forall_forall. intros x Hx. apply list_elem_of_In, repeat_spec in Hx as ->.
    unfold GoInt.in_range, GoInt.min_int, GoInt.max_int. lia.
Qed.

(** ** Identical metadata *)

Lemma differs_dec tv dv dc mgmt :
  differs tv dv dc mgmt \/
  (tv = mgmt !!! "speakeasy-version" /\ dv = mgmt !!! "openapi-version"
   /\ dc = mgmt !!! "openapi-checksum").
Proof.
  unfold differs.
  destruct (decide (tv = mgmt !!! "speakeasy-version"));
    destruct (decide (dv = mgmt !!! "openapi-version"));
    destruct (decide (dc = mgmt !!! "openapi-checksum")); tauto.
Qed.

Lemma checkForChanges_identical NV tv dv dc sdk mgmt out :
  tv = mgmt !!! "speakeasy-version" ->
  dv = mgmt !!! "openapi-version" ->
  dc = mgmt !!! "openapi-checksum" ->
  checkForChanges NV tv dv dc sdk mgmt out = (Return "" None, out).
Proof.
  intros -> -> ->. unfold checkForChanges.
  by rewrite !String.eqb_refl.
Qed.

(** C3 (No-op idempotence). When the tool version, the document version
    and the checksum of this run equal the recorded ones,
    [checkForChanges] returns the empty string and a nil error. It does so
    whatever the version parser is and writes nothing: no version string
    is parsed on that path. *)
Theorem noop_idempotence
    (NewVersion : string -> Version + error)
    (toolVersion docVersion docChecksum previousSdkVersion : string)
    (previousMgmt : gmap string string) (out : list string) :
  toolVersion = previousMgmt !!! "speakeasy-version" ->
  docVersion = previousMgmt !!! "openapi-version" ->
  docChecksum = previousMgmt !!! "openapi-checksum" ->
  checkForChanges NewVersion toolVersion docVersion docChecksum
    previousSdkVersion previousMgmt out = (Return "" None, out).
Proof. apply checkForChanges_identical. Qed.

Lemma noop_idempotence_witness :
  checkForChanges GoVersion.NewVersion "1.20.0" "1.0.0" "abc" "not a version"
    (management "1.20.0" "1.0.0" "abc") [] = (Return "" None, []).
Proof.
  apply (noop_idempotence GoVersion.NewVersion "1.20.0" "1.0.0" "abc" "not a version"
           (management "1.20.0" "1.0.0" "abc") []); reflexivity.
Defined.

(** C4 (First run). With the three recorded metadata fields empty, the
    previous SDK version empty, and at least one of the current values
    not empty, [checkForChanges] returns exactly ["0.1.0"] and a nil
    error. *)
Theorem first_run
    (NewVersion : string -> Version + error)
    (toolVersion docVersion docChecksum : string)
    (previousMgmt : gmap string string) (out : list string) :
  previousMgmt !!! "speakeasy-version" = "" ->
  previousMgmt !!! "openapi-version" = "" ->
  previousMgmt !!! "openapi-checksum" = "" ->
  toolVersion <> "" \/ docVersion <> "" \/ docChecksum <> "" ->
  fst (checkForChanges NewVersion toolVersion docVersion docChecksum "" previousMgmt out)
  = Return "0.1.0" None.
Proof.
  intros Ht Hd Hc Hne.
  assert (negb (toolVersion =? "")%string || negb (docVersion =? "")%string
          || negb (docChecksum =? "")%string = true) as Hb.
  { destruct Hne as [H|[H|H]]; apply String.eqb_neq in H; rewrite H; simpl;
      by rewrite ?orb_true_r. }
  unfold checkForChanges, bump_from_speakeasy_version, bump_from_openapi_version,
    bump_from_checksum, previous_version, bump_version.
  rewrite Ht, Hd, Hc, Hb. reflexivity.
Qed.

Lemma first_run_witness :
  fst (checkForChanges GoVersion.NewVersion "1.20.0" "1.0.0" "abc" "" ∅ [])
  = Return "0.1.0" None.
Proof.
  apply (first_run GoVersion.NewVersion "1.20.0" "1.0.0" "abc" ∅ []);
    [reflexivity | reflexivity | reflexivity | left; discriminate].
Defined.

(** C9 (Error atomicity). Whenever [checkForChanges] returns a non-nil
    error, the version it returns with it is the empty string. *)
Theorem error_atomicity
    (NewVersion : string -> Version + error)
    (toolVersion docVersion docChecksum previousSdkVersion : string)
    (previousMgmt : gmap string string) (out out' : list string)
    (v : string) (e : error) :
  checkForChanges NewVersion toolVersion docVersion docChecksum
    previousSdkVersion previousMgmt out = (Return v (Some e), out') ->
  v = "".
Proof.
  unfold checkForChanges, bump_from_speakeasy_version, bump_from_openapi_version,
    bump_from_checksum, previous_version, bump_version,
    bind, ret, return_, print, Println, segment.
  intros H. repeat (case_match; simplify_eq/=; try done).
Qed.

Lemma error_atomicity_witness :
  checkForChanges GoVersion.NewVersion "1.20.0" "1.0.0" "abc" "one.two"
    (management "1.19.0" "1.0.0" "abc") []
  = (Return "" (Some "error parsing sdk version: Malformed version: one.two"),
     [changed_detected "Speakeasy" "1.19.0" "1.20.0"])
  /\ "" = "".
Proof.
  assert (checkForChanges GoVersion.NewVersion "1.20.0" "1.0.0" "abc" "one.two"
            (management "1.19.0" "1.0.0" "abc") []
          = (Return "" (Some "error parsing sdk version: Malformed version: one.two"),
             [changed_detected "Speakeasy" "1.19.0" "1.20.0"]))
    as H by (vm_compute; reflexivity).
  split; [exact H|].
  exact (error_atomicity GoVersion.NewVersion "1.20.0" "1.0.0" "abc" "one.two"
           (management "1.19.0" "1.0.0" "abc") [] _ "" _ H).
Defined.

(** ** What is returned once the metadata differ *)

Section Returned.
Variable NewVersion : string -> Version + error.
Hypothesis contract : library_contract NewVersion.

Lemma returned_version toolVersion docVersion docChecksum sdkVersion mgmt out v :
  fst (checkForChanges NewVersion toolVersion docVersion docChecksum sdkVersion mgmt out)
  = Return v None ->
  v <> "" ->
  differs toolVersion docVersion docChecksum mgmt /\
  fatal_error NewVersion toolVersion docVersion sdkVersion mgmt = None /\
  exists prev,
    previous_sdk NewVersion sdkVersion = Some prev /\
    v = format (bump_int (decision NewVersion toolVersion docVersion docChecksum mgmt) prev).
Proof.
  intros H Hv.
  destruct (differs_dec toolVersion docVersion docChecksum mgmt) as [Hd|(H1 & H2 & H3)].
  2:{ rewrite (checkForChanges_identical _ _ _ _ _ _ _ H1 H2 H3) in H.
      simpl in H. by simplify_eq. }
  split; [done|].
  rewrite (checkForChanges_outcome _ contract _ _ _ _ _ _ Hd) in H.
  unfold outcome in H.
  destruct (fatal_error _ _ _ _ _); [done|].
  destruct (previous_sdk _ _) as [prev|]; [|done].
  split; [done|]. exists prev. split; [done|]. by simplify_eq.
Qed.

Lemma previous_sdk_in_range sdkVersion M m p :
  previous_sdk NewVersion sdkVersion = Some (M, m, p) ->
  GoInt.in_range M /\ GoInt.in_range m /\ GoInt.in_range p.
Proof.
  unfold previous_sdk, parsed.
  destruct (sdkVersion =? "")%string.
  - intros ?; simplify_eq.
    unfold GoInt.in_range, GoInt.min_int, GoInt.max_int. lia.
  - destruct (NewVersion sdkVersion) as [v|] eqn:Hv; [|done].
    intros Ht. by eapply contract_in_range.
Qed.

Lemma decision_cases toolVersion docVersion docChecksum mgmt :
  let any := recommended NewVersion toolVersion docVersion docChecksum mgmt in
  let d := decision NewVersion toolVersion docVersion docChecksum mgmt in
  (any Major = true /\ d = Some Major)
  \/ (any Major = false /\ any Minor = true /\ d = Some Minor)
  \/ (any Major = false /\ any Minor = false /\ any Patch = true /\ d = Some Patch)
  \/ (any Major = false /\ any Minor = false /\ any Patch = false /\ d = None).
Proof.
  intros any d. subst d. unfold decision. fold any.
  destruct (any Major), (any Minor), (any Patch); tauto.
Qed.

End Returned.

(** C2, amended. On every input on which no signal recommends Major, Minor
    or Patch: when the tool version, document version and checksum equal
    the recorded ones, [checkForChanges] returns the empty string and a
    nil error; when they differ and every version that has to parse does,
    it returns a nil error and the previous SDK version unchanged,
    formatted [major.minor.patch] ([0.0.0] when the previous SDK version
    is empty), which is not the empty string. *)
Theorem no_signal_keeps_version
    (NewVersion : string -> Version + error)
    (toolVersion docVersion docChecksum previousSdkVersion : string)
    (previousMgmt : gmap string string) (out : list string) :
  library_contract NewVersion ->
  decision NewVersion toolVersion docVersion docChecksum previousMgmt = None ->
  (~ differs toolVersion docVersion docChecksum previousMgmt ->
   fst (checkForChanges NewVersion toolVersion docVersion docChecksum
          previousSdkVersion previousMgmt out) = Return "" None)
  /\ (differs toolVersion docVersion docChecksum previousMgmt ->
      fatal_error NewVersion toolVersion docVersion previousSdkVersion previousMgmt = None ->
      exists prev,
        previous_sdk NewVersion previousSdkVersion = Some prev
        /\ fst (checkForChanges NewVersion toolVersion docVersion docChecksum
                  previousSdkVersion previousMgmt out) = Return (format prev) None
        /\ format prev <> "").
Proof.
  intros HNV Hdec. split.
  - intros Hnd.
    destruct (differs_dec toolVersion docVersion docChecksum previousMgmt)
      as [Hd|(H1 & H2 & H3)]; [done|].
    by rewrite (checkForChanges_identical _ _ _ _ _ _ _ H1 H2 H3).
  - intros Hd Hfatal.
    rewrite (checkForChanges_outcome _ HNV _ _ _ _ _ _ Hd).
    unfold outcome. rewrite Hfatal, Hdec.
    unfold previous_sdk, parsed in *.
    destruct (previousSdkVersion =? "")%string eqn:Hsdk.
    + eexists. split; [done|]. split; [done|]. apply format_nonempty.
    + unfold fatal_error, sdk_error in Hfatal. rewrite Hsdk in Hfatal.
      destruct (NewVersion previousSdkVersion) as [v|e] eqn:Hv.
      * destruct (contract_triple _ _ _ HNV Hv) as [[[M m] p] Ht]. rewrite Ht.
        eexists. split; [done|]. split; [done|]. apply format_nonempty.
      * by repeat case_match.
Qed.

Lemma no_signal_keeps_version_witness :
  fst (checkForChanges GoVersion.NewVersion "1.0.0" "1.0.0" "abc" "1.2.3"
         (management "2.0.0" "1.0.0" "abc") []) = Return "1.2.3" None.
Proof.
  destruct (no_signal_keeps_version GoVersion.NewVersion "1.0.0" "1.0.0" "abc" "1.2.3"
              (management "2.0.0" "1.0.0" "abc") [] GoVersion_contract)
    as [_ H]; [vm_compute; reflexivity|].
  destruct H as (prev & Hprev & Hret & _).
  - left. vm_compute. discriminate.
  - vm_compute. reflexivity.
  - vm_compute in Hprev. injection Hprev as <-. exact Hret.
Defined.

(** C2 as stated fails: a tool version below the recorded one, with the
    document version and checksum unchanged, makes the metadata differ
    while no signal recommends anything; the recorded SDK version
    ["1.2.3"] comes back, not the empty string. *)
Lemma no_signal_returns_version :
  differs "1.0.0" "1.0.0" "abc" (management "2.0.0" "1.0.0" "abc")
  /\ recommended GoVersion.NewVersion "1.0.0" "1.0.0" "abc"
       (management "2.0.0" "1.0.0" "abc") Major = false
  /\ recommended GoVersion.NewVersion "1.0.0" "1.0.0" "abc"
       (management "2.0.0" "1.0.0" "abc") Minor = false
  /\ recommended GoVersion.NewVersion "1.0.0" "1.0.0" "abc"
       (management "2.0.0" "1.0.0" "abc") Patch = false
  /\ fst (checkForChanges GoVersion.NewVersion "1.0.0" "1.0.0" "abc" "1.2.3"
            (management "2.0.0" "1.0.0" "abc") []) = Return "1.2.3" None
  /\ fst (checkForChanges GoVersion.NewVersion "1.0.0" "1.0.0" "abc" "1.2.3"
            (management "2.0.0" "1.0.0" "abc") []) <> Return "" None.
Proof.
  split; [left; vm_compute; discriminate|].
  repeat split; try (vm_compute; reflexivity).
  vm_compute. discriminate.
Qed.

(** C5, amended. Whenever [checkForChanges] returns a non-empty version
    and a nil error, with [(M, m, p)] the previous SDK version ([(0,0,0)]
    when it is empty): if some signal recommends Major and [M] is below
    the largest [int], the version is [(M+1).0.0]; else if some signal
    recommends Minor and [m] is below the largest [int], it is
    [M.(m+1).0]; else if some signal recommends Patch and [p] is below
    the largest [int], it is [M.m.(p+1)]; and when no signal recommends
    anything it is [M.m.p], no component incremented. *)
Theorem precedence_law
    (NewVersion : string -> Version + error)
    (toolVersion docVersion docChecksum previousSdkVersion : string)
    (previousMgmt : gmap string string) (out : list string) (v : string) :
  library_contract NewVersion ->
  fst (checkForChanges NewVersion toolVersion docVersion docChecksum
         previousSdkVersion previousMgmt out) = Return v None ->
  v <> "" ->
  exists M m p,
    previous_sdk NewVersion previousSdkVersion = Some (M, m, p)
    /\ (recommended NewVersion toolVersion docVersion docChecksum previousMgmt Major = true ->
        M < GoInt.max_int -> v = Sprintf_d_d_d (M + 1) 0 0)
    /\ (recommended NewVersion toolVersion docVersion docChecksum previousMgmt Major = false ->
        recommended NewVersion toolVersion docVersion docChecksum previousMgmt Minor = true ->
        m < GoInt.max_int -> v = Sprintf_d_d_d M (m + 1) 0)
    /\ (recommended NewVersion toolVersion docVersion docChecksum previousMgmt Major = false ->
        recommended NewVersion toolVersion docVersion docChecksum previousMgmt Minor = false ->
        recommended NewVersion toolVersion docVersion docChecksum previousMgmt Patch = true ->
        p < GoInt.max_int -> v = Sprintf_d_d_d M m (p + 1))
    /\ (recommended NewVersion toolVersion docVersion docChecksum previousMgmt Major = false ->
        recommended NewVersion toolVersion docVersion docChecksum previousMgmt Minor = false ->
        recommended NewVersion toolVersion docVersion docChecksum previousMgmt Patch = false ->
        v = Sprintf_d_d_d M m p).
Proof.
  intros HNV Hret Hv.
  destruct (returned_version _ HNV _ _ _ _ _ _ _ Hret Hv)
    as (_ & _ & [[M m] p] & Hprev & ->).
  exists M, m, p. split; [done|].
  destruct (previous_sdk_in_range _ HNV _ _ _ _ Hprev) as (HM & Hm & Hp).
  destruct (decision_cases NewVersion toolVersion docVersion docChecksum previousMgmt)
    as [(H1 & ->)|[(H1 & H2 & ->)|[(H1 & H2 & H3 & ->)|(H1 & H2 & H3 & ->)]]];
    rewrite ?H1, ?H2, ?H3; simpl;
    (repeat split; try discriminate; intros;
     rewrite ?incr_below_max by done; done).
Qed.

Lemma precedence_law_witness :
  exists M m p,
    previous_sdk GoVersion.NewVersion "1.2.3" = Some (M, m, p)
    /\ "2.0.0" = Sprintf_d_d_d (M + 1) 0 0.
Proof.
  destruct (precedence_law GoVersion.NewVersion "2.0.0" "1.0.0" "abc" "1.2.3"
              (management "1.2.3" "1.0.0" "abc") [] "2.0.0" GoVersion_contract)
    as (M & m & p & Hprev & HMajor & _); [vm_compute; reflexivity | discriminate |].
  exists M, m, p. split; [exact Hprev|].
  apply HMajor; [vm_compute; reflexivity|].
  vm_compute in Hprev. injection Hprev as <- <- <-. reflexivity.
Defined.

(** C5 as stated fails at the largest [int]: the tool signal recommends
    Major, the previous SDK version is [9223372036854775807.0.0], and the
    version returned is [-9223372036854775808.0.0], not
    [9223372036854775808.0.0]. *)
Lemma precedence_law_overflow :
  fst (checkForChanges GoVersion.NewVersion "2.0.0" "1.0.0" "abc" "9223372036854775807.0.0"
         (management "1.0.0" "1.0.0" "abc") [])
  = Return "-9223372036854775808.0.0" None
  /\ recommended GoVersion.NewVersion "2.0.0" "1.0.0" "abc"
       (management "1.0.0" "1.0.0" "abc") Major = true
  /\ previous_sdk GoVersion.NewVersion "9223372036854775807.0.0"
     = Some (9223372036854775807, 0, 0)
  /\ "-9223372036854775808.0.0" <> Sprintf_d_d_d (9223372036854775807 + 1) 0 0.
Proof.
  repeat split; try (vm_compute; reflexivity).
  vm_compute. discriminate.
Qed.

(** C6, amended. Whenever [checkForChanges] returns a non-empty version
    and a nil error, and the component of the previous SDK version that
    the selected bump increments is below the largest [int], the version
    returned is the formatting of a triple that is greater than or equal
    to the previous SDK version ([(0,0,0)] when it is empty) in the
    order of semantic versions. *)
Theorem sdk_version_monotone
    (NewVersion : string -> Version + error)
    (toolVersion docVersion docChecksum previousSdkVersion : string)
    (previousMgmt : gmap string string) (out : list string) (v : string) :
  library_contract NewVersion ->
  fst (checkForChanges NewVersion toolVersion docVersion docChecksum
         previousSdkVersion previousMgmt out) = Return v None ->
  v <> "" ->
  exists prev,
    previous_sdk NewVersion previousSdkVersion = Some prev
    /\ ((forall b,
           decision NewVersion toolVersion docVersion docChecksum previousMgmt = Some b ->
           component b prev < GoInt.max_int) ->
        exists new, v = format new /\ triple_le prev new).
Proof.
  intros HNV Hret Hv.
  destruct (returned_version _ HNV _ _ _ _ _ _ _ Hret Hv)
    as (_ & _ & [[M m] p] & Hprev & ->).
  exists (M, m, p). split; [done|]. intros Hbound.
  destruct (previous_sdk_in_range _ HNV _ _ _ _ Hprev) as (HM & Hm & Hp).
  eexists. split; [reflexivity|].
  destruct (decision _ _ _ _ _) as [[| |]|]; simpl.
  - specialize (Hbound Major eq_refl). simpl in Hbound.
    rewrite incr_below_max by done. lia.
  - specialize (Hbound Minor eq_refl). simpl in Hbound.
    rewrite incr_below_max by done. lia.
  - specialize (Hbound Patch eq_refl). simpl in Hbound.
    rewrite incr_below_max by done. lia.
  - lia.
Qed.

Lemma sdk_version_monotone_witness :
  exists new, "1.2.1" = format new /\ triple_le (1, 2, 0) new.
Proof.
  destruct (sdk_version_monotone GoVersion.NewVersion "1.20.0" "1.0.0" "def" "1.2.0"
              (management "1.20.0" "1.0.0" "abc") [] "1.2.1" GoVersion_contract)
    as (prev & Hprev & Hnew); [vm_compute; reflexivity | discriminate |].
  vm_compute in Hprev. injection Hprev as <-.
  apply Hnew. intros b Hb. vm_compute in Hb. injection Hb as <-.
  vm_compute. reflexivity.
Defined.

(** C6 as stated fails at the largest [int]: from the previous SDK
    version [9223372036854775807.0.0] a Major bump returns the
    formatting of [(-9223372036854775808, 0, 0)], a triple strictly below
    its predecessor (and the only triple with that formatting). *)
Lemma sdk_version_decreases :
  fst (checkForChanges GoVersion.NewVersion "2.0.0" "1.0.0" "abc" "9223372036854775807.0.0"
         (management "1.0.0" "1.0.0" "abc") [])
  = Return (format (GoInt.min_int, 0, 0)) None
  /\ format (GoInt.min_int, 0, 0) <> ""
  /\ previous_sdk GoVersion.NewVersion "9223372036854775807.0.0"
     = Some (GoInt.max_int, 0, 0)
  /\ ~ (exists new, format (GoInt.min_int, 0, 0) = format new
                    /\ triple_le (GoInt.max_int, 0, 0) new).
Proof.
  split; [vm_compute; reflexivity|].
  split; [apply format_nonempty|].
  split; [vm_compute; reflexivity|].
  intros (new & Hnew & Hle). apply format_inj in Hnew as <-.
  unfold triple_le, GoInt.max_int, GoInt.min_int in Hle. lia.
Qed.

(** ** Fatal parse failures *)

(** C7, amended. Once the metadata differ, [checkForChanges] returns a
    non-nil error exactly when one of these fails to parse: the recorded
    tool version when it is not empty; the current tool version when the
    recorded tool version is not empty; the recorded document version
    when it is not empty and the current document version parses; the
    previous SDK version when it is not empty. So a current document
    version that fails to parse causes no error by itself, and neither
    does a current tool version on a first run. *)
Theorem fatal_parse_failures
    (NewVersion : string -> Version + error)
    (toolVersion docVersion docChecksum previousSdkVersion : string)
    (previousMgmt : gmap string string) (out : list string) :
  library_contract NewVersion ->
  differs toolVersion docVersion docChecksum previousMgmt ->
  (exists v e,
     fst (checkForChanges NewVersion toolVersion docVersion docChecksum
            previousSdkVersion previousMgmt out) = Return v (Some e))
  <->
  (previousMgmt !!! "speakeasy-version" <> ""
   /\ (fails NewVersion (previousMgmt !!! "speakeasy-version")
       \/ fails NewVersion toolVersion))
  \/ (previousMgmt !!! "openapi-version" <> ""
      /\ parses NewVersion docVersion
      /\ fails NewVersion (previousMgmt !!! "openapi-version"))
  \/ (previousSdkVersion <> "" /\ fails NewVersion previousSdkVersion).
Proof.
  intros HNV Hd.
  rewrite (checkForChanges_outcome _ HNV _ _ _ _ _ _ Hd).
  unfold outcome, fatal_error, tool_error, doc_error, sdk_error, previous_sdk, parsed, fails, parses.
  set (pt := previousMgmt !!! "speakeasy-version").
  set (pd := previousMgmt !!! "openapi-version").
  clearbody pt pd.
  destruct (String.eqb_spec pt "") as [Ept|Ept];
  destruct (String.eqb_spec pd "") as [Epd|Epd];
  destruct (String.eqb_spec previousSdkVersion "") as [Esdk|Esdk];
  destruct (NewVersion pt) as [vpt|ept] eqn:Hpt;
  destruct (NewVersion toolVersion) as [vtv|etv] eqn:Htv;
  destruct (NewVersion pd) as [vpd|epd] eqn:Hpd;
  destruct (NewVersion docVersion) as [vdv|edv] eqn:Hdv;
  destruct (NewVersion previousSdkVersion) as [vsdk|esdk] eqn:Hsdk;
  try (destruct (contract_triple _ _ _ HNV Hsdk) as [t ->]);
  (split;
   [ intros (v & e & Hret); try discriminate Hret; eauto 8
   | intros Hfatal; try (by eexists _, _); exfalso;
     destruct Hfatal as [(? & [[? ?]|[? ?]])|[(? & [? ?] & [? ?])|(? & [? ?])]];
     congruence ]).
Qed.

Lemma fatal_parse_failures_witness :
  exists v e,
    fst (checkForChanges GoVersion.NewVersion "1.20.0" "1.0.0" "abc" "one.two"
           (management "1.19.0" "1.0.0" "abc") []) = Return v (Some e).
Proof.
  apply (fatal_parse_failures GoVersion.NewVersion "1.20.0" "1.0.0" "abc" "one.two"
           (management "1.19.0" "1.0.0" "abc") [] GoVersion_contract).
  - left. vm_compute. discriminate.
  - right. right. split; [discriminate|]. eexists. vm_compute. reflexivity.
Defined.

(** C7 as stated fails on a first run: with nothing recorded, a current
    tool version that does not parse is never read, and the call returns
    ["0.1.0"] with a nil error. *)
Lemma unparsed_tool_version_on_first_run :
  differs "latest" "1.0.0" "abc" ∅
  /\ fails GoVersion.NewVersion "latest"
  /\ fst (checkForChanges GoVersion.NewVersion "latest" "1.0.0" "abc" "" ∅ [])
     = Return "0.1.0" None.
Proof.
  split; [left; vm_compute; discriminate|].
  split; [eexists; vm_compute; reflexivity|].
  vm_compute. reflexivity.
Qed.

Example segment_priority :
  fst (Decide GoVersion.NewVersion "2.0.0" "1.0.0" "abc" "1.2.3"
         (management "1.2.3" "1.0.0" "abc")) = Return "2.0.0" None.
Proof. vm_compute. reflexivity. Qed.

Example checksum_only_bump :
  Decide GoVersion.NewVersion "1.20.0" "1.0.0" "def" "1.2.0"
    (management "1.20.0" "1.0.0" "abc")
  = (Return "1.2.1" None,
     ["OpenAPI doc checksum changed detected: abc > def" +:+ nl;
      "::warning title=checksum_changed::openapi checksum changed but version did not" +:+ nl;
      "Bumping SDK patch version" +:+ nl]).
Proof. vm_compute. reflexivity. Qed.

Example tool_downgrade :
  fst (Decide GoVersion.NewVersion "1.0.0" "1.0.0" "abc" "1.2.3"
         (management "2.0.0" "1.0.0" "abc")) = Return "1.2.3" None.
Proof. vm_compute. reflexivity. Qed.

Example major_overflow :
  fst (Decide GoVersion.NewVersion "2.0.0" "1.0.0" "abc" "9223372036854775807.0.0"
         (management "1.0.0" "1.0.0" "abc")) = Return "-9223372036854775808.0.0" None.
Proof. vm_compute. reflexivity. Qed.




(** * Further properties of the reconciler *)

(** ** Standard output of the statement groups *)

Section PrintedBlocks.
Import Printed.
Variable NV : string -> Version + error.
Hypothesis HNV : library_contract NV.

Lemma speakeasy_block tv mgmt bM bm bp out :
  let prev := mgmt !!! "speakeasy-version" in
  let s := tool_signal NV tv prev in
  bump_from_speakeasy_version NV tv mgmt bM bm bp out =
  match tool_error NV tv prev with
  | Some e => (Return "" (Some e), out)
  | None => (Next (bM || asks Major s, bm || asks Minor s, bp || asks Patch s),
             (out ++ tool_lines NV tv prev)%list)
  end.
Proof.
  unfold bump_from_speakeasy_version, tool_error, tool_signal, tool_lines, moved_up, parsed.
  set (pt := mgmt !!! "speakeasy-version"). clearbody pt. cbv zeta.
  destruct (pt =? "")%string.
  { unfold ret. simpl. by rewrite !orb_false_r, orb_true_r, app_nil_r. }
  destruct (NV pt) as [vp|e] eqn:Ep; [|done].
  destruct (NV tv) as [vc|e] eqn:Ec; [|done].
  destruct (contract_triple _ _ _ HNV Ep) as [[[p0 p1] p2] Hp].
  destruct (contract_triple _ _ _ HNV Ec) as [[[c0 c1] c2] Hc].
  rewrite Hp, Hc.
  apply triple_segments in Hp as [rp Hp]. apply triple_segments in Hc as [rc Hc].
  unfold bind, segment, first_increase, asks, print, ret. rewrite Hp, Hc. simpl.
  destruct (c0 >? p0); [simpl; by rewrite !orb_false_r, orb_true_r|].
  destruct (c1 >? p1); [simpl; by rewrite !orb_false_r, orb_true_r|].
  destruct (c2 >? p2); simpl; by rewrite !orb_false_r, ?orb_true_r, ?app_nil_r.
Qed.

Lemma openapi_block dv mgmt bM bm bp out :
  let prev := mgmt !!! "openapi-version" in
  let s := doc_signal NV dv prev in
  bump_from_openapi_version NV dv mgmt bM bm bp out =
  match doc_error NV dv prev with
  | Some e => (Return "" (Some e), out)
  | None => (Next (bM || asks Major s, bm || asks Minor s, bp || asks Patch s,
                   docVersionUpdated NV dv prev),
             (out ++ doc_lines NV dv prev)%list)
  end.
Proof.
  unfold bump_from_openapi_version, doc_error, doc_signal, doc_lines, docVersionUpdated,
    moved_up, parsed.
  set (pd := mgmt !!! "openapi-version"). clearbody pd. cbv zeta.
  destruct (pd =? "")%string.
  { unfold ret. simpl. by rewrite !orb_false_r, orb_true_r, app_nil_r. }
  destruct (NV dv) as [vc|e] eqn:Ec.
  2:{ unfold bind, Println, print, ret. simpl. by rewrite !orb_false_r. }
  destruct (NV pd) as [vp|e] eqn:Ep; [|done].
  destruct (contract_triple _ _ _ HNV Ep) as [[[p0 p1] p2] Hp].
  destruct (contract_triple _ _ _ HNV Ec) as [[[c0 c1] c2] Hc].
  rewrite Hp, Hc.
  apply triple_segments in Hp as [rp Hp]. apply triple_segments in Hc as [rc Hc].
  unfold bind, segment, first_increase, asks, print, ret. rewrite Hp, Hc. simpl.
  destruct (c0 >? p0); [simpl; by rewrite !orb_false_r, orb_true_r|].
  destruct (c1 >? p1); [simpl; by rewrite !orb_false_r, orb_true_r|].
  destruct (c2 >? p2); simpl; by rewrite !orb_false_r, ?orb_true_r, ?app_nil_r.
Qed.

Lemma checksum_block dc mgmt bm bp updated out :
  let prev := mgmt !!! "openapi-checksum" in
  let s := checksum_signal dc prev in
  bump_from_checksum dc mgmt bm bp updated out =
  (Next (bm || asks Minor s, bp || asks Patch s),
   (out ++ checksum_lines dc prev updated)%list).
Proof.
  unfold bump_from_checksum, checksum_signal, checksum_lines, asks, checksum_changed,
    checksum_changed_warning.
  set (pc := mgmt !!! "openapi-checksum"). clearbody pc. cbv zeta.
  destruct (pc =? "")%string.
  { unfold ret. simpl. by rewrite orb_false_r, orb_true_r, app_nil_r. }
  destruct (dc =? pc)%string; simpl.
  { unfold ret. by rewrite !orb_false_r, app_nil_r. }
  destruct updated; unfold bind, print, Println, ret; simpl;
    rewrite orb_false_r, orb_true_r, <- ?app_assoc; reflexivity.
Qed.

Lemma bump_block bM bm bp M m p out :
  bump_version bM bm bp M m p out =
  (Next (bump_int (resolve bM bm bp) (M, m, p)),
   (out ++ bump_lines (resolve bM bm bp))%list).
Proof.
  unfold bump_version, resolve, bump_lines.
  destruct bM, bm, bp; unfold bind, Println, print, ret; simpl; by rewrite ?app_nil_r.
Qed.

(** A call that gets past the guard and meets no failure returns the
    bumped version after printing the lines of [Printed.lines]. *)
Lemma checkForChanges_run tv dv dc sdk mgmt out prev :
  differs tv dv dc mgmt ->
  fatal_error NV tv dv sdk mgmt = None ->
  previous_sdk NV sdk = Some prev ->
  checkForChanges NV tv dv dc sdk mgmt out =
  (Return (format (bump_int (decision NV tv dv dc mgmt) prev)) None,
   (out ++ lines NV tv dv dc mgmt)%list).
Proof.
  intros Hd Hok Hprev.
  assert (negb (tv =? mgmt !!! "speakeasy-version")%string
          || negb (dv =? mgmt !!! "openapi-version")%string
          || negb (dc =? mgmt !!! "openapi-checksum")%string = true) as Hb.
  { destruct Hd as [Hd|[Hd|Hd]]; apply String.eqb_neq in Hd; rewrite Hd; simpl;
      rewrite ?orb_true_r; done. }
  unfold checkForChanges, lines. rewrite Hb. clear Hb.
  unfold fatal_error in Hok. rewrite decision_resolve.
  pose proof (speakeasy_block tv mgmt false false false out) as H1. cbv zeta in H1.
  destruct (tool_error NV tv (mgmt !!! "speakeasy-version")) as [e|]; [done|].
  rewrite (bind_Next _ _ _ _ _ H1). clear H1. cbv beta iota zeta.
  match goal with |- bind (bump_from_openapi_version NV dv mgmt ?a ?b ?c) _ ?o = _ =>
    pose proof (openapi_block dv mgmt a b c o) as H2 end. cbv zeta in H2.
  destruct (doc_error NV dv (mgmt !!! "openapi-version")) as [e|]; [done|].
  rewrite (bind_Next _ _ _ _ _ H2). clear H2. cbv beta iota zeta.
  match goal with |- bind (bump_from_checksum dc mgmt ?a ?b ?c) _ ?o = _ =>
    pose proof (checksum_block dc mgmt a b c o) as H3 end. cbv zeta in H3.
  rewrite (bind_Next _ _ _ _ _ H3). clear H3. cbv beta iota zeta.
  match goal with |- bind (previous_version NV sdk) _ ?o = _ =>
    pose proof (previous_version_spec NV sdk o) as H4 end.
  destruct (sdk_error NV sdk) as [e|]; [done|].
  rewrite Hprev in H4. destruct prev as [[M m] p].
  rewrite (bind_Next _ _ _ _ _ H4). clear H4. cbv beta iota zeta.
  match goal with |- bind (bump_version ?a ?b ?c M m p) _ ?o = _ =>
    pose proof (bump_block a b c M m p o) as H5 end.
  rewrite (bind_Next _ _ _ _ _ H5). clear H5.
  destruct (bump_int _ _) as [[M' m'] p']. unfold return_. cbv beta iota.
  f_equal. by rewrite <- !app_assoc.
Qed.

End PrintedBlocks.

(** ** What a caller can observe *)

Section Observed.
Variable NV : string -> Version + error.
Hypothesis HNV : library_contract NV.

Lemma previous_sdk_defined sdk :
  sdk_error NV sdk = None -> exists prev, previous_sdk NV sdk = Some prev.
Proof.
  unfold sdk_error, previous_sdk, parsed.
  destruct (sdk =? "")%string; [by eexists|].
  destruct (NV sdk) as [v|e] eqn:Hv; [|done].
  intros _. by eapply contract_triple.
Qed.

Lemma fatal_error_sdk tv dv sdk mgmt :
  fatal_error NV tv dv sdk mgmt = None -> sdk_error NV sdk = None.
Proof. unfold fatal_error. by repeat case_match. Qed.

Lemma checkForChanges_cases tv dv dc sdk mgmt out :
  (~ differs tv dv dc mgmt
   /\ checkForChanges NV tv dv dc sdk mgmt out = (Return "" None, out))
  \/ (differs tv dv dc mgmt
      /\ exists e, fatal_error NV tv dv sdk mgmt = Some e
                   /\ fst (checkForChanges NV tv dv dc sdk mgmt out) = Return "" (Some e))
  \/ (differs tv dv dc mgmt
      /\ fatal_error NV tv dv sdk mgmt = None
      /\ exists prev,
           previous_sdk NV sdk = Some prev
           /\ checkForChanges NV tv dv dc sdk mgmt out
              = (Return (format (bump_int (decision NV tv dv dc mgmt) prev)) None,
                 (out ++ Printed.lines NV tv dv dc mgmt)%list)).
Proof.
  destruct (differs_dec tv dv dc mgmt) as [Hd|(H1 & H2 & H3)].
  2:{ left. split.
      - unfold differs. tauto.
      - by apply checkForChanges_identical. }
  right. destruct (fatal_error NV tv dv sdk mgmt) as [e|] eqn:Hf.
  - left. split; [done|]. exists e. split; [done|].
    rewrite (checkForChanges_outcome _ HNV _ _ _ _ _ _ Hd). unfold outcome. by rewrite Hf.
  - right. split; [done|]. split; [done|].
    destruct (previous_sdk_defined sdk (fatal_error_sdk _ _ _ _ Hf)) as [prev Hprev].
    exists prev. split; [done|]. by apply checkForChanges_run.
Qed.

End Observed.

(** X1. Under the library's contract [checkForChanges] never panics, and
    the pair it returns is the empty string with a nil error exactly when
    the tool version, the document version and the checksum all equal
    the recorded ones: once one of them differs the caller gets an error
    or a version that is not empty. *)
Theorem empty_version_iff_identical
    (NewVersion : string -> Version + error)
    (toolVersion docVersion docChecksum previousSdkVersion : string)
    (previousMgmt : gmap string string) (out : list string) :
  library_contract NewVersion ->
  fst (checkForChanges NewVersion toolVersion docVersion docChecksum
         previousSdkVersion previousMgmt out) <> Panic
  /\ (fst (checkForChanges NewVersion toolVersion docVersion docChecksum
             previousSdkVersion previousMgmt out) = Return "" None
      <-> ~ differs toolVersion docVersion docChecksum previousMgmt).
Proof.
  intros HNV.
  destruct (checkForChanges_cases NewVersion HNV toolVersion docVersion docChecksum
              previousSdkVersion previousMgmt out)
    as [[Hsame ->]|[(Hd & e & _ & ->)|(Hd & _ & prev & _ & ->)]]; simpl.
  - split; [done|]. tauto.
  - split; [done|]. split; [done|tauto].
  - split; [done|]. split; [|tauto].
    intros [= H]. by apply format_nonempty in H.
Qed.

Lemma empty_version_iff_identical_witness :
  fst (checkForChanges GoVersion.NewVersion "1.20.0" "1.0.0" "abc" "1.2.3"
         (management "1.20.0" "1.0.0" "abc") []) = Return "" None.
Proof.
  apply (empty_version_iff_identical GoVersion.NewVersion "1.20.0" "1.0.0" "abc" "1.2.3"
           (management "1.20.0" "1.0.0" "abc") [] GoVersion_contract).
  vm_compute. tauto.
Defined.

(** X2. Once the metadata differ, the error [checkForChanges] returns is
    that of the first version that had to parse and did not, in the
    order of the code: the recorded tool version, the current tool
    version, the recorded document version, the previous SDK version;
    its message is the prefix of that check followed by the library's
    message. *)
Theorem first_failure_reported
    (NewVersion : string -> Version + error)
    (toolVersion docVersion docChecksum previousSdkVersion : string)
    (previousMgmt : gmap string string) (out : list string) (v : string) (e : error) :
  library_contract NewVersion ->
  differs toolVersion docVersion docChecksum previousMgmt ->
  fst (checkForChanges NewVersion toolVersion docVersion docChecksum
         previousSdkVersion previousMgmt out) = Return v (Some e)
  <-> v = ""
      /\ fatal_error NewVersion toolVersion docVersion previousSdkVersion previousMgmt
         = Some e.
Proof.
  intros HNV Hd.
  destruct (checkForChanges_cases NewVersion HNV toolVersion docVersion docChecksum
              previousSdkVersion previousMgmt out)
    as [[Hsame _]|[(_ & e' & He' & ->)|(_ & Hnone & prev & _ & ->)]]; simpl.
  - done.
  - rewrite He'. split; [by intros [= <- <-]|by intros [-> [= ->]]].
  - rewrite Hnone. split; [done|by intros [_ ?]].
Qed.

Lemma first_failure_reported_witness :
  fst (checkForChanges GoVersion.NewVersion "1.20.0" "1.0.0" "abc" "one.two"
         (management "1.19.0" "x.y" "abc") [])
  = Return "" (Some "error parsing config openapi version: Malformed version: x.y").
Proof.
  apply (first_failure_reported GoVersion.NewVersion "1.20.0" "1.0.0" "abc" "one.two"
           (management "1.19.0" "x.y" "abc") [] _ _ GoVersion_contract).
  - left. vm_compute. discriminate.
  - split; vm_compute; reflexivity.
Defined.

(** ** The checksum signal *)



Section ChecksumOnly.
Import Printed.
Variable NV : string -> Version + error.



End ChecksumOnly.



(** ** The warning about a checksum that changed alone *)

Section Warning.
Import Printed.
Variable NV : string -> Version + error.

Lemma docVersionUpdated_signal dv prev :
  docVersionUpdated NV dv prev = true
  <-> prev <> "" /\ is_Some (doc_signal NV dv prev).
Proof.
  unfold docVersionUpdated, doc_signal, moved_up.
  destruct (String.eqb_spec prev "") as [->|Hne]; simpl.
  { split; [done|]. by intros [? _]. }
  destruct (parsed NV dv) as [cur|], (parsed NV prev) as [p|];
    try (split; [done|]; intros [_ [? ?]]; done).
  destruct (first_increase cur p).
  - split; [|done]. intros _. split; [done|]. by eexists.
  - split; [done|]. intros [_ [? ?]]. done.
Qed.

Lemma warning_not_changed what prev cur :
  what = "Speakeasy" \/ what = "OpenAPI doc" ->
  checksum_changed_warning <> changed_detected what prev cur.
Proof. intros [-> | ->]; cbv; discriminate. Qed.

Lemma warning_in_lines tv dv dc mgmt :
  In checksum_changed_warning (lines NV tv dv dc mgmt)
  <-> mgmt !!! "openapi-checksum" <> ""
      /\ dc <> mgmt !!! "openapi-checksum"
      /\ docVersionUpdated NV dv (mgmt !!! "openapi-version") = false.
Proof.
  unfold lines. rewrite !in_app_iff.
  assert (~ In checksum_changed_warning (tool_lines NV tv (mgmt !!! "speakeasy-version")))
    as Htool.
  { unfold tool_lines. repeat case_match; simpl; try tauto.
    intros [Hw|[]]. symmetry in Hw. revert Hw. apply warning_not_changed. by left. }
  assert (~ In checksum_changed_warning (doc_lines NV dv (mgmt !!! "openapi-version")))
    as Hdoc.
  { unfold doc_lines. repeat case_match; simpl; try tauto.
    - intros [Hw|[]]. symmetry in Hw. revert Hw. apply warning_not_changed. by right.
    - intros [Hw|[]]. revert Hw. cbv. discriminate. }
  assert (~ In checksum_changed_warning
            (bump_lines (decision NV tv dv dc mgmt))) as Hbump.
  { unfold bump_lines. repeat case_match; simpl; try tauto;
      intros [Hw|[]]; revert Hw; cbv; discriminate. }
  unfold checksum_lines.
  destruct (String.eqb_spec (mgmt !!! "openapi-checksum") "") as [Hc|Hc].
  { simpl. tauto. }
  destruct (String.eqb_spec dc (mgmt !!! "openapi-checksum")) as [Hdc|Hdc]; simpl.
  { tauto. }
  assert (checksum_changed (mgmt !!! "openapi-checksum") dc <> checksum_changed_warning)
    as Hline by (cbv; discriminate).
  destruct (docVersionUpdated NV dv (mgmt !!! "openapi-version")); simpl.
  - split; [|by intros (_ & _ & ?)]. tauto.
  - split; [done|]. intros _. right. right. left. right. by left.
Qed.

End Warning.

(** X4. A call of [checkForChanges] that returns a version has printed
    the warning that the checksum changed but the version did not
    exactly when a checksum is recorded, the current checksum differs
    from it, and the comparison of the document versions found no
    segment that moved up: the recorded document version is empty, one
    of the two versions is not a semver, or no segment increased. *)
Theorem checksum_warning_iff
    (NewVersion : string -> Version + error)
    (toolVersion docVersion docChecksum previousSdkVersion : string)
    (previousMgmt : gmap string string) (out out' : list string) (v : string) :
  library_contract NewVersion ->
  checkForChanges NewVersion toolVersion docVersion docChecksum
    previousSdkVersion previousMgmt out = (Return v None, out') ->
  exists printed,
    out' = (out ++ printed)%list
    /\ (In Printed.checksum_changed_warning printed
        <-> previousMgmt !!! "openapi-checksum" <> ""
            /\ docChecksum <> previousMgmt !!! "openapi-checksum"
            /\ ~ (previousMgmt !!! "openapi-version" <> ""
                  /\ is_Some (doc_signal NewVersion docVersion
                                (previousMgmt !!! "openapi-version")))).
Proof.
  intros HNV H.
  destruct (checkForChanges_cases NewVersion HNV toolVersion docVersion docChecksum
              previousSdkVersion previousMgmt out)
    as [[Hsame Heq]|[(_ & e & _ & Heq)|(_ & _ & prev & _ & Heq)]].
  - rewrite Heq in H. injection H as <- <-. exists []. split; [by rewrite app_nil_r|].
    simpl. split; [done|]. intros (_ & Hdc & _). apply Hsame. right. by right.
  - rewrite (surjective_pairing (checkForChanges _ _ _ _ _ _ _)), Heq in H. done.
  - rewrite Heq in H. injection H as _ <-. eexists. split; [done|].
    rewrite warning_in_lines, <- docVersionUpdated_signal.
    destruct (Printed.docVersionUpdated _ _ _); intuition congruence.
Qed.

Lemma checksum_warning_iff_witness :
  exists printed,
    [Printed.checksum_changed "abc" "def"; Printed.checksum_changed_warning;
     "Bumping SDK minor version" +:+ nl] = ([] ++ printed)%list
    /\ In Printed.checksum_changed_warning printed.
Proof.
  destruct (checksum_warning_iff GoVersion.NewVersion "1.20.0" "1.1.0" "def" "1.2.0"
              (management "1.20.0" "" "abc") []
              [Printed.checksum_changed "abc" "def"; Printed.checksum_changed_warning;
               "Bumping SDK minor version" +:+ nl]
              "1.3.0" GoVersion_contract)
    as (printed & Heq & Hiff); [vm_compute; reflexivity|].
  exists printed. split; [exact Heq|].
  apply Hiff. split; [vm_compute; discriminate|]. split; [vm_compute; discriminate|].
  intros [Hne _]. apply Hne. vm_compute. reflexivity.
Defined.

(** ** The warning about a document version that is not a semver *)




(** * Properties of the release ledger *)

(** ** Texts *)

Local Arguments String.append !_ _ / : simpl nomatch.

Lemma append_nil_r s : s +:+ "" = s.
Proof. induction s as [|c s IH]; simpl; [done | by rewrite IH]. Qed.

Lemma append_assoc a b c : (a +:+ b) +:+ c = a +:+ b +:+ c.
Proof. induction a as [|x a IH]; simpl; [done | by rewrite IH]. Qed.

Lemma length_append a b :
  String.length (a +:+ b) = (String.length a + String.length b)%nat.
Proof. induction a as [|x a IH]; simpl; [done | by rewrite IH]. Qed.

Lemma length_zero s : String.length s = 0%nat -> s = "".
Proof. destruct s; simpl; [done | discriminate]. Qed.

Lemma HasPrefix_app s p : strings.HasPrefix (p +:+ s) p = true.
Proof. induction p; simpl; [done|]. by rewrite Ascii.eqb_refl. Qed.

Lemma HasPrefix_split s p :
  strings.HasPrefix s p = true -> s = p +:+ strings.drop (String.length p) s.
Proof.
  revert s. induction p as [|c p IH]; intros [|d s]; simpl; try done.
  intros H. apply andb_true_iff in H as [Hc Hp].
  apply Ascii.eqb_eq in Hc as ->. f_equal. by apply IH.
Qed.

Lemma drop_app p s : strings.drop (String.length p) (p +:+ s) = s.
Proof. induction p; simpl; [by destruct s | done]. Qed.

Lemma take_app p s : strings.take (String.length p) (p +:+ s) = p.
Proof. induction p as [|x p IH]; simpl; [by destruct s | by rewrite IH]. Qed.

Lemma consumed_app m rest : regexp.consumed (m +:+ rest) rest = m.
Proof.
  unfold regexp.consumed. rewrite length_append.
  replace (String.length m + String.length rest - String.length rest)%nat
    with (String.length m) by lia.
  apply take_app.
Qed.

(** ** The search finds only texts of the language *)

Section Soundness.
Import regexp.
Context {R : Type}.
Implicit Types (k : string -> list string -> option R) (res : R).

Lemma reaches_nil (L : string -> Prop) (G : list nat) s caps k res :
  L "" -> k s caps = Some res -> reaches L G s caps k res.
Proof. intros HL Hk. by exists "", s, caps. Qed.

Lemma reaches_app (L2 L : string -> Prop) (G1 G2 G : list nat) m1 rest1 caps1 caps k res :
  (forall m2, L2 m2 -> L (m1 +:+ m2)) ->
  (forall i, i ∉ G -> (i ∉ G1) /\ (i ∉ G2)) ->
  length caps1 = length caps ->
  (forall i, i ∉ G1 -> caps1 !! i = caps !! i) ->
  reaches L2 G2 rest1 caps1 k res ->
  reaches L G (m1 +:+ rest1) caps k res.
Proof.
  intros HL HG Hlen Hframe (m2 & rest & caps2 & -> & Hm2 & Hlen2 & Hframe2 & Hk).
  exists (m1 +:+ m2), rest, caps2. rewrite append_assoc.
  split; [done|]. split; [by apply HL|]. split; [congruence|]. split; [|done].
  intros i Hi. destruct (HG i Hi) as [H1 H2]. by rewrite Hframe2, Hframe.
Qed.

Lemma consumes_nonempty m rest :
  (String.length rest <? String.length (m +:+ rest))%nat = true -> m <> "".
Proof.
  intros Hlt ->. apply Nat.ltb_lt in Hlt. simpl in Hlt. lia.
Qed.

Lemma greedy_sound r
    (IH : forall s caps k res,
        exec r s caps k = Some res -> reaches (Lang r) (Groups r) s caps k res)
    k fuel s caps res :
  greedy (exec r) k fuel s caps = Some res ->
  reaches (Lang (Star r)) (Groups r) s caps k res.
Proof.
  revert s caps. induction fuel as [|fuel IHf]; simpl; intros s caps H.
  - apply reaches_nil; [constructor | done].
  - destruct (exec r s caps _) as [res'|] eqn:Hbody.
    + simplify_eq.
      apply IH in Hbody as (m1 & rest1 & caps1 & -> & Hm1 & Hlen1 & Hframe1 & Hk).
      destruct (_ <? _)%nat eqn:Hlt; [|done].
      apply consumes_nonempty in Hlt.
      apply (reaches_app (Lang (Star r)) _ (Groups r) (Groups r) _ _ _ caps1);
        [|done|exact Hlen1|exact Hframe1|by apply IHf].
      intros m2 Hm2. by constructor.
    + apply reaches_nil; [constructor | done].
Qed.

Lemma lazy_sound r
    (IH : forall s caps k res,
        exec r s caps k = Some res -> reaches (Lang r) (Groups r) s caps k res)
    k fuel s caps res :
  lazy (exec r) k fuel s caps = Some res ->
  reaches (Lang (LazyStar r)) (Groups r) s caps k res.
Proof.
  revert s caps. induction fuel as [|fuel IHf]; simpl; intros s caps H.
  - destruct (k s caps) eqn:Hk; [|done]. simplify_eq.
    apply reaches_nil; [constructor | done].
  - destruct (k s caps) eqn:Hk.
    { simplify_eq. apply reaches_nil; [constructor | done]. }
    apply IH in H as (m1 & rest1 & caps1 & -> & Hm1 & Hlen1 & Hframe1 & Hk1).
    destruct (_ <? _)%nat eqn:Hlt; [|done].
    apply consumes_nonempty in Hlt.
    apply (reaches_app (Lang (LazyStar r)) _ (Groups r) (Groups r) _ _ _ caps1);
      [|done|exact Hlen1|exact Hframe1|by apply IHf].
    intros m2 Hm2. by constructor.
Qed.

Lemma exec_sound r s caps k res :
  exec r s caps k = Some res -> reaches (Lang r) (Groups r) s caps k res.
Proof.
  revert s caps k res.
  induction r as [lit| | | |r1 IH1 r2 IH2|r IH|r IH|r IH|r IH|i r IH];
    intros s caps k res H; simpl in H.
  - destruct (strings.HasPrefix s lit) eqn:Hp; [|done].
    exists lit, (strings.drop (String.length lit) s), caps.
    split; [by apply HasPrefix_split|]. split; [constructor|done].
  - destruct s as [|c s]; [done|]. destruct (Ascii.eqb c LF) eqn:Hc; [done|].
    exists (String c ""), s, caps.
    split; [done|]. split; [|done]. constructor. by apply Ascii.eqb_neq.
  - destruct s as [|c s]; [done|].
    exists (String c ""), s, caps. split; [done|]. split; [constructor|done].
  - destruct s as [|c s]; [done|]. destruct (is_digit c) eqn:Hc; [|done].
    exists (String c ""), s, caps. split; [done|]. split; [by constructor|done].
  - apply IH1 in H as (m1 & rest1 & caps1 & -> & Hm1 & Hlen1 & Hframe1 & H).
    apply (reaches_app (Lang r2) _ (Groups r1) (Groups r2) _ _ _ caps1);
      [| |exact Hlen1|exact Hframe1|by apply IH2].
    + intros m2 Hm2. by constructor.
    + simpl. intros i Hi. split; intros ?; apply Hi, elem_of_app; auto.
  - exact (greedy_sound r IH _ _ _ _ _ H).
  - exact (lazy_sound r IH _ _ _ _ _ H).
  - apply IH in H as (m1 & rest1 & caps1 & -> & Hm1 & Hlen1 & Hframe1 & H).
    apply (reaches_app (Lang (Star r)) _ (Groups r) (Groups r) _ _ _ caps1);
      [|done|exact Hlen1|exact Hframe1|exact (greedy_sound r IH _ _ _ _ _ H)].
    intros m2 Hm2. by constructor.
  - destruct (exec r s caps k) as [res'|] eqn:Hr.
    + simplify_eq. apply IH in Hr as (m & rest & caps' & -> & Hm & Hlen & Hframe & H).
      exists m, rest, caps'. split; [done|]. split; [by constructor|done].
    + apply reaches_nil; [constructor | done].
  - apply IH in H as (m & rest & caps' & -> & Hm & Hlen & Hframe & H).
    eexists m, rest, _. split; [done|]. split; [by constructor|].
    split; [by rewrite length_insert|]. split; [|exact H].
    simpl. intros j Hj. apply not_elem_of_cons in Hj as [Hne Hj].
    rewrite list_lookup_insert_ne by done. by apply Hframe.
Qed.

(** A capturing group hands on the text it matched. *)
Lemma exec_Group_sound i r s caps k res :
  exec (Group i r) s caps k = Some res ->
  exists m rest caps',
    s = m +:+ rest /\ Lang r m /\ length caps' = length caps
    /\ k rest (<[i := m]> caps') = Some res.
Proof.
  simpl. intros H.
  apply exec_sound in H as (m & rest & caps' & -> & Hm & Hlen & _ & H).
  rewrite consumed_app in H. by exists m, rest, caps'.
Qed.

End Soundness.

Import regexp.

Lemma match_here_sound r s matches :
  match_here r s = Some matches ->
  length matches = S (NumSubexp r)
  /\ exists m rest, s = m +:+ rest /\ Lang r m /\ nth 0 matches "" = m.
Proof.
  unfold match_here. intros H.
  apply exec_sound in H as (m & rest & caps' & -> & Hm & Hlen & _ & H).
  simplify_eq. rewrite length_insert, Hlen, length_replicate. split; [done|].
  exists m, rest. split; [done|]. split; [done|].
  rewrite consumed_app. destruct caps'; [|done].
  by rewrite length_replicate in Hlen.
Qed.

(** [FindStringSubmatch] returns [nil] or one text per group and one for
    the whole match, found somewhere in the input. *)
Lemma FindStringSubmatch_sound r s :
  FindStringSubmatch r s = []
  \/ (length (FindStringSubmatch r s) = S (NumSubexp r) /\ occurs r s).
Proof.
  induction s as [|c s IH]; simpl.
  - destruct (match_here r "") as [matches|] eqn:H; [|by left].
    right. apply match_here_sound in H as (Hlen & m & rest & Hs & Hm & _).
    split; [done|]. by exists "", m, rest.
  - destruct (match_here r (String c s)) as [matches|] eqn:H.
    + right. apply match_here_sound in H as (Hlen & m & rest & Hs & Hm & _).
      split; [done|]. by exists "", m, rest.
    + destruct IH as [IH|[Hlen (before & m & rest & -> & Hm)]]; [by left|].
      right. split; [done|]. by exists (String c before), m, rest.
Qed.

Lemma FindStringSubmatch_none r s :
  ~ occurs r s -> FindStringSubmatch r s = [].
Proof. intros Hno. destruct (FindStringSubmatch_sound r s) as [|[_ ?]]; done. Qed.

(** ** The last block of a ledger *)

Lemma split_from_nonempty sep skip s : strings.split_from sep skip s <> [].
Proof.
  revert skip. induction s as [|c s IH]; intros skip; simpl; [done|].
  destruct skip as [|n]; [|apply IH].
  destruct (strings.HasPrefix _ _); [done|].
  by destruct (strings.split_from sep 0 s).
Qed.

(** [releases[len(releases)-1]] is always in range. *)
Lemma Split_nonempty s sep : strings.Split s sep <> [].
Proof. apply split_from_nonempty. Qed.

(** ** Malformed ledgers *)

Import releases.

Lemma ParseReleases_no_header data :
  FindStringSubmatch releaseInfoRegex (List.last (strings.Split data (nl +:+ nl)) "") = [] ->
  ParseReleases data = (None, Some "error parsing last release info").
Proof. unfold ParseReleases. by intros ->. Qed.

(** C8 (Malformed-ledger rejection). When the header pattern matches
    nowhere in the final blank-line-separated block of the ledger text,
    [ParseReleases] returns a nil record and the non-nil error "error
    parsing last release info". *)
Theorem malformed_ledger_rejected (data : string) :
  ~ occurs releaseInfoRegex (List.last (strings.Split data (nl +:+ nl)) "") ->
  ParseReleases data = (None, Some "error parsing last release info").
Proof.
  intros Hno. apply ParseReleases_no_header. by apply FindStringSubmatch_none.
Qed.

Lemma Lang_Str_inv lit m : Lang (Str lit) m -> m = lit.
Proof. by inversion 1. Qed.

Lemma Lang_Cat_inv r1 r2 m :
  Lang (Cat r1 r2) m -> exists m1 m2, m = m1 +:+ m2 /\ Lang r1 m1 /\ Lang r2 m2.
Proof. inversion 1; subst. by eexists _, _. Qed.

(** A match of the header pattern begins with the title mark. *)
Lemma header_match_begins m :
  Lang releaseInfoRegex m -> exists m', m = "## " +:+ m'.
Proof.
  unfold releaseInfoRegex. intros H.
  apply Lang_Cat_inv in H as (m1 & m2 & -> & H1 & _).
  apply Lang_Str_inv in H1 as ->. by eexists.
Qed.

(** The empty ledger is malformed. *)
Lemma malformed_ledger_rejected_witness :
  ParseReleases "" = (None, Some "error parsing last release info").
Proof.
  apply (malformed_ledger_rejected "").
  intros (before & m & after & Heq & Hm).
  apply header_match_begins in Hm as [m' ->].
  destruct before; discriminate Heq.
Defined.

Lemma Contains_suffix m1 m2 q :
  strings.HasPrefix m2 q = true -> strings.Contains (m1 +:+ m2) q = true.
Proof.
  intros H. induction m1 as [|c m1 IH]; simpl.
  - destruct m2; simpl; by rewrite H.
  - rewrite IH. apply orb_true_r.
Qed.

(** A match of the header pattern holds the preamble. *)
Lemma header_match_preamble m :
  Lang releaseInfoRegex m -> exists a b, m = a +:+ preamble +:+ b.
Proof.
  unfold releaseInfoRegex. intros H.
  apply Lang_Cat_inv in H as (m1 & m2 & -> & _ & H).
  apply Lang_Cat_inv in H as (g1 & m3 & -> & _ & H).
  apply Lang_Cat_inv in H as (lit & m4 & -> & Hlit & _).
  apply Lang_Str_inv in Hlit as ->.
  exists (m1 +:+ g1), ("- OpenAPI Doc " +:+ m4).
  by rewrite !append_assoc.
Qed.

(** A ledger whose final block lacks the preamble is rejected. *)
Lemma lacking_preamble_rejected data :
  strings.Contains (last_release data) preamble = false ->
  ParseReleases data = (None, Some "error parsing last release info").
Proof.
  intros Hlacks. apply ParseReleases_no_header, FindStringSubmatch_none.
  intros (before & m & after & Heq & Hm).
  apply header_match_preamble in Hm as (a & b & ->).
  fold (last_release data) in Heq. rewrite Heq in Hlacks.
  rewrite !append_assoc, <- (append_assoc before a) in Hlacks.
  rewrite Contains_suffix in Hlacks; [done|]. apply HasPrefix_app.
Qed.

Example title_only_ledger_rejected :
  ParseReleases (nl +:+ nl +:+ "## v1.2.0" +:+ nl +:+ "- [Go v1.2.0] x - .")
  = (None, Some "error parsing last release info").
Proof. by apply lacking_preamble_rejected. Qed.

(** ** The search finds a match when the language has one *)

Section Completeness.
Context {R : Type}.
Implicit Types k : string -> list string -> option R.

Lemma greedy_accepts body k fuel s caps :
  is_Some (k s caps) -> is_Some (greedy body k fuel s caps).
Proof.
  intros Hk. destruct fuel as [|fuel]; simpl; [done|].
  by destruct (body s caps _).
Qed.

Lemma length_lt_app m1 rest :
  m1 <> "" -> (String.length rest <? String.length (m1 +:+ rest))%nat = true.
Proof.
  intros Hm1. apply Nat.ltb_lt. rewrite length_append.
  destruct m1; [done|]. simpl. lia.
Qed.

Lemma greedy_complete r
    (IH : forall m, Lang r m -> forall t caps k,
            accepts k t -> is_Some (exec r (m +:+ t) caps k))
    m :
  Lang (Star r) m ->
  forall fuel t caps k,
    (String.length m <= fuel)%nat -> accepts k t ->
    is_Some (greedy (exec r) k fuel (m +:+ t) caps).
Proof.
  intros Hm. remember (Star r) as sr eqn:Hsr.
  induction Hm as [| | | | |r'|r' m1 m2 Hm1 _ Hne Hm2 IHm2| | | | | |];
    try discriminate Hsr; injection Hsr as ->; intros fuel t caps k Hfuel Hk.
  - apply greedy_accepts, Hk.
  - rewrite length_append in Hfuel.
    destruct fuel as [|fuel]; [destruct m1; [done|simpl in Hfuel; lia]|].
    simpl. rewrite append_assoc.
    destruct (exec r (m1 +:+ m2 +:+ t) caps _) as [res|] eqn:Hbody; [done|].
    exfalso. eapply is_Some_None. rewrite <- Hbody.
    apply IH; [done|]. intros caps'. rewrite length_lt_app by done.
    apply IHm2; [done| |done].
    destruct m1; [done|]. simpl in Hfuel. lia.
Qed.

Lemma lazy_complete r
    (IH : forall m, Lang r m -> forall t caps k,
            accepts k t -> is_Some (exec r (m +:+ t) caps k))
    m :
  Lang (LazyStar r) m ->
  forall fuel t caps k,
    (String.length m <= fuel)%nat -> accepts k t ->
    is_Some (lazy (exec r) k fuel (m +:+ t) caps).
Proof.
  intros Hm. remember (LazyStar r) as sr eqn:Hsr.
  induction Hm as [| | | | | | |r'|r' m1 m2 Hm1 _ Hne Hm2 IHm2| | | |];
    try discriminate Hsr; injection Hsr as ->; intros fuel t caps k Hfuel Hk.
  - destruct fuel; simpl; destruct (Hk caps) as [res ->]; done.
  - rewrite length_append in Hfuel.
    destruct fuel as [|fuel]; [destruct m1; [done|simpl in Hfuel; lia]|].
    simpl. destruct (k _ caps); [done|]. rewrite append_assoc.
    apply IH; [done|]. intros caps'. rewrite length_lt_app by done.
    apply IHm2; [done| |done].
    destruct m1; [done|]. simpl in Hfuel. lia.
Qed.

Lemma exec_complete r m :
  Lang r m ->
  forall t caps k, accepts k t -> is_Some (exec r (m +:+ t) caps k).
Proof.
  revert m.
  induction r as [lit| | | |r1 IH1 r2 IH2|r IH|r IH|r IH|r IH|i r IH];
    intros m Hm t caps k Hk; inversion Hm; subst; simpl.
  - rewrite HasPrefix_app, drop_app. apply Hk.
  - match goal with H : _ <> LF |- _ => apply Ascii.eqb_neq in H; rewrite H end.
    apply Hk.
  - apply Hk.
  - match goal with H : is_digit _ = true |- _ => rewrite H end. apply Hk.
  - rewrite append_assoc. apply IH1; [done|]. intros caps'. by apply IH2.
  - apply greedy_accepts, Hk.
  - apply (greedy_complete r IH); [by constructor| |done].
    rewrite !length_append. lia.
  - destruct (String.length t); simpl; destruct (Hk caps) as [res ->]; done.
  - apply (lazy_complete r IH); [by constructor| |done].
    rewrite !length_append. lia.
  - rewrite append_assoc. apply IH; [done|]. intros caps'.
    apply (greedy_complete r IH); [done| |done]. rewrite length_append. lia.
  - destruct (exec r t caps k); [done|]. apply Hk.
  - destruct (exec r (m +:+ t) caps k) eqn:He; [done|].
    exfalso. eapply is_Some_None. rewrite <- He. by apply IH.
  - apply IH; [done|]. intros caps'. apply Hk.
Qed.

End Completeness.

Lemma match_here_complete r m t : Lang r m -> is_Some (match_here r (m +:+ t)).
Proof. intros Hm. unfold match_here. apply exec_complete; [done|]. by intros caps. Qed.

Lemma FindStringSubmatch_here r s matches :
  match_here r s = Some matches -> FindStringSubmatch r s = matches.
Proof. intros H. destruct s; simpl; by rewrite H. Qed.

Lemma FindStringSubmatch_complete r s :
  occurs r s -> length (FindStringSubmatch r s) = S (NumSubexp r).
Proof.
  intros (before & m & after & -> & Hm).
  induction before as [|c before IH]; simpl.
  - destruct (match_here_complete r m after Hm) as [matches H].
    rewrite (FindStringSubmatch_here _ _ _ H).
    by apply match_here_sound in H as [? _].
  - destruct (match_here r (String c (before +:+ m +:+ after))) as [matches|] eqn:H.
    + by apply match_here_sound in H as [? _].
    + apply IH.
Qed.

(** The pattern is found exactly when it occurs. *)
Lemma FindStringSubmatch_occurs r s :
  FindStringSubmatch r s <> [] <-> occurs r s.
Proof.
  split.
  - intros Hne. by destruct (FindStringSubmatch_sound r s) as [|[_ ?]].
  - intros Hoc Hnil. apply FindStringSubmatch_complete in Hoc.
    by rewrite Hnil in Hoc.
Qed.

(** A ledger whose last block holds a header is accepted. *)
Lemma well_formed_ledger_accepted data :
  occurs releaseInfoRegex (List.last (strings.Split data (nl +:+ nl)) "") ->
  exists info, ParseReleases data = (Some info, None).
Proof.
  intros Hoc. apply FindStringSubmatch_complete in Hoc.
  unfold ParseReleases. rewrite Hoc. simpl. by eexists.
Qed.

(** ** Characters of a text *)

Lemma every_app p a b :
  strings.every p (a +:+ b) = strings.every p a && strings.every p b.
Proof.
  induction a as [|c a IH]; simpl; [done|]. by rewrite IH, andb_assoc.
Qed.

Lemma every_weaken (p q : ascii -> bool) s :
  (forall c, p c = true -> q c = true) ->
  strings.every p s = true -> strings.every q s = true.
Proof.
  intros Hpq. induction s as [|c s IH]; simpl; [done|].
  intros H. apply andb_true_iff in H as [Hc Hs].
  by rewrite (Hpq c Hc), IH.
Qed.

Lemma Lang_digits_every d : Lang (Star Digit) d -> strings.every is_digit d = true.
Proof.
  intros H. remember (Star Digit) as r eqn:Hr.
  induction H as [| | | | | |r' m1 m2 Hm1 _ _ _ IH| | | | | |];
    try discriminate Hr; injection Hr as ->; [done|].
  inversion Hm1; subst. simpl. by rewrite IH, andb_true_r.
Qed.

Lemma every_digits_Lang d : strings.every is_digit d = true -> Lang (Star Digit) d.
Proof.
  induction d as [|c d IH]; simpl; [constructor|].
  intros H. apply andb_true_iff in H as [Hc Hd].
  apply (Lang_Star_cons Digit (String c "") d); [by constructor|done|by apply IH].
Qed.

(** A text of [\d+]: digits, at least one. *)
Lemma Lang_Plus_Digit d :
  Lang (Plus Digit) d <-> d <> "" /\ strings.every is_digit d = true.
Proof.
  split.
  - inversion 1 as [| | | | | | | | |r m1 m2 Hm1 Hm2| | |]; subst.
    inversion Hm1; subst. split; [done|]. simpl.
    by rewrite (Lang_digits_every _ Hm2), andb_true_r.
  - intros [Hne H]. destruct d as [|c d]; [done|]. simpl in H.
    apply andb_true_iff in H as [Hc Hd].
    apply (Lang_Plus Digit (String c "") d); [by constructor|by apply every_digits_Lang].
Qed.

(** A text of [\d+\.\d+\.\d+]. *)
Lemma Lang_semver3_inv v :
  Lang semver3 v ->
  exists d1 d2 d3,
    v = d1 +:+ "." +:+ d2 +:+ "." +:+ d3
    /\ Lang (Plus Digit) d1 /\ Lang (Plus Digit) d2 /\ Lang (Plus Digit) d3.
Proof.
  unfold semver3. intros H.
  apply Lang_Cat_inv in H as (d1 & m & -> & Hd1 & H).
  apply Lang_Cat_inv in H as (p1 & m' & -> & Hp1 & H).
  apply Lang_Cat_inv in H as (d2 & m & -> & Hd2 & H).
  apply Lang_Cat_inv in H as (p2 & d3 & -> & Hp2 & Hd3).
  apply Lang_Str_inv in Hp1 as ->. apply Lang_Str_inv in Hp2 as ->.
  by exists d1, d2, d3.
Qed.

Lemma Lang_semver3_every v :
  Lang semver3 v -> strings.every digit_or_dot v = true.
Proof.
  intros (d1 & d2 & d3 & -> & H1 & H2 & H3)%Lang_semver3_inv.
  apply Lang_Plus_Digit in H1 as [_ H1], H2 as [_ H2], H3 as [_ H3].
  assert (forall d, strings.every is_digit d = true ->
                    strings.every digit_or_dot d = true) as Hw.
  { intros d. apply every_weaken. intros c Hc. unfold digit_or_dot. by rewrite Hc. }
  rewrite !every_app. simpl. by rewrite !Hw.
Qed.

(** ** Steps of the search on a text of known shape *)

Section Steps.
Context {R : Type}.
Implicit Types k : string -> list string -> option R.

Lemma exec_Str lit t caps k : exec (Str lit) (lit +:+ t) caps k = k t caps.
Proof. simpl. by rewrite HasPrefix_app, drop_app. Qed.

Lemma exec_Str_mismatch lit s caps k :
  strings.HasPrefix s lit = false -> exec (Str lit) s caps k = None.
Proof. simpl. by intros ->. Qed.

Lemma greedy_digits d t caps k res fuel :
  strings.every is_digit d = true ->
  digit_ahead t = false ->
  (String.length d <= fuel)%nat ->
  k t caps = Some res ->
  greedy (exec Digit) k fuel (d +:+ t) caps = Some res.
Proof.
  revert fuel. induction d as [|c d IH]; intros fuel Hd Ht Hfuel Hk.
  - destruct fuel as [|fuel]; simpl; [done|].
    destruct t as [|c t]; simpl; [done|]. simpl in Ht. by rewrite Ht.
  - simpl in Hd. apply andb_true_iff in Hd as [Hc Hd].
    destruct fuel as [|fuel]; [simpl in Hfuel; lia|].
    simpl. rewrite Hc.
    assert ((String.length (d +:+ t) <? S (String.length (d +:+ t)))%nat = true)
      as -> by (apply Nat.ltb_lt; lia).
    rewrite IH; [done..| |done]. simpl in Hfuel. lia.
Qed.

Lemma exec_Plus_Digit d t caps k res :
  Lang (Plus Digit) d ->
  digit_ahead t = false ->
  k t caps = Some res ->
  exec (Plus Digit) (d +:+ t) caps k = Some res.
Proof.
  intros [Hne Hd]%Lang_Plus_Digit Ht Hk.
  destruct d as [|c d]; [done|]. simpl in Hd.
  apply andb_true_iff in Hd as [Hc Hd]. simpl. rewrite Hc.
  apply greedy_digits; try done. rewrite length_append. lia.
Qed.

Lemma exec_Str_intro lit t caps k res :
  k t caps = Some res -> exec (Str lit) (lit +:+ t) caps k = Some res.
Proof. by rewrite exec_Str. Qed.

Lemma exec_Cat_intro r1 r2 s caps k res :
  exec r1 s caps (fun s' caps' => exec r2 s' caps' k) = Some res ->
  exec (Cat r1 r2) s caps k = Some res.
Proof. done. Qed.

Lemma exec_Group_intro i r s caps k res :
  exec r s caps (fun s' caps' => k s' (<[i := consumed s s']> caps')) = Some res ->
  exec (Group i r) s caps k = Some res.
Proof. done. Qed.

Lemma exec_semver3 v t caps k res :
  Lang semver3 v ->
  digit_ahead t = false ->
  k t caps = Some res ->
  exec semver3 (v +:+ t) caps k = Some res.
Proof.
  intros (d1 & d2 & d3 & -> & H1 & H2 & H3)%Lang_semver3_inv Ht Hk.
  unfold semver3. rewrite !append_assoc.
  apply exec_Cat_intro, exec_Plus_Digit; [done..|]. cbv beta.
  apply exec_Cat_intro, exec_Str_intro. cbv beta.
  apply exec_Cat_intro, exec_Plus_Digit; [done..|]. cbv beta.
  apply exec_Cat_intro, exec_Str_intro. cbv beta.
  by apply exec_Plus_Digit.
Qed.

(** A non-greedy [.*?] stops at the first place where what follows
    succeeds. *)
Lemma lazy_dot m t caps k res fuel :
  one_line m ->
  (forall m1 m2, m = m1 +:+ m2 -> m2 <> "" -> k (m2 +:+ t) caps = None) ->
  (String.length m <= fuel)%nat ->
  k t caps = Some res ->
  lazy (exec Dot) k fuel (m +:+ t) caps = Some res.
Proof.
  unfold one_line. revert fuel. induction m as [|c m IH]; intros fuel Hm Hnone Hfuel Hk.
  - destruct fuel; simpl; by rewrite Hk.
  - simpl in Hm. apply andb_true_iff in Hm as [Hc Hm].
    apply negb_true_iff in Hc.
    destruct fuel as [|fuel]; [simpl in Hfuel; lia|].
    cbn [lazy]. rewrite (Hnone "" (String c m)) by done.
    simpl. rewrite Hc.
    assert ((String.length (m +:+ t) <? S (String.length (m +:+ t)))%nat = true)
      as -> by (apply Nat.ltb_lt; lia).
    apply IH; [done| |simpl in Hfuel; lia|done].
    intros m1 m2 -> Hne. by apply (Hnone (String c m1) m2).
Qed.

Lemma exec_LazyStar_Dot m t caps k res :
  one_line m ->
  (forall m1 m2, m = m1 +:+ m2 -> m2 <> "" -> k (m2 +:+ t) caps = None) ->
  k t caps = Some res ->
  exec (LazyStar Dot) (m +:+ t) caps k = Some res.
Proof.
  intros Hm Hnone Hk. simpl. apply lazy_dot; try done.
  rewrite length_append. lia.
Qed.

(** A greedy [.*] runs to the end of the line. *)
Lemma greedy_dot m t caps k res fuel :
  one_line m -> line_ends t ->
  (String.length m <= fuel)%nat ->
  k t caps = Some res ->
  greedy (exec Dot) k fuel (m +:+ t) caps = Some res.
Proof.
  unfold one_line. revert fuel. induction m as [|c m IH]; intros fuel Hm Ht Hfuel Hk.
  - destruct fuel as [|fuel]; simpl; [done|].
    destruct t as [|c t]; simpl; [done|]. simpl in Ht. subst c.
    by rewrite Ascii.eqb_refl.
  - simpl in Hm. apply andb_true_iff in Hm as [Hc Hm].
    apply negb_true_iff in Hc.
    destruct fuel as [|fuel]; [simpl in Hfuel; lia|].
    simpl. rewrite Hc.
    assert ((String.length (m +:+ t) <? S (String.length (m +:+ t)))%nat = true)
      as -> by (apply Nat.ltb_lt; lia).
    rewrite IH; [done..| |done]. simpl in Hfuel. lia.
Qed.

Lemma exec_Star_Dot m t caps k res :
  one_line m -> line_ends t ->
  k t caps = Some res ->
  exec (Star Dot) (m +:+ t) caps k = Some res.
Proof.
  intros Hm Ht Hk. simpl. apply greedy_dot; try done.
  rewrite length_append. lia.
Qed.

End Steps.

(** ** Cutting a text at a character *)

Lemma cut_at c a a' r r' :
  strings.every (is_not c) a = true ->
  strings.every (is_not c) a' = true ->
  a +:+ String c r = a' +:+ String c r' -> a = a' /\ r = r'.
Proof.
  unfold is_not.
  revert a'. induction a as [|x a IH]; intros [|x' a'] Ha Ha' Heq; simpl in *.
  - by simplify_eq.
  - simplify_eq. by rewrite Ascii.eqb_refl in Ha'.
  - simplify_eq. by rewrite Ascii.eqb_refl in Ha.
  - apply andb_true_iff in Ha as [_ Ha]. apply andb_true_iff in Ha' as [_ Ha'].
    simplify_eq. destruct (IH a' Ha Ha' ltac:(done)) as [-> ->]. done.
Qed.

Lemma append_eq_append a b c d :
  a +:+ b = c +:+ d ->
  (exists e, a = c +:+ e /\ d = e +:+ b) \/ (exists e, c = a +:+ e /\ b = e +:+ d).
Proof.
  revert c. induction a as [|x a IH]; intros c H; simpl in H.
  - right. by exists c.
  - destruct c as [|y c]; simpl in H.
    + left. by exists (String x a).
    + simplify_eq. destruct (IH c ltac:(done)) as [(e & -> & ->)|(e & -> & ->)].
      * left. by exists e.
      * right. by exists e.
Qed.

Lemma last_char_app a b : b <> "" -> strings.last_char (a +:+ b) = strings.last_char b.
Proof.
  intros Hb. induction a as [|x a IH]; simpl; [done|].
  rewrite IH. destruct (a +:+ b) eqn:E; [|done].
  destruct a; [by simpl in E|discriminate].
Qed.

Lemma every_last_char p s c :
  strings.every p s = true -> strings.last_char s = Some c -> p c = true.
Proof.
  induction s as [|x s IH]; simpl; [done|].
  intros H Hl. apply andb_true_iff in H as [Hx Hs].
  destruct s; [by simplify_eq|]. by apply IH.
Qed.

(** A package name cannot be cut short: what follows a proper prefix of
    it does not read as the separator and a version. *)
Lemma separator_overlap m2 sep ver D c :
  m2 <> "" ->
  m2 +:+ sep +:+ ver = sep +:+ D ->
  strings.every digit_or_dot D = true ->
  strings.last_char sep = Some c -> digit_or_dot c = false ->
  False.
Proof.
  intros Hm2 Heq HD Hlast Hc.
  assert (sep <> "") as Hsep by (by intros ->).
  rewrite <- append_assoc in Heq.
  apply append_eq_append in Heq as [(e & He & ->)|(e & He & _)].
  - rewrite every_app in HD. apply andb_true_iff in HD as [He' _].
    assert (e <> "") as Hne.
    { intros ->. rewrite append_nil_r in He.
      apply (f_equal String.length) in He. rewrite length_append in He.
      destruct m2; [done|]. simpl in He. lia. }
    assert (strings.last_char e = Some c) as Hle.
    { rewrite <- (last_char_app sep e Hne), <- He, last_char_app by done. done. }
    by rewrite (every_last_char _ _ _ He' Hle) in Hc.
  - apply (f_equal String.length) in He. rewrite !length_append in He.
    destruct m2; [done|]. simpl in He. lia.
Qed.

(** ** The release line of a package registry *)

Lemma word_one_line s : word s -> one_line s.
Proof.
  apply every_weaken. intros c Hc. by apply andb_true_iff in Hc as [-> _].
Qed.

Lemma word_no_space s : word s -> strings.every (is_not " ") s = true.
Proof.
  apply every_weaken. intros c Hc. unfold is_not.
  by apply andb_true_iff in Hc as [_ ?].
Qed.

Lemma semver3_no_space v : Lang semver3 v -> strings.every (is_not " ") v = true.
Proof.
  intros Hv. apply Lang_semver3_every in Hv. revert Hv.
  apply every_weaken. intros c. unfold digit_or_dot, is_not, is_digit.
  destruct (Ascii.eqb_spec c " ") as [->|]; [done|done].
Qed.

Lemma word_app a b : word a -> word b -> word (a +:+ b).
Proof. unfold word. intros Ha Hb. by rewrite every_app, Ha, Hb. Qed.

Lemma word_suffix a b : word (a +:+ b) -> word b.
Proof.
  unfold word. rewrite every_app. intros H. by apply andb_true_iff in H as [_ ?].
Qed.

Section Registry.
Variables (label prefix sep : string) (c : ascii).
Hypothesis sep_word : word sep.
Hypothesis sep_last : strings.last_char sep = Some c.
Hypothesis sep_mark : digit_or_dot c = false.

Lemma registry_match_here ver pkg path t :
  Lang semver3 ver -> word pkg -> one_line path -> line_ends t ->
  match_here (registry_regex label prefix sep)
    (registry_line label prefix sep ver pkg path +:+ t)
  = Some [registry_line label prefix sep ver pkg path;
          ver; prefix +:+ pkg +:+ sep +:+ ver; pkg; path].
Proof.
  intros Hver Hpkg Hpath Ht.
  unfold match_here, registry_regex, registry_line. rewrite !append_assoc.
  apply exec_Cat_intro, exec_Str_intro. cbv beta.
  apply exec_Cat_intro, exec_Group_intro, exec_semver3; [done|done|]. cbv beta.
  rewrite consumed_app.
  apply exec_Cat_intro, (exec_Str_intro "] "). cbv beta.
  apply exec_Cat_intro, exec_Group_intro, exec_Cat_intro, exec_Str_intro. cbv beta.
  apply exec_Cat_intro, exec_Group_intro, exec_LazyStar_Dot;
    [by apply word_one_line| |]; cbv beta.
  - intros m1 m2 -> Hm2.
    match goal with |- ?lhs = None => destruct lhs as [res|] eqn:E; [exfalso|done] end.
    apply exec_sound in E as (m & rest & caps' & Heq & Hm & _ & _ & E).
    apply exec_sound in E as (m' & rest' & caps'' & -> & Hm' & _ & _ & _).
    apply Lang_Cat_inv in Hm as (s1 & D & -> & Hs1 & HD).
    apply Lang_Str_inv in Hs1 as ->.
    apply Lang_Cat_inv in Hm' as (s2 & g4 & -> & Hs2 & _).
    apply Lang_Str_inv in Hs2 as ->.
    apply word_suffix in Hpkg.
    assert ((m2 +:+ sep +:+ ver) +:+ String " " ("- " +:+ path +:+ t)
            = (sep +:+ D) +:+ String " " ("- " +:+ g4 +:+ rest')) as Hcut.
    { rewrite !append_assoc. rewrite !append_assoc in Heq. exact Heq. }
    apply cut_at in Hcut as [Hcut _].
    + eapply separator_overlap; [exact Hm2|exact Hcut| |exact sep_last|exact sep_mark].
      by apply Lang_semver3_every.
    + rewrite !every_app, (word_no_space _ Hpkg), (word_no_space _ sep_word).
      by rewrite semver3_no_space.
    + rewrite every_app, (word_no_space _ sep_word). by rewrite semver3_no_space.
  - rewrite consumed_app.
    apply exec_Cat_intro, exec_Str_intro. cbv beta.
    apply exec_semver3; [done|done|]. cbv beta.
    apply exec_Cat_intro, (exec_Str_intro " - "). cbv beta.
    apply exec_Group_intro, exec_Star_Dot; [done|done|]. cbv beta.
    rewrite consumed_app.
    replace (prefix +:+ pkg +:+ sep +:+ ver +:+ " - " +:+ path +:+ t)
      with ((prefix +:+ pkg +:+ sep +:+ ver) +:+ " - " +:+ path +:+ t)
      by (by rewrite !append_assoc).
    rewrite consumed_app.
    replace (label +:+ ver +:+ "] " +:+ (prefix +:+ pkg +:+ sep +:+ ver)
             +:+ " - " +:+ path +:+ t)
      with ((label +:+ ver +:+ "] " +:+ prefix +:+ pkg +:+ sep +:+ ver
             +:+ " - " +:+ path) +:+ t)
      by (by rewrite !append_assoc).
    rewrite consumed_app. reflexivity.
Qed.

End Registry.

(** ** The last block of a ledger that ends with a written record *)

Lemma split_from_cons sep c s :
  strings.split_from sep 0 (String c s) =
  if strings.HasPrefix (String c s) sep
  then "" :: strings.split_from sep (String.length sep - 1) s
  else match strings.split_from sep 0 s with
       | piece :: rest => String c piece :: rest
       | [] => [String c ""]
       end.
Proof. done. Qed.

Lemma single_block_nil : single_block "".
Proof. done. Qed.

Lemma single_block_char c t :
  c <> LF -> single_block t -> single_block (String c t).
Proof.
  unfold single_block. intros Hc Ht. rewrite split_from_cons, Ht.
  apply Ascii.eqb_neq in Hc. unfold blank_line. simpl. by rewrite Hc.
Qed.

Lemma single_block_nl t :
  no_line_feed_ahead t -> single_block t -> single_block (nl +:+ t).
Proof.
  unfold single_block. intros Ha Ht.
  change (nl +:+ t) with (String LF t). rewrite split_from_cons, Ht.
  destruct t as [|c t]; [done|].
  simpl in Ha. apply Ascii.eqb_neq in Ha.
  unfold blank_line. simpl. by rewrite Ha.
Qed.

Lemma single_block_one_line f t :
  one_line f -> single_block t -> single_block (f +:+ t).
Proof.
  unfold one_line. induction f as [|c f IH]; simpl; [done|].
  intros H Ht. apply andb_true_iff in H as [Hc Hf].
  apply single_block_char; [|by apply IH].
  apply negb_true_iff in Hc. by apply Ascii.eqb_neq.
Qed.

Lemma one_line_ahead f t :
  one_line f -> no_line_feed_ahead t -> no_line_feed_ahead (f +:+ t).
Proof.
  unfold one_line. destruct f as [|c f]; simpl; [done|].
  intros H _. apply andb_true_iff in H as [Hc _].
  apply negb_true_iff in Hc. by apply Ascii.eqb_neq.
Qed.

Lemma last_cons {A} (x : A) l d : l <> [] -> List.last (x :: l) d = List.last l d.
Proof. by destruct l. Qed.

(** After any earlier content, the last block of the ledger is the
    appended block, preceded by a line feed when the earlier content
    ends in an odd run of line feeds. *)
Lemma last_block file b :
  single_block b -> no_line_feed_ahead b ->
  List.last (strings.Split (file +:+ nl +:+ nl +:+ b) blank_line) "" = b
  \/ List.last (strings.Split (file +:+ nl +:+ nl +:+ b) blank_line) "" = nl +:+ b.
Proof.
  intros Hb Ha. unfold strings.Split.
  pose proof (single_block_nl b Ha Hb) as Hnb.
  unfold single_block in Hb, Hnb.
  cut ((List.last (strings.split_from blank_line 0 (file +:+ nl +:+ nl +:+ b)) "" = b
        \/ List.last (strings.split_from blank_line 0 (file +:+ nl +:+ nl +:+ b)) ""
           = nl +:+ b)
       /\ (2 <= length (strings.split_from blank_line 0 (file +:+ nl +:+ nl +:+ b)))%nat
       /\ (List.last (strings.split_from blank_line 1 (file +:+ nl +:+ nl +:+ b)) "" = b
           \/ List.last (strings.split_from blank_line 1 (file +:+ nl +:+ nl +:+ b)) ""
              = nl +:+ b)).
  { by intros [? _]. }
  induction file as [|c file (IH0 & IHlen & IH1)].
  - split; [|split].
    + left. change (strings.split_from blank_line 0 ("" +:+ nl +:+ nl +:+ b))
        with ("" :: strings.split_from blank_line 0 b).
      by rewrite Hb.
    + change (strings.split_from blank_line 0 ("" +:+ nl +:+ nl +:+ b))
        with ("" :: strings.split_from blank_line 0 b).
      rewrite Hb. simpl. lia.
    + right. change (strings.split_from blank_line 1 ("" +:+ nl +:+ nl +:+ b))
        with (strings.split_from blank_line 0 (nl +:+ b)).
      by rewrite Hnb.
  - split; [|split]; [| |exact IH0].
    + change (strings.split_from blank_line 0 (String c file +:+ nl +:+ nl +:+ b))
        with (if strings.HasPrefix (String c (file +:+ nl +:+ nl +:+ b)) blank_line
              then "" :: strings.split_from blank_line 1 (file +:+ nl +:+ nl +:+ b)
              else match strings.split_from blank_line 0 (file +:+ nl +:+ nl +:+ b) with
                   | piece :: rest => String c piece :: rest
                   | [] => [String c ""]
                   end).
      destruct (strings.HasPrefix _ _).
      * rewrite last_cons by apply split_from_nonempty. exact IH1.
      * destruct (strings.split_from blank_line 0 (file +:+ nl +:+ nl +:+ b))
          as [|piece [|piece' rest]]; simpl in IHlen; [lia|lia|].
        exact IH0.
    + change (strings.split_from blank_line 0 (String c file +:+ nl +:+ nl +:+ b))
        with (if strings.HasPrefix (String c (file +:+ nl +:+ nl +:+ b)) blank_line
              then "" :: strings.split_from blank_line 1 (file +:+ nl +:+ nl +:+ b)
              else match strings.split_from blank_line 0 (file +:+ nl +:+ nl +:+ b) with
                   | piece :: rest => String c piece :: rest
                   | [] => [String c ""]
                   end).
      destruct (strings.HasPrefix _ _).
      * pose proof (split_from_nonempty blank_line 1 (file +:+ nl +:+ nl +:+ b)).
        destruct (strings.split_from blank_line 1 _); [done|]. simpl. lia.
      * destruct (strings.split_from blank_line 0 (file +:+ nl +:+ nl +:+ b))
          as [|piece [|piece' rest]]; simpl in *; lia.
Qed.

Lemma plain_one_line s : plain s -> one_line s.
Proof.
  apply every_weaken. intros c Hc. by apply andb_true_iff in Hc as [-> _].
Qed.

Lemma plain_no_bracket s : plain s -> strings.every (is_not "[") s = true.
Proof.
  apply every_weaken. intros c Hc. unfold is_not.
  by apply andb_true_iff in Hc as [_ ?].
Qed.

Lemma block_text_single r line :
  plain_header r -> one_line line -> single_block (block_text r line).
Proof.
  intros (HT & HDV & HDL & HSV) Hline. unfold block_text, header_text.
  rewrite !append_assoc.
  apply (single_block_one_line "## "); [done|].
  apply single_block_one_line; [by apply plain_one_line|].
  apply single_block_nl; [done|].
  apply (single_block_one_line "### Changes"); [done|].
  apply single_block_nl; [done|].
  apply (single_block_one_line "Based on:"); [done|].
  apply single_block_nl; [done|].
  apply (single_block_one_line "- OpenAPI Doc "); [done|].
  apply single_block_one_line; [by apply plain_one_line|].
  apply (single_block_one_line " "); [done|].
  apply single_block_one_line; [by apply plain_one_line|].
  apply single_block_nl; [done|].
  apply (single_block_one_line "- Speakeasy CLI "); [done|].
  apply single_block_one_line; [by apply plain_one_line|].
  apply (single_block_one_line " https://github.com/speakeasy-api/speakeasy"); [done|].
  apply single_block_nl; [done|].
  apply (single_block_one_line "### Releases"); [done|].
  rewrite <- (append_nil_r line).
  apply single_block_nl; [by apply one_line_ahead|].
  apply single_block_one_line; [done|]. apply single_block_nil.
Qed.

Lemma block_text_ahead r line : no_line_feed_ahead (block_text r line).
Proof. done. Qed.

(** ** The header of a written block is found *)

Lemma Lang_any_DotAll s : Lang (LazyStar DotAll) s.
Proof.
  induction s as [|c s IH]; [constructor|].
  apply (Lang_LazyStar_cons DotAll (String c "") s); [constructor|done|done].
Qed.

Lemma header_text_Lang r :
  Lang releaseInfoRegex (header_text r +:+ "").
Proof.
  unfold releaseInfoRegex, header_text.
  replace (("## " +:+ ReleaseTitle r +:+ nl +:+ "### Changes" +:+ nl +:+ "Based on:" +:+ nl
            +:+ "- OpenAPI Doc " +:+ DocVersion r +:+ " " +:+ DocLocation r +:+ nl
            +:+ "- Speakeasy CLI " +:+ SpeakeasyVersion r
            +:+ " https://github.com/speakeasy-api/speakeasy") +:+ "")
    with ("## " +:+ ReleaseTitle r
          +:+ (nl +:+ "### Changes" +:+ nl +:+ "Based on:" +:+ nl +:+ "- OpenAPI Doc ")
          +:+ DocVersion r +:+ " " +:+ DocLocation r
          +:+ (nl +:+ "- Speakeasy CLI ") +:+ SpeakeasyVersion r +:+ " "
          +:+ "https://github.com/speakeasy-api/speakeasy")
    by (rewrite !append_assoc, ?append_nil_r; reflexivity).
  repeat first
    [ apply Lang_Cat
    | apply Lang_Str
    | apply Lang_Group
    | apply Lang_any_DotAll ].
Qed.

Lemma header_occurs r before after :
  occurs releaseInfoRegex (before +:+ header_text r +:+ after).
Proof.
  exists before, (header_text r +:+ ""), after. split.
  - by rewrite append_nil_r.
  - apply header_text_Lang.
Qed.

(** ** Where a release line is found *)

Lemma FindStringSubmatch_skip r before s :
  (forall b1 b2, before = b1 +:+ b2 -> b2 <> "" -> match_here r (b2 +:+ s) = None) ->
  FindStringSubmatch r (before +:+ s) = FindStringSubmatch r s.
Proof.
  induction before as [|c before IH]; intros Hnone; [done|].
  change (FindStringSubmatch r (String c before +:+ s))
    with (match match_here r (String c before +:+ s) with
          | Some matches => matches
          | None => FindStringSubmatch r (before +:+ s)
          end).
  rewrite (Hnone "" (String c before)) by done.
  apply IH. intros b1 b2 -> Hb2. by apply (Hnone (String c b1) b2).
Qed.

Lemma match_here_label label r s :
  strings.HasPrefix s label = false -> match_here (Cat (Str label) r) s = None.
Proof. unfold match_here. simpl. by intros ->. Qed.

(** A label with a bracket in third place does not begin among texts
    without brackets. *)
Lemma label_not_earlier a b label b2 s :
  a <> "["%char -> b <> "["%char ->
  strings.every (is_not "[") b2 = true -> b2 <> "" ->
  strings.HasPrefix (b2 +:+ String a (String b s))
    (String a (String b (String "[" label))) = false.
Proof.
  intros Ha Hb Hb2 Hne. unfold is_not in Hb2.
  apply Ascii.eqb_neq in Ha, Hb.
  destruct b2 as [|x [|y [|z b2]]]; [done|..]; simpl in *.
  - by rewrite Hb, !andb_false_r.
  - by rewrite Ha, !andb_false_r.
  - apply andb_true_iff in Hb2 as [_ Hb2]. apply andb_true_iff in Hb2 as [_ Hb2].
    apply andb_true_iff in Hb2 as [Hz _]. apply negb_true_iff in Hz.
    by rewrite Hz, !andb_false_r.
Qed.

Lemma header_no_bracket r :
  plain_header r ->
  strings.every (is_not "[") (header_text r +:+ nl +:+ "### Releases" +:+ nl) = true.
Proof.
  intros (HT & HDV & HDL & HSV). unfold header_text.
  rewrite !every_app.
  rewrite (plain_no_bracket _ HT), (plain_no_bracket _ HDV),
    (plain_no_bracket _ HDL), (plain_no_bracket _ HSV).
  reflexivity.
Qed.

(** In a block with one release line, a pattern that begins with the
    label of that line is first matched at the line. *)
Lemma FindStringSubmatch_at_line r before rest label line :
  plain_header r ->
  strings.every (is_not "[") before = true ->
  FindStringSubmatch (Cat (Str (String "-" (String " " (String "[" label)))) rest)
    (before +:+ block_text r (String "-" (String " " line)))
  = FindStringSubmatch (Cat (Str (String "-" (String " " (String "[" label)))) rest)
      (String "-" (String " " line)).
Proof.
  intros Hr Hbefore. unfold block_text.
  replace (before +:+ header_text r +:+ nl +:+ "### Releases" +:+ nl
           +:+ String "-" (String " " line))
    with ((before +:+ header_text r +:+ nl +:+ "### Releases" +:+ nl)
          +:+ String "-" (String " " line))
    by (by rewrite !append_assoc).
  apply FindStringSubmatch_skip. intros b1 b2 Hb Hb2.
  apply match_here_label, label_not_earlier; [done|done| |done].
  assert (strings.every (is_not "[") (b1 +:+ b2) = true) as H.
  { rewrite <- Hb, every_app, Hbefore. by apply header_no_bracket. }
  rewrite every_app in H. by apply andb_true_iff in H as [_ ?].
Qed.

Section RegistryBlock.
Variables (label prefix sep : string) (c : ascii).
Hypothesis sep_word : word sep.
Hypothesis sep_last : strings.last_char sep = Some c.
Hypothesis sep_mark : digit_or_dot c = false.

(** In a block with the one release line of a registry, the pattern of
    that registry captures the version, the URL, the package name and
    the path that were written. *)
Lemma registry_found r before ver pkg path :
  plain_header r ->
  strings.every (is_not "[") before = true ->
  Lang semver3 ver -> word pkg -> one_line path ->
  FindStringSubmatch (registry_regex (bracket_label label) prefix sep)
    (before +:+ block_text r (registry_line (bracket_label label) prefix sep ver pkg path))
  = [registry_line (bracket_label label) prefix sep ver pkg path;
     ver; prefix +:+ pkg +:+ sep +:+ ver; pkg; path].
Proof.
  intros Hr Hbefore Hver Hpkg Hpath.
  etransitivity.
  { exact (FindStringSubmatch_at_line r before _ label
             (String "[" (label +:+ ver +:+ "] " +:+ prefix +:+ pkg +:+ sep +:+ ver
                          +:+ " - " +:+ path))
             Hr Hbefore). }
  apply FindStringSubmatch_here.
  pose proof (registry_match_here (bracket_label label) prefix sep c sep_word sep_last sep_mark
                ver pkg path "" Hver Hpkg Hpath I) as H.
  rewrite append_nil_r in H. exact H.
Qed.

End RegistryBlock.

(** ** What [ParseReleases] returns for each language *)

Lemma lookup_if_insert_ne {V} (b : bool) (k k' : string) (v : V) (m : gmap string V) :
  k <> k' -> (if b then <[k := v]> m else m) !! k' = m !! k'.
Proof. intros Hk. destruct b; [by apply lookup_insert_ne | done]. Qed.

Section Parsed.
Variable data : string.
Hypothesis header : occurs releaseInfoRegex (last_release data).

Lemma parsed_typescript matches :
  FindStringSubmatch npmReleaseRegex (last_release data) = matches -> length matches = 5%nat ->
  parsed_entry data "typescript" = Some (entry_of matches).
Proof.
  intros Hm Hlen. unfold parsed_entry, ParseReleases. fold (last_release data).
  rewrite (FindStringSubmatch_complete _ _ header), Hm, Hlen. cbn [NumSubexp releaseInfoRegex].
  simpl Nat.eqb. cbv iota. cbn [negb Languages].
  rewrite !lookup_if_insert_ne by done. by rewrite lookup_insert_eq.
Qed.

Lemma parsed_python matches :
  FindStringSubmatch pypiReleaseRegex (last_release data) = matches -> length matches = 5%nat ->
  parsed_entry data "python" = Some (entry_of matches).
Proof.
  intros Hm Hlen. unfold parsed_entry, ParseReleases. fold (last_release data).
  rewrite (FindStringSubmatch_complete _ _ header), Hm, Hlen. cbn [NumSubexp releaseInfoRegex].
  simpl Nat.eqb. cbv iota. cbn [negb Languages].
  rewrite !lookup_if_insert_ne by done. by rewrite lookup_insert_eq.
Qed.

Lemma parsed_php matches :
  FindStringSubmatch composerReleaseRegex (last_release data) = matches -> length matches = 5%nat ->
  parsed_entry data "php" = Some (entry_of matches).
Proof.
  intros Hm Hlen. unfold parsed_entry, ParseReleases. fold (last_release data).
  rewrite (FindStringSubmatch_complete _ _ header), Hm, Hlen. cbn [NumSubexp releaseInfoRegex].
  simpl Nat.eqb. cbv iota. cbn [negb Languages].
  by rewrite lookup_insert_eq.
Qed.

Lemma parsed_go matches :
  FindStringSubmatch goReleaseRegex (last_release data) = matches -> length matches = 5%nat ->
  parsed_entry data "go"
  = Some {| Version := at_ matches 1;
            URL := at_ matches 2;
            PackageName :=
              if negb (at_ matches 4 =? ".")%string
              then at_ matches 3 +:+ "/" +:+ strings.TrimPrefix (at_ matches 4) "./"
              else at_ matches 3;
            Path := at_ matches 4 |}.
Proof.
  intros Hm Hlen. unfold parsed_entry, ParseReleases. fold (last_release data).
  rewrite (FindStringSubmatch_complete _ _ header), Hm, Hlen. cbn [NumSubexp releaseInfoRegex].
  simpl Nat.eqb. cbv iota. cbn [negb Languages].
  rewrite !lookup_if_insert_ne by done. by rewrite lookup_insert_eq.
Qed.

End Parsed.

(** ** The release line of Go *)

Section GoSteps.
Context {R : Type}.
Implicit Types k : string -> list string -> option R.

Lemma exec_Dot_intro c t caps k res :
  c <> LF -> k t caps = Some res -> exec Dot (String c t) caps k = Some res.
Proof. intros Hc Hk. simpl. apply Ascii.eqb_neq in Hc. by rewrite Hc. Qed.

Lemma exec_Opt_take r s caps k res :
  exec r s caps k = Some res -> exec (Opt r) s caps k = Some res.
Proof. simpl. by intros ->. Qed.

Lemma exec_Opt_skip r s caps k res :
  exec r s caps k = None -> k s caps = Some res -> exec (Opt r) s caps k = Some res.
Proof. simpl. by intros ->. Qed.

End GoSteps.

(** A text that goes on with [/releases/tag/] reads [/releases/tag/] from
    its own start only if it begins with [/releases/tag]. *)
Lemma releases_tag_overlap m2 z :
  m2 <> "" ->
  strings.HasPrefix (m2 +:+ "/releases/tag/" +:+ z) "/releases/tag/" = true ->
  strings.HasPrefix m2 "/releases/tag" = true.
Proof.
  intros Hne H. apply HasPrefix_split in H.
  set (w := strings.drop _ _) in H. clearbody w.
  apply append_eq_append in H as [(e & -> & _)|(e & He & Hz)].
  - reflexivity.
  - repeat (destruct m2 as [|? m2]; simplify_eq/=; try done).
Qed.

Lemma Lang_Opt_Str_inv lit m : Lang (Opt (Str lit)) m -> m = "" \/ m = lit.
Proof.
  inversion 1; subst; [by left|right].
  by match goal with H : Lang (Str _) _ |- _ => apply Lang_Str_inv in H end.
Qed.

Lemma go_match_here repo ver path t :
  Lang semver3 ver ->
  one_line repo -> strings.Contains repo "/releases/tag" = false ->
  word path -> line_ends t ->
  match_here goReleaseRegex (go_line repo ver path +:+ t)
  = Some [go_line repo ver path; ver;
          "https://github.com/" +:+ repo +:+ "/releases/tag/" +:+ go_tag ver path;
          "github.com/" +:+ repo; path].
Proof.
  intros Hver Hrepo Hcontains Hpath Ht.
  unfold match_here, goReleaseRegex, go_line.
  rewrite !append_assoc.
  apply exec_Cat_intro, exec_Str_intro. cbv beta.
  apply exec_Cat_intro, exec_Group_intro, exec_semver3; [done|done|]. cbv beta.
  rewrite consumed_app.
  change ("] https://github.com/" +:+ repo +:+ "/releases/tag/" +:+ go_tag ver path
          +:+ " - " +:+ path +:+ t)
    with ("] " +:+ "https://" +:+ "github" +:+ String "." ("com/" +:+ repo
          +:+ "/releases/tag/" +:+ go_tag ver path +:+ " - " +:+ path +:+ t)).
  apply exec_Cat_intro, exec_Str_intro. cbv beta.
  apply exec_Cat_intro, exec_Group_intro, exec_Cat_intro, exec_Str_intro. cbv beta.
  apply exec_Cat_intro, exec_Group_intro, exec_Cat_intro, exec_Str_intro. cbv beta.
  apply exec_Cat_intro, exec_Dot_intro; [done|]. cbv beta.
  apply exec_Cat_intro, exec_Str_intro. cbv beta.
  apply exec_LazyStar_Dot; [done| |]; cbv beta.
  { intros m1 m2 -> Hm2. apply exec_Str_mismatch.
    destruct (strings.HasPrefix _ _) eqn:E; [|done].
    apply releases_tag_overlap in E; [|done].
    by rewrite (Contains_suffix m1 m2 _ E) in Hcontains. }
  change ("github" +:+ String "." ("com/" +:+ repo +:+ "/releases/tag/" +:+ go_tag ver path
                                    +:+ " - " +:+ path +:+ t))
    with ("github.com/" +:+ repo +:+ "/releases/tag/" +:+ go_tag ver path
          +:+ " - " +:+ path +:+ t).
  replace ("github.com/" +:+ repo +:+ "/releases/tag/" +:+ go_tag ver path
           +:+ " - " +:+ path +:+ t)
    with (("github.com/" +:+ repo) +:+ "/releases/tag/" +:+ go_tag ver path
          +:+ " - " +:+ path +:+ t)
    by (by rewrite !append_assoc).
  rewrite consumed_app.
  apply exec_Cat_intro, exec_Str_intro. cbv beta.
  assert (forall (k : string -> list string -> option (list string)) caps res,
            (forall rest caps' res', k rest caps' = Some res' ->
                                     exists g, rest = " - " +:+ g) ->
            k (" - " +:+ path +:+ t) caps = Some res ->
            exec (Cat (LazyStar Dot) (Cat (Opt (Str "/")) (Cat (Str "v") semver3)))
              (go_tag ver path +:+ " - " +:+ path +:+ t) caps k = Some res) as Htag.
  { intros k caps res Hshape Hk. unfold go_tag.
    destruct (String.eqb_spec path ".") as [->|Hdot]; cbn [negb].
    - rewrite !append_assoc.
      apply exec_Cat_intro,
        (exec_LazyStar_Dot "" ("v" +:+ ver +:+ " - " +:+ "." +:+ t)); [done| |]; cbv beta.
      { intros m1 m2 Hm Hm2. by destruct m1, m2. }
      apply exec_Cat_intro, exec_Opt_skip; [by apply exec_Str_mismatch|]. cbv beta.
      apply exec_Cat_intro, exec_Str_intro. cbv beta.
      by apply exec_semver3.
    - rewrite !append_assoc.
      apply exec_Cat_intro, exec_LazyStar_Dot; [by apply word_one_line| |]; cbv beta.
      + intros m1 m2 Hsplit Hm2.
        match goal with |- ?lhs = None => destruct lhs as [res'|] eqn:E; [exfalso|done] end.
        apply exec_sound in E as (m & rest & caps' & Heq & Hm & _ & _ & E).
        apply Hshape in E as [g ->].
        apply Lang_Cat_inv in Hm as (o & m' & -> & Ho & Hm).
        apply Lang_Cat_inv in Hm as (v' & D & -> & Hv & HD).
        apply Lang_Str_inv in Hv as ->.
        assert (word m2) as Hm2w by (rewrite Hsplit in Hpath; by apply word_suffix in Hpath).
        pose proof (Lang_semver3_every _ HD) as HDd.
        assert ((m2 +:+ "/v" +:+ ver) +:+ String " " ("- " +:+ path +:+ t)
                = (o +:+ "v" +:+ D) +:+ String " " ("- " +:+ g)) as Hcut.
        { rewrite !append_assoc. rewrite !append_assoc in Heq. exact Heq. }
        apply Lang_Opt_Str_inv in Ho as [->| ->].
        * apply cut_at in Hcut as [Hcut _].
          -- destruct m2 as [|x m2]; [done|]. simpl in Hcut. simplify_eq.
             rewrite every_app in HDd. by apply andb_true_iff in HDd as [_ HDd].
          -- rewrite !every_app, (word_no_space _ Hm2w).
             by rewrite (semver3_no_space ver).
          -- rewrite !every_app. by rewrite (semver3_no_space D).
        * apply cut_at in Hcut as [Hcut _].
          -- exact (separator_overlap m2 "/v" ver D "v" Hm2 Hcut HDd eq_refl eq_refl).
          -- rewrite !every_app, (word_no_space _ Hm2w).
             by rewrite (semver3_no_space ver).
          -- rewrite !every_app. by rewrite (semver3_no_space D).
      + apply exec_Cat_intro, exec_Opt_take,
          (exec_Str_intro "/" ("v" +:+ ver +:+ " - " +:+ path +:+ t)). cbv beta.
        apply exec_Cat_intro, exec_Str_intro. cbv beta.
        by apply exec_semver3. }
  apply Htag; cbv beta.
  { intros rest caps' res' E.
    apply exec_sound in E as (m & rest' & caps'' & -> & Hm & _ & _ & _).
    apply Lang_Cat_inv in Hm as (s1 & g & -> & Hs1 & _).
    apply Lang_Str_inv in Hs1 as ->. rewrite append_assoc. by eexists. }
  apply exec_Cat_intro, (exec_Str_intro " - "). cbv beta.
  apply exec_Group_intro, exec_Star_Dot; [by apply word_one_line|done|]. cbv beta.
  rewrite consumed_app.
  replace ("https://" +:+ ("github.com/" +:+ repo) +:+ "/releases/tag/" +:+ go_tag ver path
           +:+ " - " +:+ path +:+ t)
    with (("https://github.com/" +:+ repo +:+ "/releases/tag/" +:+ go_tag ver path)
          +:+ " - " +:+ path +:+ t)
    by (by rewrite !append_assoc).
  rewrite consumed_app.
  replace ("- [Go v" +:+ ver +:+ "] " +:+
           ("https://github.com/" +:+ repo +:+ "/releases/tag/" +:+ go_tag ver path)
           +:+ " - " +:+ path +:+ t)
    with (("- [Go v" +:+ ver +:+ "] https://github.com/" +:+ repo +:+ "/releases/tag/"
           +:+ go_tag ver path +:+ " - " +:+ path) +:+ t)
    by (by rewrite !append_assoc).
  rewrite consumed_app. reflexivity.
Qed.

(** ** A written record, read back *)

Lemma one_line_app a b : one_line a -> one_line b -> one_line (a +:+ b).
Proof. unfold one_line. intros Ha Hb. by rewrite every_app, Ha, Hb. Qed.

Lemma semver3_one_line v : Lang semver3 v -> one_line v.
Proof.
  intros Hv. apply Lang_semver3_every in Hv. revert Hv.
  apply every_weaken. intros c. unfold digit_or_dot, is_digit.
  destruct (Ascii.eqb_spec c LF) as [->|]; [done|done].
Qed.

(** The text [ReleasesInfo.String] yields when the map is visited in
    [order] and the visit leaves the one release line [line]. *)
Lemma String_in_one_line env r order line :
  fold_left (release_line env) order [] = [line] ->
  String_in env r order = nl +:+ nl +:+ block_text r line.
Proof.
  intros Hline. unfold String_in, block_text, header_text. rewrite Hline.
  cbn [length Nat.ltb Nat.leb strings.Join]. by rewrite !append_assoc.
Qed.

Lemma last_written_block env file r order line :
  fold_left (release_line env) order [] = [line] ->
  plain_header r -> one_line line ->
  exists before,
    strings.every (is_not "[") before = true
    /\ List.last (strings.Split (UpdateReleasesFile env file r order) (nl +:+ nl)) ""
       = before +:+ block_text r line.
Proof.
  intros Hline Hr Hone. unfold UpdateReleasesFile.
  rewrite (String_in_one_line _ _ _ _ Hline).
  destruct (last_block (default "" file) (block_text r line)) as [H|H].
  - by apply block_text_single.
  - apply block_text_ahead.
  - exists "". split; [done|]. exact H.
  - exists nl. split; [done|]. exact H.
Qed.

Lemma written_header_occurs r before line :
  occurs releaseInfoRegex (before +:+ block_text r line).
Proof. unfold block_text. apply header_occurs. Qed.

Lemma visits_singleton r lang info order :
  Languages r = {[ lang := info ]} -> visits r order -> order = [(lang, info)].
Proof.
  unfold visits. intros ->. rewrite map_to_list_singleton.
  apply Permutation_singleton_r.
Qed.

Lemma written_line_typescript env info :
  fold_left (release_line env) [("typescript", info)] []
  = [registry_line "- [NPM v" "https://www.npmjs.com/package/" "/v/"
       (Version info) (PackageName info) (Path info)].
Proof. unfold registry_line. cbn. by rewrite !append_assoc. Qed.

Lemma written_line_python env info :
  fold_left (release_line env) [("python", info)] []
  = [registry_line "- [PyPI v" "https://pypi.org/project/" "/"
       (Version info) (PackageName info) (Path info)].
Proof. unfold registry_line. cbn. by rewrite !append_assoc. Qed.

Lemma written_line_php env info :
  fold_left (release_line env) [("php", info)] []
  = [registry_line "- [Composer v" "https://packagist.org/packages/" "#v"
       (Version info) (PackageName info) (Path info)].
Proof. unfold registry_line. cbn. by rewrite !append_assoc. Qed.

Lemma written_line_go env info :
  fold_left (release_line env) [("go", info)] []
  = [go_line (Getenv env "GITHUB_REPOSITORY") (Version info) (Path info)].
Proof.
  unfold go_line, go_tag. cbn.
  destruct (negb (Path info =? ".")%string);
    repeat (rewrite ?append_assoc; cbn); reflexivity.
Qed.

Section ReadBack.
Variables (env : gmap string string) (file : option string) (r : ReleasesInfo).
Variables (info : LanguageReleaseInfo).
Hypothesis header : plain_header r.
Hypothesis version : Lang semver3 (Version info).

Lemma registry_line_one_line label prefix sep :
  one_line label -> one_line prefix -> one_line sep ->
  word (PackageName info) -> one_line (Path info) ->
  one_line (registry_line label prefix sep (Version info) (PackageName info) (Path info)).
Proof.
  intros Hl Hp Hs Hpkg Hpath. unfold registry_line.
  repeat (apply one_line_app; try done).
  all: first [by apply semver3_one_line | by apply word_one_line].
Qed.

Lemma read_back_typescript :
  word (PackageName info) -> one_line (Path info) ->
  parsed_entry (UpdateReleasesFile env file r [("typescript", info)]) "typescript"
  = Some (read_back env "typescript" info).
Proof.
  intros Hpkg Hpath.
  destruct (last_written_block env file r [("typescript", info)]
              (registry_line "- [NPM v" "https://www.npmjs.com/package/" "/v/"
                 (Version info) (PackageName info) (Path info)))
    as (before & Hbefore & Hlast);
    [apply written_line_typescript|done|by apply registry_line_one_line|].
  rewrite (parsed_typescript _ ltac:(unfold last_release; rewrite Hlast; apply written_header_occurs)
             [registry_line "- [NPM v" "https://www.npmjs.com/package/" "/v/"
                (Version info) (PackageName info) (Path info);
              Version info;
              "https://www.npmjs.com/package/" +:+ PackageName info +:+ "/v/" +:+ Version info;
              PackageName info; Path info]); [reflexivity| |reflexivity].
  unfold last_release. rewrite Hlast.
  exact (registry_found "NPM v" "https://www.npmjs.com/package/" "/v/" "/"
           eq_refl eq_refl eq_refl r before _ _ _ header Hbefore version Hpkg Hpath).
Qed.

Lemma read_back_python :
  word (PackageName info) -> one_line (Path info) ->
  parsed_entry (UpdateReleasesFile env file r [("python", info)]) "python"
  = Some (read_back env "python" info).
Proof.
  intros Hpkg Hpath.
  destruct (last_written_block env file r [("python", info)]
              (registry_line "- [PyPI v" "https://pypi.org/project/" "/"
                 (Version info) (PackageName info) (Path info)))
    as (before & Hbefore & Hlast);
    [apply written_line_python|done|by apply registry_line_one_line|].
  rewrite (parsed_python _ ltac:(unfold last_release; rewrite Hlast; apply written_header_occurs)
             [registry_line "- [PyPI v" "https://pypi.org/project/" "/"
                (Version info) (PackageName info) (Path info);
              Version info;
              "https://pypi.org/project/" +:+ PackageName info +:+ "/" +:+ Version info;
              PackageName info; Path info]); [reflexivity| |reflexivity].
  unfold last_release. rewrite Hlast.
  exact (registry_found "PyPI v" "https://pypi.org/project/" "/" "/"
           eq_refl eq_refl eq_refl r before _ _ _ header Hbefore version Hpkg Hpath).
Qed.

Lemma read_back_php :
  word (PackageName info) -> one_line (Path info) ->
  parsed_entry (UpdateReleasesFile env file r [("php", info)]) "php"
  = Some (read_back env "php" info).
Proof.
  intros Hpkg Hpath.
  destruct (last_written_block env file r [("php", info)]
              (registry_line "- [Composer v" "https://packagist.org/packages/" "#v"
                 (Version info) (PackageName info) (Path info)))
    as (before & Hbefore & Hlast);
    [apply written_line_php|done|by apply registry_line_one_line|].
  rewrite (parsed_php _ ltac:(unfold last_release; rewrite Hlast; apply written_header_occurs)
             [registry_line "- [Composer v" "https://packagist.org/packages/" "#v"
                (Version info) (PackageName info) (Path info);
              Version info;
              "https://packagist.org/packages/" +:+ PackageName info +:+ "#v" +:+ Version info;
              PackageName info; Path info]); [reflexivity| |reflexivity].
  unfold last_release. rewrite Hlast.
  exact (registry_found "Composer v" "https://packagist.org/packages/" "#v" "v"
           eq_refl eq_refl eq_refl r before _ _ _ header Hbefore version Hpkg Hpath).
Qed.

End ReadBack.

Lemma go_found r before repo ver path :
  plain_header r ->
  strings.every (is_not "[") before = true ->
  Lang semver3 ver ->
  one_line repo -> strings.Contains repo "/releases/tag" = false -> word path ->
  FindStringSubmatch goReleaseRegex (before +:+ block_text r (go_line repo ver path))
  = [go_line repo ver path; ver;
     "https://github.com/" +:+ repo +:+ "/releases/tag/" +:+ go_tag ver path;
     "github.com/" +:+ repo; path].
Proof.
  intros Hr Hbefore Hver Hrepo Hcontains Hpath.
  etransitivity.
  { exact (FindStringSubmatch_at_line r before _ "Go v"
             (String "[" ("Go v" +:+ ver +:+ "] https://github.com/" +:+ repo
                          +:+ "/releases/tag/" +:+ go_tag ver path +:+ " - " +:+ path))
             Hr Hbefore). }
  apply FindStringSubmatch_here.
  pose proof (go_match_here repo ver path "" Hver Hrepo Hcontains Hpath I) as H.
  rewrite append_nil_r in H. exact H.
Qed.

Lemma go_line_one_line repo ver path :
  Lang semver3 ver -> one_line repo -> word path -> one_line (go_line repo ver path).
Proof.
  intros Hver Hrepo Hpath. unfold go_line, go_tag.
  pose proof (semver3_one_line _ Hver). pose proof (word_one_line _ Hpath).
  destruct (negb _); repeat (apply one_line_app; try done).
Qed.

Lemma read_back_go env file r info :
  plain_header r -> Lang semver3 (Version info) ->
  one_line (Getenv env "GITHUB_REPOSITORY") ->
  strings.Contains (Getenv env "GITHUB_REPOSITORY") "/releases/tag" = false ->
  word (Path info) ->
  parsed_entry (UpdateReleasesFile env file r [("go", info)]) "go"
  = Some (read_back env "go" info).
Proof.
  intros header version Hrepo Hcontains Hpath.
  destruct (last_written_block env file r [("go", info)]
              (go_line (Getenv env "GITHUB_REPOSITORY") (Version info) (Path info)))
    as (before & Hbefore & Hlast);
    [apply written_line_go|done|by apply go_line_one_line|].
  rewrite (parsed_go _ ltac:(unfold last_release; rewrite Hlast; apply written_header_occurs)
             [go_line (Getenv env "GITHUB_REPOSITORY") (Version info) (Path info);
              Version info;
              "https://github.com/" +:+ Getenv env "GITHUB_REPOSITORY" +:+ "/releases/tag/"
                +:+ go_tag (Version info) (Path info);
              "github.com/" +:+ Getenv env "GITHUB_REPOSITORY"; Path info]);
    [|unfold last_release; rewrite Hlast; by apply go_found|reflexivity].
  unfold read_back. cbn [String.eqb Ascii.eqb Bool.eqb at_ nth].
  by rewrite append_assoc.
Qed.

(** C1, amended. A record that holds one supported language, written by
    [ReleasesInfo.String] behind any earlier content of the ledger, is
    read back by [ParseReleases] with an entry for that language that
    reproduces the written version and path. For typescript, python and
    php it reproduces the written package name as well; for Go the
    package name read back is [github.com/] followed by the value of
    [GITHUB_REPOSITORY] (and by [/] and the path, its leading [./]
    removed, when the path is not [.]), whatever package name the writer
    held. This holds for header fields without line feed or opening
    bracket, a version of the form [\d+\.\d+\.\d+], a package name (for
    Go, a repository without the text [/releases/tag]) and a path on one
    line, the package name and, for Go, the path without a space. *)
Theorem ledger_round_trip
    (env : gmap string string) (file : option string)
    (r : ReleasesInfo) (lang : string) (info : LanguageReleaseInfo)
    (order : list (string * LanguageReleaseInfo)) :
  supported lang ->
  Languages r = {[ lang := info ]} ->
  visits r order ->
  plain_header r ->
  writable env lang info ->
  exists entry,
    parsed_entry (UpdateReleasesFile env file r order) lang = Some entry
    /\ Version entry = Version info
    /\ Path entry = Path info
    /\ PackageName entry =
       if (lang =? "go")%string then
         if negb (Path info =? ".")%string
         then "github.com/" +:+ Getenv env "GITHUB_REPOSITORY" +:+ "/"
              +:+ strings.TrimPrefix (Path info) "./"
         else "github.com/" +:+ Getenv env "GITHUB_REPOSITORY"
       else PackageName info.
Proof.
  intros Hlang Hr Hvisits Hheader [Hver Hw].
  rewrite (visits_singleton r lang info order Hr Hvisits).
  exists (read_back env lang info).
  destruct Hlang as [->|[->|[->| ->]]]; simpl in Hw.
  - destruct Hw as (Hrepo & Hcontains & Hpath).
    split; [by apply read_back_go|done].
  - destruct Hw as (Hpkg & Hpath). split; [by apply read_back_typescript|done].
  - destruct Hw as (Hpkg & Hpath). split; [by apply read_back_python|done].
  - destruct Hw as (Hpkg & Hpath). split; [by apply read_back_php|done].
Qed.

Lemma Lang_semver3_intro d1 d2 d3 :
  Lang (Plus Digit) d1 -> Lang (Plus Digit) d2 -> Lang (Plus Digit) d3 ->
  Lang semver3 (d1 +:+ "." +:+ d2 +:+ "." +:+ d3).
Proof.
  intros H1 H2 H3. unfold semver3.
  repeat first [apply Lang_Cat | apply Lang_Str | done].
Qed.

Lemma example_version : Lang semver3 "1.2.0".
Proof.
  apply (Lang_semver3_intro "1" "2" "0"); apply Lang_Plus_Digit; by split.
Defined.

Lemma ledger_round_trip_witness :
  exists entry,
    parsed_entry
      (UpdateReleasesFile example_env None (example_record "go" "org/repo")
         (map_to_list (Languages (example_record "go" "org/repo")))) "go" = Some entry
    /\ Version entry = "1.2.0"
    /\ Path entry = "."
    /\ PackageName entry = "github.com/org/repo".
Proof.
  apply (ledger_round_trip example_env None (example_record "go" "org/repo") "go"
           {| PackageName := "org/repo"; Path := "."; Version := "1.2.0"; URL := "" |}).
  - by left.
  - reflexivity.
  - unfold visits. reflexivity.
  - by repeat split.
  - split; [exact example_version|]. by repeat split.
Defined.

(** ** The Go release line *)

(** C10 fails on the code: the dot of [github.com] in the Go pattern is
    not escaped, so a release line whose host is [github-com] is matched
    and yields a package name that does not begin with [github.com/]. *)
Theorem go_package_name_unescaped_dot :
  parsed_entry
    (example_ledger "- [Go v1.2.0] https://github-com/org/repo/releases/tag/v1.2.0 - .")
    "go"
  = Some {| PackageName := "github-com/org/repo";
            Path := ".";
            Version := "1.2.0";
            URL := "https://github-com/org/repo/releases/tag/v1.2.0" |}
  /\ strings.HasPrefix "github-com/org/repo" "github.com/" = false.
Proof. split; vm_compute; reflexivity. Qed.

(** The sibling patterns escape their dots: the same forgery of the host
    is not matched by the NPM pattern. *)
Example npm_host_dot_escaped :
  parsed_entry
    (example_ledger "- [NPM v1.2.0] https://www.npmjs-com/package/pkg/v/1.2.0 - .")
    "typescript" = None
  /\ parsed_entry
       (example_ledger "- [NPM v1.2.0] https://www.npmjs.com/package/pkg/v/1.2.0 - .")
       "typescript"
     = Some {| PackageName := "pkg"; Path := "."; Version := "1.2.0";
               URL := "https://www.npmjs.com/package/pkg/v/1.2.0" |}.
Proof. split; vm_compute; reflexivity. Qed.

(** ** What the Go pattern guarantees of the package name *)

(** A submatch recorded by a group outlives the rest of the search,
    which writes other groups only. *)
Lemma exec_keeps {R} r i s caps (k : string -> list string -> option R) res :
  i ∉ Groups r ->
  exec r s caps k = Some res ->
  exists rest caps', caps' !! i = caps !! i /\ length caps' = length caps
                     /\ k rest caps' = Some res.
Proof.
  intros Hi H.
  apply exec_sound in H as (m & rest & caps' & _ & _ & Hlen & Hframe & H).
  exists rest, caps'. auto.
Qed.

(** The texts of the third group of the Go pattern. *)
Lemma go_host_shape m :
  Lang (Cat (Str "github") (Cat Dot (Cat (Str "com/") (LazyStar Dot)))) m ->
  exists c rest, c <> LF /\ m = "github" +:+ String c ("com/" +:+ rest).
Proof.
  intros H.
  inversion H as [| | | |? ? m1 m2 H1 H2| | | | | | | |]; subst.
  inversion H1; subst.
  inversion H2 as [| | | |? ? m3 m4 H3 H4| | | | | | | |]; subst.
  inversion H3 as [|c Hc| | | | | | | | | | |]; subst.
  inversion H4 as [| | | |? ? m5 m6 H5 H6| | | | | | | |]; subst.
  inversion H5; subst.
  by exists c, m6.
Qed.

(** The search through a concatenation, one factor at a time. *)
Lemma exec_Cat_sound {R} r1 r2 s caps (k : string -> list string -> option R) res :
  exec (Cat r1 r2) s caps k = Some res ->
  exists rest caps', length caps' = length caps /\ exec r2 rest caps' k = Some res.
Proof.
  simpl. intros H.
  apply exec_sound in H as (m & rest & caps' & _ & _ & Hlen & _ & H).
  by exists rest, caps'.
Qed.

Lemma go_match_here_shape s matches :
  match_here goReleaseRegex s = Some matches ->
  exists c rest, c <> LF /\ at_ matches 3 = "github" +:+ String c ("com/" +:+ rest).
Proof.
  unfold match_here, goReleaseRegex.
  set (caps0 := replicate _ _). intros H.
  assert (Hlen0 : length caps0 = 5%nat) by done. clearbody caps0.
  apply exec_Cat_sound in H as (s1 & caps1 & Hlen1 & H).
  apply exec_Cat_sound in H as (s2 & caps2 & Hlen2 & H).
  apply exec_Cat_sound in H as (s3 & caps3 & Hlen3 & H).
  change (exec (Cat (Group 2 ?r) ?tl) ?s ?caps ?k)
    with (exec r s caps (fun s' caps' => exec tl s' (<[2%nat := consumed s s']> caps') k)) in H.
  apply exec_Cat_sound in H as (s4 & caps4 & Hlen4 & H).
  change (exec (Cat (Group 3 ?r) ?tl) ?s ?caps ?k)
    with (exec (Group 3 r) s caps (fun s' caps' => exec tl s' caps' k)) in H.
  apply exec_Group_sound in H as (m & s5 & caps5 & _ & Hm & Hlen5 & H).
  apply (exec_keeps _ 3%nat) in H as (s6 & caps6 & Hkeep6 & Hlen6 & H);
    [|by apply not_elem_of_nil].
  apply (exec_keeps _ 3%nat) in H as (s7 & caps7 & Hkeep7 & Hlen7 & H);
    [|vm_compute; intros Hin; apply list_elem_of_In in Hin; simpl in Hin; lia].
  simplify_eq.
  assert (Hthird : caps7 !! 3%nat = Some m).
  { rewrite Hkeep7, list_lookup_insert_ne, Hkeep6 by done.
    apply list_lookup_insert_eq. lia. }
  apply go_host_shape in Hm as (c & rest & Hc & ->).
  exists c, rest. split; [done|]. unfold at_.
  apply (nth_lookup_Some _ _ "").
  by rewrite list_lookup_insert_ne by done.
Qed.

(** What [FindStringSubmatch] returns was found at the head of some
    text. *)
Lemma FindStringSubmatch_match_here r s :
  FindStringSubmatch r s <> [] ->
  exists t, match_here r t = Some (FindStringSubmatch r s).
Proof.
  induction s as [|c s IH]; simpl.
  - destruct (match_here r "") as [matches|] eqn:H; [|done]. by exists "".
  - destruct (match_here r (String c s)) as [matches|] eqn:H; [|done].
    by exists (String c s).
Qed.

(** The package name of every Go entry that [ParseReleases] returns
    begins with [github], one character that is not a line feed, and
    [com/]: the host is only matched up to that character. *)
Lemma go_package_name_shape data info entry :
  ParseReleases data = (Some info, None) ->
  Languages info !! "go" = Some entry ->
  exists c rest,
    c <> LF /\ PackageName entry = "github" +:+ String c ("com/" +:+ rest).
Proof.
  unfold ParseReleases. cbv zeta.
  generalize (List.last (strings.Split data (nl +:+ nl)) ""). intros lastRelease.
  destruct (negb _); [done|]. intros [= <-]. cbn [Languages].
  intros Hgo.
  assert (Hentry : (length (FindStringSubmatch goReleaseRegex lastRelease) =? 5)%nat = true
                   /\ PackageName entry
                      = (if negb (at_ (FindStringSubmatch goReleaseRegex lastRelease) 4 =? ".")%string
                         then at_ (FindStringSubmatch goReleaseRegex lastRelease) 3 +:+ "/"
                              +:+ strings.TrimPrefix
                                    (at_ (FindStringSubmatch goReleaseRegex lastRelease) 4) "./"
                         else at_ (FindStringSubmatch goReleaseRegex lastRelease) 3)).
  { destruct (length (FindStringSubmatch composerReleaseRegex _) =? 5)%nat;
      [rewrite lookup_insert_ne in Hgo by done|];
      (destruct (length (FindStringSubmatch goReleaseRegex _) =? 5)%nat;
       [rewrite lookup_insert_eq in Hgo; by simplify_eq|]);
      (destruct (length (FindStringSubmatch pypiReleaseRegex _) =? 5)%nat;
       [rewrite lookup_insert_ne in Hgo by done|]);
      (destruct (length (FindStringSubmatch npmReleaseRegex _) =? 5)%nat;
       [rewrite lookup_insert_ne in Hgo by done|]); by rewrite lookup_empty in Hgo. }
  destruct Hentry as [Hfive ->].
  destruct (FindStringSubmatch_match_here goReleaseRegex lastRelease) as [t Ht].
  { intros Hnil. by rewrite Hnil in Hfive. }
  apply go_match_here_shape in Ht as (c & rest & Hc & ->).
  destruct (negb _); [|by exists c, rest].
  eexists c, _. split; [done|]. simpl. reflexivity.
Qed.

(** ** Round trip of the example record *)

Example example_record_text :
  UpdateReleasesFile example_env None (example_record "go" "org/repo")
    (map_to_list (Languages (example_record "go" "org/repo")))
  = example_ledger "- [Go v1.2.0] https://github.com/org/repo/releases/tag/v1.2.0 - .".
Proof. vm_compute. reflexivity. Qed.

(** C1 as stated fails: written with package name [org/repo] while
    [GITHUB_REPOSITORY] is [org/repo], the Go entry parses back with
    version [1.2.0] and path [.], but with the package name
    [github.com/org/repo]. *)
Lemma go_package_name_not_reproduced :
  parsed_entry
    (UpdateReleasesFile example_env None (example_record "go" "org/repo")
       (map_to_list (Languages (example_record "go" "org/repo"))))
    "go"
  = Some {| PackageName := "github.com/org/repo";
            Path := ".";
            Version := "1.2.0";
            URL := "https://github.com/org/repo/releases/tag/v1.2.0" |}
  /\ "github.com/org/repo" <> "org/repo".
Proof. split; [vm_compute; reflexivity | discriminate]. Qed.

(** * Further properties of the release ledger *)

(** ** What [ParseReleases] reads *)

(** A text that splits into one piece has no separator. *)
Lemma split_from_whole sep s p : strings.split_from sep 0 s = [p] -> p = s.
Proof.
  revert p. induction s as [|c s IH]; intros p.
  - simpl. by intros [= <-].
  - rewrite split_from_cons. destruct (strings.HasPrefix _ _).
    + intros [= <- E]. by apply split_from_nonempty in E.
    + destruct (strings.split_from sep 0 s) as [|piece rest] eqn:E.
      * by apply split_from_nonempty in E.
      * intros [= <- ->]. by rewrite (IH piece).
Qed.

(** The last piece of a split holds no separator. *)
Lemma last_piece_whole sep skip s :
  strings.split_from sep 0 (List.last (strings.split_from sep skip s) "")
  = [List.last (strings.split_from sep skip s) ""].
Proof.
  revert skip. induction s as [|c s IH]; intros skip.
  - by destruct skip.
  - destruct skip as [|n].
    + rewrite split_from_cons. destruct (strings.HasPrefix (String c s) sep) eqn:Hp.
      * rewrite last_cons by apply split_from_nonempty. apply IH.
      * destruct (strings.split_from sep 0 s) as [|piece [|piece' rest]] eqn:E.
        -- by apply split_from_nonempty in E.
        -- pose proof (split_from_whole _ _ _ E) as ->. simpl List.last.
           rewrite split_from_cons, Hp.
           by rewrite E.
        -- specialize (IH 0%nat). rewrite E in IH.
           change (List.last (String c piece :: piece' :: rest) "")
             with (List.last (piece :: piece' :: rest) ""). exact IH.
    + apply (IH n).
Qed.

Lemma ParseReleases_last_block_of data :
  ParseReleases data = ParseReleases (List.last (strings.Split data blank_line) "").
Proof.
  unfold ParseReleases, strings.Split, blank_line.
  rewrite (last_piece_whole (nl +:+ nl) 0 data). reflexivity.
Qed.

(** X6. [ParseReleases] reads the last block only: the ledger and its
    last blank-line-separated block alone are parsed into the same
    record, or rejected with the same error. *)
Theorem ParseReleases_last_block (data : string) :
  ParseReleases data = ParseReleases (List.last (strings.Split data (nl +:+ nl)) "").
Proof.
  unfold ParseReleases, strings.Split.
  rewrite (last_piece_whole (nl +:+ nl) 0 data).
  reflexivity.
Qed.

(** X7. [ParseReleases] returns a record, and a nil error with it,
    exactly when the header pattern matches somewhere in the last block;
    release lines are not required, nor looked at, for that. *)
Theorem accepted_iff_header_occurs (data : string) :
  (exists info, ParseReleases data = (Some info, None))
  <-> occurs releaseInfoRegex (List.last (strings.Split data (nl +:+ nl)) "").
Proof.
  split; [|apply well_formed_ledger_accepted].
  intros [info H]. apply FindStringSubmatch_occurs. intros Hnil.
  by rewrite (ParseReleases_no_header _ Hnil) in H.
Qed.

(** X8. The record [ParseReleases] returns has entries for no other
    languages than go, typescript, python and php. *)
Theorem parsed_languages_supported (data : string) (info : ReleasesInfo) (lang : string) :
  ParseReleases data = (Some info, None) ->
  is_Some (Languages info !! lang) ->
  supported lang.
Proof.
  unfold ParseReleases. cbv zeta. destruct (negb _); [done|].
  intros [= <-]. cbn [Languages]. unfold supported.
  destruct (String.eqb_spec lang "go") as [->|Hgo]; [tauto|].
  destruct (String.eqb_spec lang "typescript") as [->|Hts]; [tauto|].
  destruct (String.eqb_spec lang "python") as [->|Hpy]; [tauto|].
  destruct (String.eqb_spec lang "php") as [->|Hphp]; [tauto|].
  intros [entry Hentry]. exfalso. revert Hentry.
  repeat case_match; rewrite ?lookup_insert_ne by done; by rewrite lookup_empty.
Qed.

Lemma parsed_languages_supported_witness :
  exists info,
    ParseReleases
      (example_ledger "- [Go v1.2.0] https://github.com/org/repo/releases/tag/v1.2.0 - .")
    = (Some info, None)
    /\ is_Some (Languages info !! "go")
    /\ supported "go".
Proof.
  eexists. split; [vm_compute; reflexivity|].
  split; [vm_compute; by eexists|].
  eapply (parsed_languages_supported
            (example_ledger "- [Go v1.2.0] https://github.com/org/repo/releases/tag/v1.2.0 - .")
            _ "go").
  - vm_compute. reflexivity.
  - vm_compute. by eexists.
Defined.

(** ** The shape of what is read *)

Section Frames.
Context {R : Type}.
Implicit Types (k : string -> list string -> option R) (res : R).

(** The submatches as a factor of a concatenation leaves them. *)
Lemma exec_Cat_frame r1 r2 s caps k res :
  exec (Cat r1 r2) s caps k = Some res ->
  exists rest caps',
    length caps' = length caps
    /\ (forall i, i ∉ Groups r1 -> caps' !! i = caps !! i)
    /\ exec r2 rest caps' k = Some res.
Proof.
  simpl. intros H.
  apply exec_sound in H as (m & rest & caps' & _ & _ & Hlen & Hframe & H).
  by exists rest, caps'.
Qed.

(** The submatches as a capturing group leaves them. *)
Lemma exec_Group_frame i r s caps k res :
  exec (Group i r) s caps k = Some res ->
  exists m rest caps',
    Lang r m /\ length caps' = length caps
    /\ (forall j, j ∉ Groups r -> caps' !! j = caps !! j)
    /\ k rest (<[i := m]> caps') = Some res.
Proof.
  simpl. intros H.
  apply exec_sound in H as (m & rest & caps' & -> & Hm & Hlen & Hframe & H).
  rewrite consumed_app in H. by exists m, rest, caps'.
Qed.

End Frames.

Lemma Lang_Star_Dot_one_line m : Lang (Star Dot) m -> one_line m.
Proof.
  intros H. remember (Star Dot) as r eqn:Hr.
  induction H as [| | | | |r0|r0 m1 m2 H1 _ Hne H2 IH2| | | | | |]; try discriminate Hr.
  - done.
  - injection Hr as ->. inversion H1 as [|c Hc| | | | | | | | | | |]; subst.
    unfold one_line. simpl. apply Ascii.eqb_neq in Hc. rewrite Hc. simpl.
    by apply IH2.
Qed.

(** What a match of the pattern of a release line captures. *)
Lemma line_pattern_shape label url s matches :
  (1%nat ∉ Groups url) -> NumSubexp url = 1%nat ->
  match_here (line_pattern label url) s = Some matches ->
  Lang semver3 (at_ matches 1) /\ Lang url (at_ matches 2) /\ one_line (at_ matches 4).
Proof.
  intros Hurl Hone. unfold match_here, line_pattern.
  set (caps0 := replicate _ _). intros H.
  assert (Hlen0 : (5 <= length caps0)%nat).
  { subst caps0. rewrite length_replicate. simpl. lia. }
  clearbody caps0.
  apply exec_Cat_frame in H as (s1 & caps1 & Hlen1 & _ & H).
  change (exec (Cat (Group 1 ?r) ?tl) ?s ?caps ?k)
    with (exec (Group 1 r) s caps (fun s' caps' => exec tl s' caps' k)) in H.
  apply exec_Group_frame in H as (m1 & s2 & caps2 & Hm1 & Hlen2 & _ & H).
  apply exec_Cat_frame in H as (s3 & caps3 & Hlen3 & Hframe3 & H).
  change (exec (Cat (Group 2 ?r) ?tl) ?s ?caps ?k)
    with (exec (Group 2 r) s caps (fun s' caps' => exec tl s' caps' k)) in H.
  apply exec_Group_frame in H as (m2 & s4 & caps4 & Hm2 & Hlen4 & Hframe4 & H).
  apply exec_Cat_frame in H as (s5 & caps5 & Hlen5 & Hframe5 & H).
  apply exec_Group_frame in H as (m4 & s6 & caps6 & Hm4 & Hlen6 & Hframe6 & H).
  simplify_eq. unfold at_. rewrite ?length_insert in *.
  assert (Hfirst : caps4 !! 1%nat = Some m1).
  { rewrite Hframe4 by done. rewrite Hframe3 by apply not_elem_of_nil.
    apply list_lookup_insert_eq. lia. }
  split; [|split].
  - rewrite (nth_lookup_Some _ _ "" m1); [done|].
    rewrite list_lookup_insert_ne, list_lookup_insert_ne by done.
    rewrite Hframe6 by apply not_elem_of_nil.
    rewrite Hframe5 by apply not_elem_of_nil.
    by rewrite list_lookup_insert_ne by done.
  - rewrite (nth_lookup_Some _ _ "" m2); [done|].
    rewrite list_lookup_insert_ne, list_lookup_insert_ne by done.
    rewrite Hframe6 by apply not_elem_of_nil.
    rewrite Hframe5 by apply not_elem_of_nil.
    apply list_lookup_insert_eq. lia.
  - rewrite (nth_lookup_Some _ _ "" m4); [by apply Lang_Star_Dot_one_line|].
    rewrite list_lookup_insert_ne by done.
    apply list_lookup_insert_eq. lia.
Qed.

Lemma url_prefix lit r u :
  strings.HasPrefix lit "https://" = true ->
  Lang (Cat (Str lit) r) u -> strings.HasPrefix u "https://" = true.
Proof.
  intros Hlit H. apply Lang_Cat_inv in H as (m1 & m2 & -> & H1 & _).
  apply Lang_Str_inv in H1 as ->.
  apply HasPrefix_split in Hlit. rewrite Hlit, append_assoc. apply HasPrefix_app.
Qed.

Lemma lookup_if_insert_Some {V} (b : bool) (k k' : string) (v e : V) (m : gmap string V) :
  (if b then <[k := v]> m else m) !! k' = Some e ->
  (b = true /\ k' = k /\ e = v) \/ m !! k' = Some e.
Proof.
  destruct b; [|by right].
  intros [[<- <-]|[_ H]]%lookup_insert_Some; [by left|by right].
Qed.

Lemma five_nonempty (l : list string) : (length l =? 5)%nat = true -> l <> [].
Proof. by destruct l. Qed.

(** Every entry of the record [ParseReleases] returns comes from a match
    of one of the four patterns in the last block. *)
Lemma parsed_entry_matches data info lang entry :
  ParseReleases data = (Some info, None) ->
  Languages info !! lang = Some entry ->
  exists label lit r matches,
    (1%nat ∉ Groups (Cat (Str lit) r)) /\ NumSubexp (Cat (Str lit) r) = 1%nat
    /\ strings.HasPrefix lit "https://" = true
    /\ FindStringSubmatch (line_pattern label (Cat (Str lit) r)) (last_release data) = matches
    /\ matches <> []
    /\ Version entry = at_ matches 1 /\ URL entry = at_ matches 2
    /\ Path entry = at_ matches 4.
Proof.
  unfold ParseReleases. cbv zeta. fold (last_release data).
  generalize (last_release data). intros lastRelease.
  destruct (negb _); [done|]. intros [= <-]. cbn [Languages].
  intros Hentry.
  assert (1%nat ∉ [3%nat]) as Hthree.
  { intros Hin. apply list_elem_of_In in Hin. simpl in Hin. lia. }
  apply lookup_if_insert_Some in Hentry as [(Hfive & _ & ->)|Hentry].
  { exists "- [Composer v", "https://packagist.org/packages/",
      (Cat (Group 3 (LazyStar Dot)) (Cat (Str "#v") semver3)).
    eexists.
    split; [done|]. split; [done|]. split; [done|]. split; [reflexivity|].
    split; [by apply five_nonempty|done]. }
  apply lookup_if_insert_Some in Hentry as [(Hfive & _ & ->)|Hentry].
  { exists "- [Go v", "https://",
      (Cat (Group 3 (Cat (Str "github") (Cat Dot (Cat (Str "com/") (LazyStar Dot)))))
         (Cat (Str "/releases/tag/")
            (Cat (LazyStar Dot) (Cat (Opt (Str "/")) (Cat (Str "v") semver3))))).
    eexists.
    split; [done|]. split; [done|]. split; [done|]. split; [reflexivity|].
    split; [by apply five_nonempty|done]. }
  apply lookup_if_insert_Some in Hentry as [(Hfive & _ & ->)|Hentry].
  { exists "- [PyPI v", "https://pypi.org/project/",
      (Cat (Group 3 (LazyStar Dot)) (Cat (Str "/") semver3)).
    eexists.
    split; [done|]. split; [done|]. split; [done|]. split; [reflexivity|].
    split; [by apply five_nonempty|done]. }
  apply lookup_if_insert_Some in Hentry as [(Hfive & _ & ->)|Hentry].
  { exists "- [NPM v", "https://www.npmjs.com/package/",
      (Cat (Group 3 (LazyStar Dot)) (Cat (Str "/v/") semver3)).
    eexists.
    split; [done|]. split; [done|]. split; [done|]. split; [reflexivity|].
    split; [by apply five_nonempty|done]. }
  by rewrite lookup_empty in Hentry.
Qed.

(** X9. Whatever the ledger holds, every entry of the record
    [ParseReleases] returns has a version of the form
    digits.digits.digits, a path without a line feed, and a URL that
    begins with [https://]. *)
Theorem parsed_entry_shape
    (data : string) (info : ReleasesInfo) (lang : string) (entry : LanguageReleaseInfo) :
  ParseReleases data = (Some info, None) ->
  Languages info !! lang = Some entry ->
  Lang semver3 (Version entry)
  /\ one_line (Path entry)
  /\ strings.HasPrefix (URL entry) "https://" = true.
Proof.
  intros Hparse Hentry.
  destruct (parsed_entry_matches _ _ _ _ Hparse Hentry)
    as (label & lit & r & matches & Hgroups & Hnum & Hlit & Hfind & Hne & -> & -> & ->).
  destruct (FindStringSubmatch_match_here (line_pattern label (Cat (Str lit) r))
              (last_release data)) as [t Ht]; [by rewrite Hfind|].
  rewrite Hfind in Ht.
  apply line_pattern_shape in Ht as (Hver & Hurl & Hpath); [|done|done].
  split; [done|]. split; [done|]. by eapply url_prefix.
Qed.

Lemma parsed_entry_shape_witness :
  Lang semver3 "1.2.0" /\ one_line "." /\
  strings.HasPrefix "https://github.com/org/repo/releases/tag/v1.2.0" "https://" = true.
Proof.
  apply (parsed_entry_shape
           (example_ledger "- [Go v1.2.0] https://github.com/org/repo/releases/tag/v1.2.0 - .")
           {| ReleaseTitle := "v1.2.0"; DocVersion := "1.0.0"; DocLocation := "spec.yaml";
              SpeakeasyVersion := "1.20.0";
              Languages :=
                {[ "go" := {| PackageName := "github.com/org/repo"; Path := ".";
                              Version := "1.2.0";
                              URL := "https://github.com/org/repo/releases/tag/v1.2.0" |} ]} |}
           "go"
           {| PackageName := "github.com/org/repo"; Path := "."; Version := "1.2.0";
              URL := "https://github.com/org/repo/releases/tag/v1.2.0" |}).
  - vm_compute. reflexivity.
  - vm_compute. reflexivity.
Defined.

(** ** The header of a written block, read back *)

Section HeaderSteps.
Context {R : Type}.
Implicit Types k : string -> list string -> option R.

(** A non-greedy [.*?] under the flag [s] stops at the first place where
    what follows succeeds. *)
Lemma lazy_dotall m t caps k res fuel :
  (forall m1 m2, m = m1 +:+ m2 -> m2 <> "" -> k (m2 +:+ t) caps = None) ->
  (String.length m <= fuel)%nat ->
  k t caps = Some res ->
  lazy (exec DotAll) k fuel (m +:+ t) caps = Some res.
Proof.
  revert fuel. induction m as [|c m IH]; intros fuel Hnone Hfuel Hk.
  - destruct fuel; simpl; by rewrite Hk.
  - destruct fuel as [|fuel]; [simpl in Hfuel; lia|].
    cbn [lazy]. rewrite (Hnone "" (String c m)) by done.
    simpl.
    assert ((String.length (m +:+ t) <? S (String.length (m +:+ t)))%nat = true)
      as -> by (apply Nat.ltb_lt; lia).
    apply IH; [|simpl in Hfuel; lia|done].
    intros m1 m2 -> Hne. by apply (Hnone (String c m1) m2).
Qed.

Lemma exec_LazyStar_DotAll m t caps k res :
  (forall m1 m2, m = m1 +:+ m2 -> m2 <> "" -> k (m2 +:+ t) caps = None) ->
  k t caps = Some res ->
  exec (LazyStar DotAll) (m +:+ t) caps k = Some res.
Proof.
  intros Hnone Hk. simpl. apply lazy_dotall; try done.
  rewrite length_append. lia.
Qed.

(** A literal that begins with [c] is not read where a text without [c]
    goes on. *)
Lemma exec_Str_ahead c lit r m1 m2 t caps k :
  strings.every (is_not c) (m1 +:+ m2) = true -> m2 <> "" ->
  exec (Cat (Str (String c lit)) r) (m2 +:+ t) caps k = None.
Proof.
  intros Hm Hne. rewrite every_app in Hm. apply andb_true_iff in Hm as [_ Hm].
  destruct m2 as [|x m2]; [done|]. simpl in Hm. apply andb_true_iff in Hm as [Hx _].
  unfold is_not in Hx. apply negb_true_iff in Hx.
  simpl. by rewrite Hx.
Qed.

End HeaderSteps.

Lemma one_line_no_nl s : one_line s -> strings.every (is_not LF) s = true.
Proof. unfold one_line, is_not. done. Qed.

(** The header pattern, matched where a written header begins, captures
    the four fields that were written. *)
Lemma header_match_here r t :
  one_line (ReleaseTitle r) -> word (DocVersion r) ->
  one_line (DocLocation r) -> word (SpeakeasyVersion r) ->
  match_here releaseInfoRegex (header_text r +:+ t)
  = Some ["## " +:+ ReleaseTitle r +:+ preamble +:+ "- OpenAPI Doc " +:+ DocVersion r
          +:+ " " +:+ DocLocation r +:+ nl +:+ "- Speakeasy CLI " +:+ SpeakeasyVersion r
          +:+ " ";
          ReleaseTitle r; DocVersion r; DocLocation r; SpeakeasyVersion r].
Proof.
  intros HT HDV HDL HSV.
  unfold match_here, releaseInfoRegex, header_text.
  rewrite !append_assoc.
  apply exec_Cat_intro, exec_Str_intro. cbv beta.
  apply exec_Cat_intro, exec_Group_intro, exec_LazyStar_DotAll; cbv beta.
  { intros m1 m2 Hm Hm2. apply (exec_Str_ahead LF _ _ m1); [|done].
    rewrite <- Hm. by apply one_line_no_nl. }
  rewrite consumed_app.
  change (nl +:+ "### Changes" +:+ nl +:+ "Based on:" +:+ nl +:+ "- OpenAPI Doc "
          +:+ DocVersion r +:+ " " +:+ DocLocation r +:+ nl +:+ "- Speakeasy CLI "
          +:+ SpeakeasyVersion r +:+ " https://github.com/speakeasy-api/speakeasy" +:+ t)
    with ((nl +:+ "### Changes" +:+ nl +:+ "Based on:" +:+ nl +:+ "- OpenAPI Doc ")
          +:+ DocVersion r +:+ " " +:+ DocLocation r +:+ nl +:+ "- Speakeasy CLI "
          +:+ SpeakeasyVersion r +:+ " https://github.com/speakeasy-api/speakeasy" +:+ t).
  apply exec_Cat_intro, exec_Str_intro. cbv beta.
  apply exec_Cat_intro, exec_Group_intro, exec_LazyStar_DotAll; cbv beta.
  { intros m1 m2 Hm Hm2. apply (exec_Str_ahead " " _ _ m1); [|done].
    rewrite <- Hm. by apply word_no_space. }
  rewrite consumed_app.
  apply exec_Cat_intro, (exec_Str_intro " "). cbv beta.
  apply exec_Cat_intro, exec_Group_intro, exec_LazyStar_DotAll; cbv beta.
  { intros m1 m2 Hm Hm2. apply (exec_Str_ahead LF _ _ m1); [|done].
    rewrite <- Hm. by apply one_line_no_nl. }
  rewrite consumed_app.
  change (nl +:+ "- Speakeasy CLI " +:+ SpeakeasyVersion r
          +:+ " https://github.com/speakeasy-api/speakeasy" +:+ t)
    with ((nl +:+ "- Speakeasy CLI ") +:+ SpeakeasyVersion r
          +:+ " " +:+ "https://github.com/speakeasy-api/speakeasy" +:+ t).
  apply exec_Cat_intro, exec_Str_intro. cbv beta.
  apply exec_Cat_intro, exec_Group_intro, exec_LazyStar_DotAll; cbv beta.
  { intros m1 m2 Hm Hm2. apply (exec_Str_ahead " " _ _ m1); [|done].
    rewrite <- Hm. by apply word_no_space. }
  rewrite consumed_app.
  apply exec_Cat_intro, (exec_Str_intro " "). cbv beta.
  apply (exec_LazyStar_DotAll ""); [by intros [|] [|]|].
  match goal with |- context [consumed ?a ?b] =>
    replace a with (("## " +:+ ReleaseTitle r +:+ preamble +:+ "- OpenAPI Doc "
                     +:+ DocVersion r +:+ " " +:+ DocLocation r +:+ nl
                     +:+ "- Speakeasy CLI " +:+ SpeakeasyVersion r +:+ " ") +:+ b)
      by (unfold preamble; rewrite !append_assoc; reflexivity)
  end.
  rewrite consumed_app. reflexivity.
Qed.

(** ** The block [ReleasesInfo.String] writes *)

Lemma release_line_of env acc entry :
  release_line env acc entry
  = (acc ++ match line_of env entry with Some line => [line] | None => [] end)%list.
Proof.
  destruct entry as [lang info]. unfold release_line, line_of.
  destruct (lang =? "go")%string.
  { unfold go_line, go_tag. destruct (negb (Path info =? ".")%string); cbn;
      repeat (rewrite ?append_assoc; cbn); reflexivity. }
  destruct (lang =? "typescript")%string.
  { unfold registry_line. cbn. by rewrite !append_assoc. }
  destruct (lang =? "python")%string.
  { unfold registry_line. cbn. by rewrite !append_assoc. }
  destruct (lang =? "php")%string.
  { unfold registry_line. cbn. by rewrite !append_assoc. }
  cbn. by rewrite app_nil_r.
Qed.

Lemma fold_release_line env order acc :
  fold_left (release_line env) order acc = (acc ++ omap (line_of env) order)%list.
Proof.
  revert acc. induction order as [|entry order IH]; intros acc; simpl.
  - by rewrite app_nil_r.
  - rewrite IH, release_line_of, <- app_assoc. by destruct (line_of env entry).
Qed.

Lemma Join_lines line lines :
  nl +:+ strings.Join (line :: lines) nl = lines_text (line :: lines).
Proof.
  revert line. induction lines as [|line' lines IH]; intros line.
  - simpl. by rewrite append_nil_r.
  - change (strings.Join (line :: line' :: lines) nl)
      with (line +:+ nl +:+ strings.Join (line' :: lines) nl).
    rewrite IH. reflexivity.
Qed.

(** The text [ReleasesInfo.String] yields, whatever the order of the
    visit: a blank line, the header, and the release lines under their
    heading. *)
Lemma String_in_lines env r order :
  String_in env r order
  = nl +:+ nl +:+ header_text r +:+ releases_text (omap (line_of env) order).
Proof.
  unfold String_in, header_text. rewrite fold_release_line. simpl app.
  rewrite !append_assoc. do 13 f_equal.
  destruct (omap (line_of env) order) as [|line lines]; [done|].
  cbn [length Nat.ltb Nat.leb releases_text].
  change (strings.Join ((nl +:+ "### Releases") :: line :: lines) nl)
    with ((nl +:+ "### Releases") +:+ nl +:+ strings.Join (line :: lines) nl).
  by rewrite Join_lines, append_assoc.
Qed.

Lemma lines_text_single lines :
  Forall (fun line => one_line line /\ line <> "") lines -> single_block (lines_text lines).
Proof.
  induction 1 as [|line lines [Hline Hne] _ IH]; simpl; [apply single_block_nil|].
  apply single_block_nl.
  - destruct line as [|c line]; [done|]. simpl.
    unfold one_line in Hline. simpl in Hline. apply andb_true_iff in Hline as [Hc _].
    apply negb_true_iff in Hc. by apply Ascii.eqb_neq.
  - by apply single_block_one_line.
Qed.

Lemma releases_text_single lines :
  Forall (fun line => one_line line /\ line <> "") lines -> single_block (releases_text lines).
Proof.
  intros H. destruct lines as [|line lines]; [apply single_block_nil|].
  unfold releases_text. apply single_block_nl; [done|].
  apply (single_block_one_line "### Releases"); [done|]. by apply lines_text_single.
Qed.

Lemma releases_text_ends lines : line_ends (releases_text lines).
Proof. by destruct lines. Qed.

Lemma lines_text_ends lines : line_ends (lines_text lines).
Proof. by destruct lines. Qed.

Lemma written_block_single r lines :
  one_line (ReleaseTitle r) -> one_line (DocVersion r) ->
  one_line (DocLocation r) -> one_line (SpeakeasyVersion r) ->
  Forall (fun line => one_line line /\ line <> "") lines ->
  single_block (header_text r +:+ releases_text lines).
Proof.
  intros HT HDV HDL HSV Hlines. unfold header_text.
  rewrite !append_assoc.
  apply (single_block_one_line "## "); [done|].
  apply single_block_one_line; [done|].
  apply single_block_nl; [done|].
  apply (single_block_one_line "### Changes"); [done|].
  apply single_block_nl; [done|].
  apply (single_block_one_line "Based on:"); [done|].
  apply single_block_nl; [done|].
  apply (single_block_one_line "- OpenAPI Doc "); [done|].
  apply single_block_one_line; [done|].
  apply (single_block_one_line " "); [done|].
  apply single_block_one_line; [done|].
  apply single_block_nl; [done|].
  apply (single_block_one_line "- Speakeasy CLI "); [done|].
  apply single_block_one_line; [done|].
  apply (single_block_one_line " https://github.com/speakeasy-api/speakeasy"); [done|].
  by apply releases_text_single.
Qed.

(** After any earlier content, the last block of the ledger is the block
    just written, preceded by a line feed when the earlier content ends
    in an odd run of line feeds. *)
Lemma last_written env file r order :
  one_line (ReleaseTitle r) -> one_line (DocVersion r) ->
  one_line (DocLocation r) -> one_line (SpeakeasyVersion r) ->
  Forall (fun line => one_line line /\ line <> "") (omap (line_of env) order) ->
  exists before,
    (before = "" \/ before = nl)
    /\ last_release (UpdateReleasesFile env file r order)
       = before +:+ header_text r +:+ releases_text (omap (line_of env) order).
Proof.
  intros HT HDV HDL HSV Hlines. unfold UpdateReleasesFile, last_release.
  rewrite String_in_lines.
  destruct (last_block (default "" file)
              (header_text r +:+ releases_text (omap (line_of env) order))) as [H|H].
  - by apply written_block_single.
  - done.
  - exists "". split; [by left|]. exact H.
  - exists nl. split; [by right|]. exact H.
Qed.

Lemma line_of_supported env lang info line :
  line_of env (lang, info) = Some line -> supported lang.
Proof.
  unfold line_of, supported.
  destruct (String.eqb_spec lang "go"); [tauto|].
  destruct (String.eqb_spec lang "typescript"); [tauto|].
  destruct (String.eqb_spec lang "python"); [tauto|].
  destruct (String.eqb_spec lang "php"); [tauto|done].
Qed.

Lemma line_of_one_line env lang info line :
  one_line (Getenv env "GITHUB_REPOSITORY") ->
  one_line (Version info) -> one_line (PackageName info) -> one_line (Path info) ->
  line_of env (lang, info) = Some line ->
  one_line line /\ line <> "".
Proof.
  intros Hrepo Hver Hpkg Hpath. unfold line_of, go_line, go_tag, registry_line.
  repeat case_match; intros [= <-]; (split; [|done]);
    repeat (apply one_line_app; try done).
Qed.

Lemma lines_one_line env order :
  one_line (Getenv env "GITHUB_REPOSITORY") ->
  (forall lang info,
     In (lang, info) order -> supported lang ->
     one_line (Version info) /\ one_line (PackageName info) /\ one_line (Path info)) ->
  Forall (fun line => one_line line /\ line <> "") (omap (line_of env) order).
Proof.
  intros Hrepo Hentries. apply Forall_forall. intros line Hline.
  apply list_elem_of_omap in Hline as ([lang info] & Hin & Hline).
  apply list_elem_of_In in Hin.
  destruct (Hentries lang info Hin (line_of_supported _ _ _ _ Hline)) as (? & ? & ?).
  by eapply line_of_one_line.
Qed.

(** The header of the block just written is found and read. *)
Lemma written_header_found r before rest :
  before = "" \/ before = nl ->
  one_line (ReleaseTitle r) -> word (DocVersion r) ->
  one_line (DocLocation r) -> word (SpeakeasyVersion r) ->
  exists whole,
    FindStringSubmatch releaseInfoRegex (before +:+ header_text r +:+ rest)
    = [whole; ReleaseTitle r; DocVersion r; DocLocation r; SpeakeasyVersion r].
Proof.
  intros Hbefore HT HDV HDL HSV.
  exists ("## " +:+ ReleaseTitle r +:+ preamble +:+ "- OpenAPI Doc " +:+ DocVersion r
          +:+ " " +:+ DocLocation r +:+ nl +:+ "- Speakeasy CLI " +:+ SpeakeasyVersion r
          +:+ " ").
  destruct Hbefore as [-> | ->].
  - apply FindStringSubmatch_here.
    change ("" +:+ header_text r +:+ rest) with (header_text r +:+ rest).
    by apply header_match_here.
  - etransitivity.
    { apply FindStringSubmatch_skip. intros b1 b2 Hb Hb2.
      destruct b1 as [|x b1]; simpl in Hb.
      - subst b2. apply match_here_label. reflexivity.
      - injection Hb as _ Hb. destruct b1; simpl in Hb; [by subst b2|discriminate]. }
    apply FindStringSubmatch_here. by apply header_match_here.
Qed.

(** X10. The header of a record is read back as written. A record
    formatted by [ReleasesInfo.String], in whatever order its languages
    are visited, and appended to a ledger with any earlier content, is
    parsed by [ParseReleases] into a record with the same title,
    document version, document location and tool version, when the
    title and the location hold no line feed, the two versions neither
    a line feed nor a space, and the fields written for the languages
    with a label no line feed. *)
Theorem header_round_trip
    (env : gmap string string) (file : option string) (r : ReleasesInfo)
    (order : list (string * LanguageReleaseInfo)) :
  one_line (ReleaseTitle r) -> word (DocVersion r) ->
  one_line (DocLocation r) -> word (SpeakeasyVersion r) ->
  one_line (Getenv env "GITHUB_REPOSITORY") ->
  (forall lang info,
     In (lang, info) order -> supported lang ->
     one_line (Version info) /\ one_line (PackageName info) /\ one_line (Path info)) ->
  exists info,
    ParseReleases (UpdateReleasesFile env file r order) = (Some info, None)
    /\ ReleaseTitle info = ReleaseTitle r
    /\ DocVersion info = DocVersion r
    /\ DocLocation info = DocLocation r
    /\ SpeakeasyVersion info = SpeakeasyVersion r.
Proof.
  intros HT HDV HDL HSV Hrepo Hentries.
  destruct (last_written env file r order) as (before & Hbefore & Hlast);
    [done|by apply word_one_line|done|by apply word_one_line|by apply lines_one_line|].
  destruct (written_header_found r before (releases_text (omap (line_of env) order))
              Hbefore HT HDV HDL HSV) as [whole Hfound].
  unfold ParseReleases. cbv zeta. fold (last_release (UpdateReleasesFile env file r order)).
  rewrite Hlast, Hfound. cbn [length Nat.eqb negb at_ nth]. eexists. split; [reflexivity|].
  done.
Qed.

Lemma header_round_trip_witness :
  exists info,
    ParseReleases
      (UpdateReleasesFile example_env (Some "# Releases") (example_record "go" "org/repo")
         (map_to_list (Languages (example_record "go" "org/repo"))))
    = (Some info, None)
    /\ ReleaseTitle info = "v1.2.0"
    /\ DocVersion info = "1.0.0"
    /\ DocLocation info = "spec.yaml"
    /\ SpeakeasyVersion info = "1.20.0".
Proof.
  apply (header_round_trip example_env (Some "# Releases") (example_record "go" "org/repo")
           (map_to_list (Languages (example_record "go" "org/repo")))).
  - reflexivity.
  - reflexivity.
  - reflexivity.
  - reflexivity.
  - reflexivity.
  - intros lang info Hin _. vm_compute in Hin. destruct Hin as [Hin|[]].
    injection Hin as _ <-. by repeat split.
Defined.

(** ** Where the label of a release line begins *)

Lemma begins_nowhere_nil label s : begins_nowhere label "" s.
Proof. intros b1 b2 Hb Hne. destruct b1, b2; done. Qed.

Lemma begins_nowhere_app label x y s :
  begins_nowhere label x (y +:+ s) -> begins_nowhere label y s ->
  begins_nowhere label (x +:+ y) s.
Proof.
  intros Hx Hy b1 b2 Hb Hne.
  apply append_eq_append in Hb as [(e & Hx' & Hb2)|(e & Hb1 & Hy')].
  - subst b2. destruct e as [|c e].
    + simpl in *. by apply (Hy "" y).
    + rewrite append_assoc. by apply (Hx b1 (String c e)).
  - by apply (Hy e b2).
Qed.

(** A label with its bracket in third place begins nowhere in a text
    without brackets, unless a bracket follows soon after. *)
Lemma begins_nowhere_unbracketed a b label x s :
  a <> "["%char -> b <> "["%char ->
  unbracketed x -> no_bracket_soon s ->
  begins_nowhere (String a (String b (String "[" label))) x s.
Proof.
  intros Ha Hb Hx Hs b1 b2 Heq Hne. subst x.
  unfold unbracketed in Hx. rewrite every_app in Hx.
  apply andb_true_iff in Hx as [_ Hx]. unfold is_not in Hx.
  destruct b2 as [|x0 [|x1 [|x2 b2]]]; [done|..]; simpl in *.
  - destruct s as [|s0 [|s1 s]]; simpl; rewrite ?andb_false_r; try done.
    destruct Hs as [_ Hs1]. apply Ascii.eqb_neq in Hs1.
    by rewrite Hs1, !andb_false_r.
  - destruct s as [|s0 s]; simpl; rewrite ?andb_false_r; try done.
    assert (s0 <> "["%char) as Hs0 by (destruct s; [done|by destruct Hs]).
    apply Ascii.eqb_neq in Hs0. by rewrite Hs0, !andb_false_r.
  - apply andb_true_iff in Hx as [_ Hx]. apply andb_true_iff in Hx as [_ Hx].
    apply andb_true_iff in Hx as [Hx2 _]. apply negb_true_iff in Hx2.
    by rewrite Hx2, !andb_false_r.
Qed.

Lemma begins_nowhere_line label line s :
  other_line (String "-" (String " " (String "[" label))) line ->
  no_bracket_soon s ->
  begins_nowhere (String "-" (String " " (String "[" label))) line s.
Proof.
  intros (y & -> & Hy & Hother) Hs.
  change (String "-" (String " " (String "[" y))) with ("- [" +:+ y).
  apply begins_nowhere_app; [|by apply begins_nowhere_unbracketed].
  intros b1 b2 Hb Hne.
  destruct b1 as [|c1 [|c2 [|c3 b1]]]; simpl in Hb.
  - subst b2. exact (Hother s).
  - injection Hb as _ <-. done.
  - injection Hb as _ _ <-. done.
  - injection Hb as _ _ _ Hb. destruct b1; simpl in Hb; [by subst b2|discriminate].
Qed.

Lemma next_line_soon s : next_line s -> no_bracket_soon s.
Proof. intros [->|[t ->]]; [done|]. by split. Qed.

Lemma other_line_next label line s : other_line label line -> next_line (nl +:+ line +:+ s).
Proof. intros (y & -> & _). right. by eexists. Qed.

Lemma other_line_soon label line s : other_line label line -> no_bracket_soon (line +:+ s).
Proof. intros (y & -> & _). by split. Qed.

Lemma lines_text_next lines label s :
  Forall (other_line label) lines -> next_line s -> next_line (lines_text lines +:+ s).
Proof.
  intros [|line lines' Hline _] Hs; [done|].
  simpl. rewrite !append_assoc. by eapply other_line_next.
Qed.

(** The label begins nowhere among the lines of other languages. *)
Lemma begins_nowhere_lines label lines s :
  Forall (other_line (String "-" (String " " (String "[" label)))) lines ->
  next_line s ->
  begins_nowhere (String "-" (String " " (String "[" label))) (lines_text lines) s.
Proof.
  intros Hlines Hs. induction Hlines as [|line lines Hline Hlines IH]; simpl.
  - apply begins_nowhere_nil.
  - apply (begins_nowhere_app _ nl).
    { apply begins_nowhere_unbracketed; [done|done|done|].
      rewrite append_assoc. by eapply other_line_soon. }
    apply begins_nowhere_app; [|exact IH].
    apply begins_nowhere_line; [done|].
    apply next_line_soon. by eapply lines_text_next.
Qed.

(** ** Where a release line is found among others *)

Lemma lines_text_app l1 l2 : lines_text (l1 ++ l2) = lines_text l1 +:+ lines_text l2.
Proof.
  induction l1 as [|line l1 IH]; simpl; [done|]. by rewrite IH, !append_assoc.
Qed.

Lemma unbracketed_app a b : unbracketed a -> unbracketed b -> unbracketed (a +:+ b).
Proof. unfold unbracketed. intros Ha Hb. by rewrite every_app, Ha, Hb. Qed.

Lemma FindStringSubmatch_nowhere label rest x :
  label <> "" ->
  begins_nowhere label x "" ->
  FindStringSubmatch (Cat (Str label) rest) x = [].
Proof.
  intros Hlabel Hx. rewrite <- (append_nil_r x).
  rewrite FindStringSubmatch_skip.
  - simpl. rewrite match_here_label; [done|]. by destruct label.
  - intros b1 b2 Hb Hne. apply match_here_label. by apply (Hx b1 b2).
Qed.

Section Among.
Variables (label : string) (rest : regex).

(** In a block whose other release lines carry other labels, the pattern
    is first matched at the line with its label. *)
Lemma found_among_lines top l1 line l2 matches :
  unbracketed top ->
  Forall (other_line (bracket_label label)) l1 ->
  (exists t, line = String "-" (String " " t)) ->
  match_here (Cat (Str (bracket_label label)) rest) (line +:+ lines_text l2) = Some matches ->
  FindStringSubmatch (Cat (Str (bracket_label label)) rest)
    (top +:+ releases_text (l1 ++ line :: l2)) = matches.
Proof.
  intros Htop Hl1 [t Hline] Hmatch.
  assert (releases_text (l1 ++ line :: l2)
          = nl +:+ "### Releases" +:+ lines_text l1 +:+ nl +:+ line +:+ lines_text l2) as ->.
  { unfold releases_text. rewrite lines_text_app. simpl lines_text.
    by destruct l1. }
  replace (top +:+ nl +:+ "### Releases" +:+ lines_text l1 +:+ nl +:+ line +:+ lines_text l2)
    with (((top +:+ nl +:+ "### Releases") +:+ lines_text l1 +:+ nl)
          +:+ line +:+ lines_text l2)
    by (by rewrite !append_assoc).
  rewrite FindStringSubmatch_skip; [by apply FindStringSubmatch_here|].
  intros b1 b2 Hb Hne. apply match_here_label. revert b1 b2 Hb Hne.
  change (begins_nowhere (bracket_label label)
            ((top +:+ nl +:+ "### Releases") +:+ lines_text l1 +:+ nl)
            (line +:+ lines_text l2)).
  assert (next_line (nl +:+ line +:+ lines_text l2)) as Hnext.
  { right. subst line. by eexists. }
  apply begins_nowhere_app.
  { apply begins_nowhere_unbracketed; [done|done| |].
    - apply unbracketed_app; [done|]. done.
    - apply next_line_soon. rewrite append_assoc. by eapply lines_text_next. }
  apply begins_nowhere_app; [by apply begins_nowhere_lines|].
  apply begins_nowhere_unbracketed; [done|done|done|].
  subst line. by split.
Qed.

(** In a block whose release lines all carry other labels, the pattern
    is matched nowhere. *)
Lemma absent_among_lines top lines :
  unbracketed top ->
  Forall (other_line (bracket_label label)) lines ->
  FindStringSubmatch (Cat (Str (bracket_label label)) rest) (top +:+ releases_text lines) = [].
Proof.
  intros Htop Hlines. apply FindStringSubmatch_nowhere; [done|].
  apply begins_nowhere_app.
  { apply begins_nowhere_unbracketed; [done|done|done|].
    rewrite append_nil_r. by destruct lines. }
  destruct lines as [|line lines]; [apply begins_nowhere_nil|].
  unfold releases_text. rewrite <- append_assoc.
  apply begins_nowhere_app.
  { apply begins_nowhere_unbracketed; [done|done|done|].
    apply next_line_soon. eapply lines_text_next; [done|by left]. }
  apply begins_nowhere_lines; [done|by left].
Qed.

End Among.

(** ** The release lines of a record *)

Lemma semver3_unbracketed v : Lang semver3 v -> unbracketed v.
Proof.
  intros Hv. apply Lang_semver3_every in Hv. revert Hv.
  apply every_weaken. intros c. unfold digit_or_dot, is_digit, is_not.
  destruct (Ascii.eqb_spec c "[") as [->|]; [done|done].
Qed.

Lemma supported_cases lang :
  supported lang ->
  lang = "go" \/ lang = "typescript" \/ lang = "python" \/ lang = "php".
Proof. done. Qed.

(** The release line of a legible entry of another language cannot be
    taken for a line of [lang]. *)
Lemma legible_other_line env lang lang' info line :
  supported lang -> lang' <> lang ->
  legible env lang' info ->
  line_of env (lang', info) = Some line ->
  other_line (label_of lang) line.
Proof.
  intros Hlang Hne ([Hver Hw] & Hpath & Hpkg) Hline.
  pose proof (semver3_unbracketed _ Hver) as Hv.
  assert (supported lang') as Hlang' by (by eapply line_of_supported).
  unfold line_of in Hline.
  destruct Hlang' as [->|[->|[->| ->]]]; simpl in Hline, Hpkg, Hw;
    injection Hline as <-.
  - exists ("Go v" +:+ Version info +:+ "] https://github.com/"
            +:+ Getenv env "GITHUB_REPOSITORY" +:+ "/releases/tag/"
            +:+ go_tag (Version info) (Path info) +:+ " - " +:+ Path info).
    split; [reflexivity|]. split.
    + unfold go_tag. destruct (negb _); repeat (apply unbracketed_app; try done).
    + intros s. destruct Hlang as [->|[->|[->| ->]]]; [done|reflexivity..].
  - exists ("NPM v" +:+ Version info +:+ "] https://www.npmjs.com/package/"
            +:+ PackageName info +:+ "/v/" +:+ Version info +:+ " - " +:+ Path info).
    split; [reflexivity|]. split.
    + repeat (apply unbracketed_app; try done).
    + intros s. destruct Hlang as [->|[->|[->| ->]]]; [reflexivity|done|reflexivity..].
  - exists ("PyPI v" +:+ Version info +:+ "] https://pypi.org/project/"
            +:+ PackageName info +:+ "/" +:+ Version info +:+ " - " +:+ Path info).
    split; [reflexivity|]. split.
    + repeat (apply unbracketed_app; try done).
    + intros s. destruct Hlang as [->|[->|[->| ->]]]; [reflexivity|reflexivity|done|reflexivity].
  - exists ("Composer v" +:+ Version info +:+ "] https://packagist.org/packages/"
            +:+ PackageName info +:+ "#v" +:+ Version info +:+ " - " +:+ Path info).
    split; [reflexivity|]. split.
    + repeat (apply unbracketed_app; try done).
    + intros s. destruct Hlang as [->|[->|[->| ->]]]; [reflexivity|reflexivity|reflexivity|done].
Qed.

Lemma other_lines env lang order :
  supported lang ->
  (forall lang' info,
     In (lang', info) order -> lang' <> lang /\ (supported lang' -> legible env lang' info)) ->
  Forall (other_line (label_of lang)) (omap (line_of env) order).
Proof.
  intros Hlang Horder. apply Forall_forall. intros line Hline.
  apply list_elem_of_omap in Hline as ([lang' info] & Hin & Hline).
  apply list_elem_of_In in Hin. destruct (Horder lang' info Hin) as [Hne Hleg].
  eapply legible_other_line; [done|exact Hne| |exact Hline].
  apply Hleg. by eapply line_of_supported.
Qed.

(** The pattern of a language, matched at the release line of a legible
    entry of that language, captures what [found] lists. *)
Lemma match_here_found env lang info line t :
  supported lang -> legible env lang info -> line_ends t ->
  line_of env (lang, info) = Some line ->
  match_here (pattern_of lang) (line +:+ t) = Some (found env lang info).
Proof.
  intros Hlang ([Hver Hw] & _ & _) Ht Hline. unfold line_of in Hline.
  destruct Hlang as [->|[->|[->| ->]]]; simpl in Hline, Hw; injection Hline as <-.
  - destruct Hw as (Hrepo & Hcontains & Hpath). by apply go_match_here.
  - destruct Hw as (Hpkg & Hpath).
    exact (registry_match_here "- [NPM v" "https://www.npmjs.com/package/" "/v/" "/"
             eq_refl eq_refl eq_refl _ _ _ t Hver Hpkg Hpath Ht).
  - destruct Hw as (Hpkg & Hpath).
    exact (registry_match_here "- [PyPI v" "https://pypi.org/project/" "/" "/"
             eq_refl eq_refl eq_refl _ _ _ t Hver Hpkg Hpath Ht).
  - destruct Hw as (Hpkg & Hpath).
    exact (registry_match_here "- [Composer v" "https://packagist.org/packages/" "#v" "v"
             eq_refl eq_refl eq_refl _ _ _ t Hver Hpkg Hpath Ht).
Qed.

Lemma supported_line env lang info :
  supported lang ->
  exists line t, line_of env (lang, info) = Some line /\ line = String "-" (String " " t).
Proof.
  unfold line_of, go_line, registry_line.
  intros [->|[->|[->| ->]]]; simpl; by eexists _, _.
Qed.

Lemma pattern_label lang :
  supported lang ->
  exists label rest,
    pattern_of lang = Cat (Str (bracket_label label)) rest
    /\ label_of lang = bracket_label label.
Proof. intros [->|[->|[->| ->]]]; by eexists _, _. Qed.

Lemma header_unbracketed r before :
  before = "" \/ before = nl -> plain_header r -> unbracketed (before +:+ header_text r).
Proof.
  intros Hbefore Hr. apply header_no_bracket in Hr.
  rewrite every_app in Hr. apply andb_true_iff in Hr as [Hr _].
  apply unbracketed_app; [|done]. by destruct Hbefore as [-> | ->].
Qed.

Lemma omap_cons_Some {A B} (f : A -> option B) x l y :
  f x = Some y -> omap f (x :: l) = y :: omap f l.
Proof. simpl. by intros ->. Qed.

Section Search.
Variables (env : gmap string string) (r : ReleasesInfo).
Variable order : list (string * LanguageReleaseInfo).
Hypothesis visit : visits r order.
Hypothesis header : plain_header r.
Hypothesis entries :
  forall lang info, Languages r !! lang = Some info -> supported lang -> legible env lang info.

Lemma visited lang info : In (lang, info) order <-> Languages r !! lang = Some info.
Proof.
  rewrite <- list_elem_of_In, <- elem_of_map_to_list. unfold visits in visit.
  by rewrite visit.
Qed.

Lemma visited_once : NoDup (order.*1).
Proof.
  unfold visits in visit. rewrite visit. apply NoDup_fst_map_to_list.
Qed.

(** What the search of the pattern of a language finds in the block of
    the record: the submatches of its release line if the record has an
    entry for it, else nothing. *)
Lemma search_result before lang :
  supported lang -> before = "" \/ before = nl ->
  FindStringSubmatch (pattern_of lang)
    (before +:+ header_text r +:+ releases_text (omap (line_of env) order))
  = match Languages r !! lang with
    | Some info => found env lang info
    | None => []
    end.
Proof.
  intros Hlang Hbefore.
  destruct (pattern_label lang Hlang) as (label & rest & Hpattern & Hlabel).
  rewrite Hpattern.
  pose proof (header_unbracketed r before Hbefore header) as Htop.
  rewrite <- append_assoc.
  destruct (Languages r !! lang) as [info|] eqn:Hinfo.
  - pose proof (proj2 (visited lang info) Hinfo) as Hin.
    apply list_elem_of_In, list_elem_of_split in Hin as (o1 & o2 & Horder).
    pose proof visited_once as Hnodup. rewrite Horder in Hnodup.
    rewrite fmap_app, fmap_cons in Hnodup. simpl in Hnodup.
    apply NoDup_app in Hnodup as (_ & Hfresh1 & Hnodup).
    apply NoDup_cons in Hnodup as [Hfresh2 _].
    destruct (supported_line env lang info Hlang) as (line & t & Hline & Ht).
    rewrite Horder, omap_app, (omap_cons_Some _ _ _ _ Hline).
    apply found_among_lines; [done| |by eexists|].
    + rewrite <- Hlabel. apply other_lines; [done|].
      intros lang' info' Hin'. split.
      * intros ->. apply (Hfresh1 lang); [|by left].
        apply list_elem_of_fmap. exists (lang, info'). split; [done|].
        by apply list_elem_of_In.
      * apply entries, visited. rewrite Horder. apply in_app_iff. by left.
    + rewrite <- Hpattern.
      apply match_here_found; [done|by apply entries|apply lines_text_ends|done].
  - apply absent_among_lines; [done|].
    rewrite <- Hlabel. apply other_lines; [done|].
    intros lang' info' Hin'. apply visited in Hin'. split; [by intros ->; simplify_eq|].
    by apply entries.
Qed.

End Search.

(** ** A written record, read back in full *)

Lemma lookup_if_insert_eq {V} (b : bool) (k : string) (v : V) (m : gmap string V) :
  (if b then <[k := v]> m else m) !! k = if b then Some v else m !! k.
Proof. destruct b; [by apply lookup_insert_eq | done]. Qed.

Lemma legible_one_line env lang info line :
  legible env lang info -> line_of env (lang, info) = Some line ->
  one_line line /\ line <> "".
Proof.
  intros ([Hver Hw] & _ & _) Hline.
  pose proof (semver3_one_line _ Hver) as Hv.
  assert (supported lang) as Hlang by (by eapply line_of_supported).
  unfold line_of in Hline.
  destruct Hlang as [->|[->|[->| ->]]]; simpl in Hline, Hw; injection Hline as <-.
  - destruct Hw as (Hrepo & _ & Hpath). split; [|done]. by apply go_line_one_line.
  - destruct Hw as (Hpkg & Hpath). split; [|done]. unfold registry_line.
    pose proof (word_one_line _ Hpkg). repeat (apply one_line_app; try done).
  - destruct Hw as (Hpkg & Hpath). split; [|done]. unfold registry_line.
    pose proof (word_one_line _ Hpkg). repeat (apply one_line_app; try done).
  - destruct Hw as (Hpkg & Hpath). split; [|done]. unfold registry_line.
    pose proof (word_one_line _ Hpkg). repeat (apply one_line_app; try done).
Qed.

Lemma found_length env lang info : length (found env lang info) = 5%nat.
Proof. unfold found. by repeat case_match. Qed.

(** X11. The languages of a record are read back as written. A record
    formatted by [ReleasesInfo.String], in whatever order its languages
    are visited, and appended to a ledger with any earlier content, is
    parsed by [ParseReleases] into a record that has, for each of go,
    typescript, python and php that the written record holds, the entry
    [read_back] describes (the written version and path; the written
    package name, or for Go the one rebuilt from GITHUB_REPOSITORY), and
    no entry for any other language. This holds when the header fields
    hold no line feed and no opening bracket and the entries of those
    four languages are [legible]. *)
Theorem languages_round_trip
    (env : gmap string string) (file : option string) (r : ReleasesInfo)
    (order : list (string * LanguageReleaseInfo)) :
  visits r order ->
  plain_header r ->
  (forall lang info,
     Languages r !! lang = Some info -> supported lang -> legible env lang info) ->
  exists info,
    ParseReleases (UpdateReleasesFile env file r order) = (Some info, None)
    /\ forall lang, Languages info !! lang = read_back_entry env (Languages r) lang.
Proof.
  intros Hvisit Hheader Hentries.
  pose proof Hheader as (HT & HDV & HDL & HSV).
  destruct (last_written env file r order) as (before & Hbefore & Hlast);
    [by apply plain_one_line..| |].
  { apply Forall_forall. intros line Hline.
    apply list_elem_of_omap in Hline as ([lang info] & Hin & Hline).
    apply list_elem_of_In, (visited r order Hvisit) in Hin.
    eapply legible_one_line; [|exact Hline].
    apply Hentries; [done|]. by eapply line_of_supported. }
  unfold ParseReleases. cbv zeta. fold (last_release (UpdateReleasesFile env file r order)).
  rewrite Hlast.
  rewrite (FindStringSubmatch_complete releaseInfoRegex _ (header_occurs r before _)).
  cbn [NumSubexp releaseInfoRegex]. simpl Nat.eqb. cbv iota. cbn [negb].
  change npmReleaseRegex with (pattern_of "typescript").
  change pypiReleaseRegex with (pattern_of "python").
  change goReleaseRegex with (pattern_of "go").
  change composerReleaseRegex with (pattern_of "php").
  rewrite !(search_result env r order Hvisit Hheader Hentries before)
    by (done || unfold supported; tauto).
  eexists. split; [reflexivity|]. cbn [Languages]. intros lang.
  unfold read_back_entry, is_supported.
  destruct (String.eqb_spec lang "go") as [->|Hgo].
  { rewrite lookup_if_insert_ne, lookup_if_insert_eq, !lookup_if_insert_ne, lookup_empty by done.
    destruct (Languages r !! "go") as [info|]; [|done].
    rewrite found_length. simpl. unfold read_back. simpl. reflexivity. }
  destruct (String.eqb_spec lang "typescript") as [->|Hts].
  { rewrite !lookup_if_insert_ne, lookup_if_insert_eq, lookup_empty by done.
    destruct (Languages r !! "typescript") as [info|]; [|done].
    by rewrite found_length. }
  destruct (String.eqb_spec lang "python") as [->|Hpy].
  { rewrite !lookup_if_insert_ne, lookup_if_insert_eq, !lookup_if_insert_ne, lookup_empty
      by done.
    destruct (Languages r !! "python") as [info|]; [|done].
    by rewrite found_length. }
  destruct (String.eqb_spec lang "php") as [->|Hphp].
  { rewrite lookup_if_insert_eq, !lookup_if_insert_ne, lookup_empty by done.
    destruct (Languages r !! "php") as [info|]; [|done].
    by rewrite found_length. }
  rewrite !lookup_if_insert_ne by done. apply lookup_empty.
Qed.

Lemma example_release_legible lang info :
  Languages example_release !! lang = Some info -> supported lang ->
  legible example_env lang info.
Proof.
  intros Hinfo [->|[->|[->| ->]]]; vm_compute in Hinfo; simplify_eq.
  - split; [|by split]. split; [|by repeat split].
    apply (Lang_semver3_intro "1" "2" "0"); apply Lang_Plus_Digit; by split.
  - split; [|by split]. split; [|by repeat split].
    apply (Lang_semver3_intro "0" "3" "1"); apply Lang_Plus_Digit; by split.
Qed.

Lemma languages_round_trip_witness :
  exists info,
    ParseReleases
      (UpdateReleasesFile example_env (Some "# Releases") example_release
         (map_to_list (Languages example_release)))
    = (Some info, None)
    /\ Languages info !! "typescript"
       = Some {| PackageName := "@org/sdk"; Path := "ts"; Version := "0.3.1";
                 URL := "https://www.npmjs.com/package/@org/sdk/v/0.3.1" |}
    /\ Languages info !! "java" = None.
Proof.
  destruct (languages_round_trip example_env (Some "# Releases") example_release
              (map_to_list (Languages example_release)))
    as (info & Hparse & Hlang).
  - unfold visits. reflexivity.
  - by repeat split.
  - exact example_release_legible.
  - exists info. split; [exact Hparse|]. rewrite !Hlang. split; vm_compute; reflexivity.
Defined.

(** ** Earlier content of the ledger *)

Lemma FindStringSubmatch_after_nl label rest s :
  strings.HasPrefix (nl +:+ s) label = false ->
  FindStringSubmatch (Cat (Str label) rest) (nl +:+ s)
  = FindStringSubmatch (Cat (Str label) rest) s.
Proof.
  intros Hlabel. apply FindStringSubmatch_skip. intros b1 b2 Hb Hne.
  destruct b1 as [|x b1]; simpl in Hb.
  - subst b2. by apply match_here_label.
  - injection Hb as _ Hb. destruct b1; simpl in Hb; [by subst b2|discriminate].
Qed.

Lemma ParseReleases_after_nl block :
  single_block block -> single_block (nl +:+ block) ->
  ParseReleases (nl +:+ block) = ParseReleases block.
Proof.
  unfold single_block, blank_line. intros Hb Hnb.
  unfold ParseReleases, strings.Split. rewrite Hb, Hnb. cbn [List.last].
  unfold releaseInfoRegex, npmReleaseRegex, pypiReleaseRegex, goReleaseRegex,
    composerReleaseRegex.
  by rewrite !FindStringSubmatch_after_nl by reflexivity.
Qed.

(** X12. What the ledger held before the last block changes nothing: a
    block without a blank line that does not begin with a line feed is
    parsed, behind any earlier content and a blank line, as it is
    parsed alone. *)
Theorem earlier_content_ignored (earlier block : string) :
  single_block block -> no_line_feed_ahead block ->
  ParseReleases (earlier +:+ nl +:+ nl +:+ block) = ParseReleases block.
Proof.
  intros Hb Ha.
  rewrite (ParseReleases_last_block_of (earlier +:+ nl +:+ nl +:+ block)).
  destruct (last_block earlier block Hb Ha) as [-> | ->]; [done|].
  apply ParseReleases_after_nl; [done|]. by apply single_block_nl.
Qed.

Lemma earlier_content_ignored_witness :
  ParseReleases ("# Releases" +:+ nl +:+ nl +:+ nl +:+ header_text example_release)
  = ParseReleases (header_text example_release).
Proof.
  apply (earlier_content_ignored ("# Releases" +:+ nl) (header_text example_release)).
  - vm_compute. reflexivity.
  - vm_compute. discriminate.
Defined.

(** ** What a non-greedy group leaves out *)

Section Minimal.
Context {R : Type}.
Implicit Types (k : string -> list string -> option R) (res : R).

(** A non-greedy [.*?] under the flag [s] stops at the first place where
    what follows succeeds: it succeeded nowhere before. *)
Lemma lazy_minimal k fuel s caps res :
  lazy (exec DotAll) k fuel s caps = Some res ->
  exists m rest,
    s = m +:+ rest /\ k rest caps = Some res
    /\ forall m1 m2, m = m1 +:+ m2 -> m2 <> "" -> k (m2 +:+ rest) caps = None.
Proof.
  revert s. induction fuel as [|fuel IH]; intros s H.
  - simpl in H. destruct (k s caps) as [res'|] eqn:Hk; [|done]. simplify_eq.
    exists "", s. split; [done|]. split; [done|]. by intros [|] [|].
  - cbn [lazy] in H. destruct (k s caps) as [res'|] eqn:Hk.
    { simplify_eq. exists "", s. split; [done|]. split; [done|]. by intros [|] [|]. }
    destruct s as [|c s]; [done|]. simpl in H.
    destruct (_ <? _)%nat; [|done].
    apply IH in H as (m & rest & -> & Hrest & Hmin).
    exists (String c m), rest. split; [done|]. split; [done|].
    intros [|c1 m1] m2 Hm Hne; simpl in Hm.
    + by subst m2.
    + injection Hm as _ Hm. by apply (Hmin m1 m2).
Qed.

End Minimal.

Lemma every_is_not c m :
  (forall m1 m3, m <> m1 +:+ String c m3) -> strings.every (is_not c) m = true.
Proof.
  induction m as [|x m IH]; intros Hm; simpl; [done|].
  unfold is_not at 1. destruct (Ascii.eqb_spec x c) as [->|Hx].
  - by destruct (Hm "" m).
  - simpl. apply IH. intros m1 m3 ->. by apply (Hm (String x m1) m3).
Qed.

(** A non-greedy group that a space follows holds no space, when what
    comes after the space can take in any text first and the rest of
    the search never fails. *)
Lemma group_no_space {R} i tail s caps (k : string -> list string -> option R) res :
  (forall t c, is_Some (k t c)) ->
  (forall x u, Lang tail u -> Lang tail (x +:+ u)) ->
  exec (Cat (Group i (LazyStar DotAll)) (Cat (Str " ") tail)) s caps k = Some res ->
  exists m rest,
    strings.every (is_not " ") m = true
    /\ exec (Cat (Str " ") tail) rest (<[i := m]> caps) k = Some res.
Proof.
  intros Hk Htail H.
  change (lazy (exec DotAll)
            (fun s' caps' => exec (Cat (Str " ") tail) s' (<[i := consumed s s']> caps') k)
            (String.length s) s caps = Some res) in H.
  apply lazy_minimal in H as (m & rest & -> & Hrest & Hmin).
  rewrite consumed_app in Hrest.
  exists m, rest. split; [|exact Hrest].
  apply every_is_not. intros m1 m3 ->.
  specialize (Hmin m1 (String " " m3) eq_refl ltac:(done)).
  apply exec_sound in Hrest as (u0 & rest2 & caps' & -> & Hu0 & _ & _ & _).
  apply Lang_Cat_inv in Hu0 as (sp & u & -> & Hsp & Hu).
  apply Lang_Str_inv in Hsp as ->.
  eapply is_Some_None. rewrite <- Hmin.
  replace (String " " m3 +:+ (" " +:+ u) +:+ rest2)
    with ((" " +:+ (m3 +:+ " " +:+ u)) +:+ rest2)
    by (by rewrite !append_assoc).
  apply exec_complete.
  - apply Lang_Cat; [constructor|].
    replace (m3 +:+ " " +:+ u) with ((m3 +:+ " ") +:+ u) by (by rewrite append_assoc).
    by apply Htail.
  - intros caps''. apply Hk.
Qed.

(** What a match of the header pattern captures for the two versions. *)
Lemma header_versions_shape s matches :
  match_here releaseInfoRegex s = Some matches ->
  strings.every (is_not " ") (at_ matches 2) = true
  /\ strings.every (is_not " ") (at_ matches 4) = true.
Proof.
  unfold match_here, releaseInfoRegex.
  set (caps0 := replicate _ _). intros H.
  assert (Hlen0 : length caps0 = 5%nat) by done. clearbody caps0.
  apply exec_Cat_frame in H as (s1 & caps1 & Hlen1 & _ & H).
  change (exec (Cat (Group 1 ?r) ?tl) ?s ?caps ?k)
    with (exec (Group 1 r) s caps (fun s' caps' => exec tl s' caps' k)) in H.
  apply exec_Group_frame in H as (m1 & s2 & caps2 & _ & Hlen2 & _ & H).
  apply exec_Cat_frame in H as (s3 & caps3 & Hlen3 & _ & H).
  apply group_no_space in H as (m2 & s4 & Hm2 & H); [|by eexists| ].
  2:{ intros x u Hu. apply Lang_Cat_inv in Hu as (g & u' & -> & _ & Hu').
      rewrite <- append_assoc. apply Lang_Cat; [|done].
      apply Lang_Group, Lang_any_DotAll. }
  apply exec_Cat_frame in H as (s5 & caps5 & Hlen5 & Hframe5 & H).
  change (exec (Cat (Group 3 ?r) ?tl) ?s ?caps ?k)
    with (exec (Group 3 r) s caps (fun s' caps' => exec tl s' caps' k)) in H.
  apply exec_Group_frame in H as (m3 & s6 & caps6 & _ & Hlen6 & Hframe6 & H).
  apply exec_Cat_frame in H as (s7 & caps7 & Hlen7 & Hframe7 & H).
  apply group_no_space in H as (m4 & s8 & Hm4 & H);
    [|by eexists|intros x u _; apply Lang_any_DotAll].
  apply exec_sound in H as (_ & s9 & caps9 & _ & _ & Hlen9 & Hframe9 & H).
  simplify_eq. unfold at_. rewrite ?length_insert in *.
  split.
  - rewrite (nth_lookup_Some _ _ "" m2); [done|].
    rewrite list_lookup_insert_ne by done.
    rewrite Hframe9 by (cbn; apply not_elem_of_nil).
    rewrite list_lookup_insert_ne by done.
    rewrite Hframe7 by apply not_elem_of_nil.
    rewrite list_lookup_insert_ne by done.
    rewrite Hframe6 by apply not_elem_of_nil.
    rewrite Hframe5 by apply not_elem_of_nil.
    apply list_lookup_insert_eq. lia.
  - rewrite (nth_lookup_Some _ _ "" m4); [done|].
    rewrite list_lookup_insert_ne by done.
    rewrite Hframe9 by (cbn; apply not_elem_of_nil).
    apply list_lookup_insert_eq. lia.
Qed.

(** X13. A document version and a tool version read from the ledger
    never hold a space: the two groups stop at the first space, so a
    version written with a space in it is not read back whole. *)
Theorem parsed_versions_without_space (data : string) (info : ReleasesInfo) :
  ParseReleases data = (Some info, None) ->
  strings.every (is_not " ") (DocVersion info) = true
  /\ strings.every (is_not " ") (SpeakeasyVersion info) = true.
Proof.
  unfold ParseReleases. cbv zeta. fold (last_release data).
  destruct (negb _) eqn:Hfive; [done|]. intros [= <-]. cbn [DocVersion SpeakeasyVersion].
  destruct (FindStringSubmatch_match_here releaseInfoRegex (last_release data)) as [t Ht].
  { intros Hnil. by rewrite Hnil in Hfive. }
  by apply header_versions_shape in Ht.
Qed.

Lemma parsed_versions_without_space_witness :
  exists info,
    ParseReleases
      (nl +:+ nl +:+ "## v1.2.0" +:+ nl +:+ "### Changes" +:+ nl +:+ "Based on:" +:+ nl
       +:+ "- OpenAPI Doc 1.0 beta spec.yaml" +:+ nl
       +:+ "- Speakeasy CLI 1.20.0 https://github.com/speakeasy-api/speakeasy")
    = (Some info, None)
    /\ DocVersion info = "1.0" /\ DocLocation info = "beta spec.yaml"
    /\ strings.every (is_not " ") (DocVersion info) = true.
Proof.
  eexists. split; [vm_compute; reflexivity|]. split; [reflexivity|]. split; [reflexivity|].
  eapply (parsed_versions_without_space
            (nl +:+ nl +:+ "## v1.2.0" +:+ nl +:+ "### Changes" +:+ nl +:+ "Based on:" +:+ nl
             +:+ "- OpenAPI Doc 1.0 beta spec.yaml" +:+ nl
             +:+ "- Speakeasy CLI 1.20.0 https://github.com/speakeasy-api/speakeasy")).
  vm_compute. reflexivity.
Defined.

(** ** Reading the ledger from the file *)

(** X14. [GetLastReleaseInfo] returns a record or an error, never both
    and never neither. When the file cannot be read it returns a nil
    record and the error of the read behind "error reading releases
    file: "; when it is read, a record and a nil error if the header
    pattern matches somewhere in the last block, else a nil record and
    the error "error parsing last release info". *)
Theorem GetLastReleaseInfo_outcome (read : string + error) :
  match read with
  | inr err =>
      GetLastReleaseInfo read = (None, Some ("error reading releases file: " +:+ err))
  | inl data =>
      (occurs releaseInfoRegex (last_release data)
       /\ exists info, GetLastReleaseInfo read = (Some info, None))
      \/ (~ occurs releaseInfoRegex (last_release data)
          /\ GetLastReleaseInfo read = (None, Some "error parsing last release info"))
  end.
Proof.
  destruct read as [data|err]; [|reflexivity]. simpl.
  destruct (FindStringSubmatch releaseInfoRegex (last_release data)) as [|whole fields] eqn:E.
  - right. split; [|by apply ParseReleases_no_header].
    intros Hoc. apply FindStringSubmatch_occurs in Hoc. by rewrite E in Hoc.
  - left. assert (occurs releaseInfoRegex (last_release data)) as Hoc.
    { apply FindStringSubmatch_occurs. by rewrite E. }
    split; [done|]. by apply well_formed_ledger_accepted.
Qed.
